(** * monaco-botbuilder-lg: the language-feature adapters

    A shallow embedding of [src/languageFeatures.ts] (the diagnostics and
    completion adapters) and of [LanguageServiceDefaultsImpl] from
    [src/monaco.contribution.ts].

    Conventions
    - a JavaScript [number] that holds an integer is a [Z]; loop counters and
      timer handles, which only count up from zero, are [nat];
    - a [Uri] is identified with its [toString()], the key the adapter uses;
    - the host (the editor's model registry, marker service, timers and the
      promises it settles) is an explicit state record stepped by events;
      time is a clock in milliseconds.

    Left out: the unused enum [IndentStyle], the adapters that are commented
    out, and the registration code at the end of [monaco.contribution.ts]. *)

From stdpp Require Import gmap strings list fin_maps.
From Stdlib Require Import ZArith Lia.

(** ** Utilities copied from TypeScript (region [utils]) *)

Definition Uri := string.

(** [ts.DiagnosticMessageChain]: only [messageText] and [next] are read. *)
#[warnings="-register-all"]
Inductive DiagnosticMessageChain : Type :=
  MkChain { chain_messageText : string;
            chain_next : option DiagnosticMessageChain }.

(** [string | ts.DiagnosticMessageChain] *)
Inductive MessageText : Type :=
| FlatText (s : string)
| ChainText (c : DiagnosticMessageChain).

(** The line feed, ['\n']. *)
Definition LF : string := String (Ascii.ascii_of_nat 10) EmptyString.

(** [for (let i = 0; i < indent; i++) { result += "  "; }] *)
Fixpoint indent_loop (indent : nat) (result : string) : string :=
  match indent with
  | O => result
  | S k => indent_loop k (result +:+ "  ")
  end.

(** The body of [while (diagnosticChain) { ... }], with the loop variables
    [result] and [indent] as accumulators. *)
Fixpoint flatten_while (newLine : string) (diagnosticChain : DiagnosticMessageChain)
    (result : string) (indent : nat) : string :=
  let result :=
    match indent with
    | O => result
    | S _ => indent_loop indent (result +:+ newLine)
    end in
  let result := result +:+ chain_messageText diagnosticChain in
  match chain_next diagnosticChain with
  | Some next => flatten_while newLine next result (S indent)
  | None => result
  end.

(** The parameter [newLine] has the literal type ['\n']: every call passes
    [LF]. *)
Definition flattenDiagnosticMessageText (messageText : MessageText)
    (newLine : string) : string :=
  match messageText with
  | FlatText s => s
  | ChainText diagnosticChain => flatten_while newLine diagnosticChain EmptyString 0
  end.

(** A chain built from its first text and the texts of the links that follow,
    each reached through the previous link's [next]. *)
Fixpoint chain_of (first : string) (rest : list string) : DiagnosticMessageChain :=
  match rest with
  | [] => MkChain first None
  | s :: rest' => MkChain first (Some (chain_of s rest'))
  end.

(** The chain ["A","B","C"] of the specification's example. *)
Definition chain_ABC : MessageText := ChainText (chain_of "A" ["B"; "C"]).

(** The texts of the links of a chain, first link first. *)
Fixpoint chain_links (c : DiagnosticMessageChain) : list string :=
  chain_messageText c ::
  match chain_next c with
  | Some next => chain_links next
  | None => []
  end.

(** *** The rendering the specification describes

    Written from the prose: a link at depth zero is its text; a link at a
    deeper level is a newline, two spaces per level, then its text; the
    rendering is the concatenation, depth counting up by one per link. *)
Fixpoint indentation (depth : nat) : string :=
  match depth with
  | O => EmptyString
  | S k => "  " +:+ indentation k
  end.

Definition render_link (depth : nat) (text : string) : string :=
  match depth with
  | O => text
  | S _ => LF +:+ indentation depth +:+ text
  end.

Fixpoint render_links (depth : nat) (links : list string) : string :=
  match links with
  | [] => EmptyString
  | text :: links' => render_link depth text +:+ render_links (S depth) links'
  end.

Definition flatten_spec (messageText : MessageText) : string :=
  match messageText with
  | FlatText s => s
  | ChainText c => render_links 0 (chain_links c)
  end.

(** ** Severities *)

(** [monaco.MarkerSeverity] *)
Inductive MarkerSeverity : Type :=
| Hint | Info | Warning | Error.

(** The numeric members of [ts.DiagnosticCategory], declared in [lgService],
    which the adapter only imports. *)
Record DiagnosticCategory : Type := {
  Category_Error : Z;
  Category_Warning : Z;
  Category_Message : Z;
  Category_Suggestion : Z
}.

(** The members are pairwise different numbers, as those of an enum are. *)
Definition distinct_categories (ts : DiagnosticCategory) : Prop :=
  NoDup [Category_Error ts; Category_Warning ts;
         Category_Message ts; Category_Suggestion ts].

(** A number that is none of the four members. *)
Definition unrecognized (ts : DiagnosticCategory) (n : Z) : Prop :=
  n ≠ Category_Error ts ∧ n ≠ Category_Warning ts ∧
  n ≠ Category_Message ts ∧ n ≠ Category_Suggestion ts.

(** The enum as TypeScript's own services declare it. *)
Definition typescript_categories : DiagnosticCategory :=
  {| Category_Warning := 0; Category_Error := 1;
     Category_Suggestion := 2; Category_Message := 3 |}.

(** [switch (lsSeverity)]: the first matching [case] wins. *)
Definition toSeverity (ts : DiagnosticCategory) (lsSeverity : Z) : MarkerSeverity :=
  if Z.eqb lsSeverity (Category_Error ts) then Error
  else if Z.eqb lsSeverity (Category_Warning ts) then Warning
  else if Z.eqb lsSeverity (Category_Message ts) then Info
  else if Z.eqb lsSeverity (Category_Suggestion ts) then Hint
  else Info.

(** ** Data of the diagnostics pipeline *)

(** [ts.Diagnostic], as far as [_convertDiagnostics] reads it. *)
Record Diagnostic : Type := {
  category : Z;
  start : Z;
  startColumn : Z;
  end_ : Z;
  endColumn : Z;
  messageText : MessageText
}.

(** [monaco.editor.IMarkerData] *)
Record IMarkerData : Type := {
  marker_severity : MarkerSeverity;
  marker_startLineNumber : Z;
  marker_startColumn : Z;
  marker_endLineNumber : Z;
  marker_endColumn : Z;
  marker_message : string
}.

Definition _convertDiagnostics (ts : DiagnosticCategory) (resource : Uri)
    (diag : Diagnostic) : IMarkerData :=
  {| marker_severity := toSeverity ts (category diag);
     marker_startLineNumber := start diag;
     marker_startColumn := startColumn diag;
     marker_endLineNumber := end_ diag;
     marker_endColumn := endColumn diag;
     marker_message := flattenDiagnosticMessageText (messageText diag) LF |}.

(** [Array.prototype.join] *)
Fixpoint join (sep : string) (parts : list string) : string :=
  match parts with
  | [] => EmptyString
  | [s] => s
  | s :: rest => s +:+ sep +:+ join sep rest
  end.

(** ** Promises

    A promise is seen at the moment it settles.  Reaction callbacks run in
    the state of the world of that moment and may change it. *)
Inductive Settled (A : Type) : Type :=
| Fulfilled (value : A)
| Rejected (reason : string).
Arguments Fulfilled {A} value.
Arguments Rejected {A} reason.

(** [p.then(onFulfilled)]: a rejection passes through untouched. *)
Definition then_ {S A B : Type} (p : Settled A)
    (onFulfilled : A → S → S * Settled B) (s : S) : S * Settled B :=
  match p with
  | Fulfilled v => onFulfilled v s
  | Rejected e => (s, Rejected e)
  end.

(** [p.then(undefined, onRejected)]: a value passes through untouched. *)
Definition then_undefined {S A : Type} (p : Settled A)
    (onRejected : string → S → S * Settled A) (s : S) : S * Settled A :=
  match p with
  | Fulfilled v => (s, Fulfilled v)
  | Rejected e => onRejected e s
  end.

(** ** [LanguageServiceDefaultsImpl] *)

Record LanguageServiceDefaultsImpl : Type := {
  _workerMaxIdleTime : Z;
  _eagerModelSync : option bool   (* [undefined] until first set *)
}.

(** [constructor()] *)
Definition LGDefaults : LanguageServiceDefaultsImpl :=
  {| _workerMaxIdleTime := 2 * 60 * 1000; _eagerModelSync := None |}.

(** A method of the class returns the object after the call and how many
    times the call fired [_onDidChange]. *)
Definition setMaximumWorkerIdleTime (value : Z) (this : LanguageServiceDefaultsImpl)
    : LanguageServiceDefaultsImpl * nat :=
  ({| _workerMaxIdleTime := value; _eagerModelSync := _eagerModelSync this |}, 0).

Definition getWorkerMaxIdleTime (this : LanguageServiceDefaultsImpl) : Z :=
  _workerMaxIdleTime this.

Definition setEagerModelSync (value : bool) (this : LanguageServiceDefaultsImpl)
    : LanguageServiceDefaultsImpl * nat :=
  ({| _workerMaxIdleTime := _workerMaxIdleTime this; _eagerModelSync := Some value |}, 0).

Definition getEagerModelSync (this : LanguageServiceDefaultsImpl) : option bool :=
  _eagerModelSync this.

(** ** The host and the adapter's own state *)

(** [monaco.editor.IModel]: identity, language and text. *)
Record IModel : Type := {
  uri : Uri;
  modeId : string;
  linesContent : list string
}.

(** The activation record of one call of [onModelAdd] that got past the
    language test: the captured [model], the local [handle] shared by the
    change callback and the disposer, and whether [changeSubscription] is
    still attached to the model. *)
Record Activation : Type := {
  a_model : Uri;
  a_handle : option nat;   (* [let handle: number], [undefined] at first *)
  a_subscribed : bool
}.

(** A pending [setTimeout]: its handle, the instant it is due, and the
    activation whose callback it runs. *)
Record Timer : Type := {
  t_handle : nat;
  t_due : nat;
  t_activation : nat
}.

(** [LGWorker] is used as an opaque proxy. *)
Record LGWorker : Type := { worker_id : nat }.

(** Where one promise chain started by [_doValidate] stands. *)
Inductive Validation : Type :=
| PendingWorker (resource : Uri) (contents : string)
    (* [this._worker(resource)] has not settled *)
| PendingDiagnostics (resource : Uri) (contents : string)
    (* [Promise.all([worker.getLGDiagnostics(contents)])] has not settled *)
| Done (outcome : Settled unit).
    (* the last promise of the chain has settled *)

Definition validation_resource (v : Validation) : option Uri :=
  match v with
  | PendingWorker r _ | PendingDiagnostics r _ => Some r
  | Done _ => None
  end.

Record State : Type := {
  models : list IModel;                             (* [monaco.editor.getModels()] *)
  markers : gmap (Uri * string) (list IMarkerData); (* markers by (resource, owner) *)
  _listener : gmap Uri nat;                         (* [this._listener], to activations *)
  activations : list Activation;
  timers : list Timer;
  nextHandle : nat;                                 (* next handle [setTimeout] returns *)
  now : nat;                                        (* clock, in milliseconds *)
  validations : list Validation;
  uncaught : list string;                           (* errors that reached the event loop *)
  _defaults : LanguageServiceDefaultsImpl
}.

Definition set_models (f : list IModel → list IModel) (st : State) : State :=
  {| models := f (models st); markers := markers st; _listener := _listener st;
     activations := activations st; timers := timers st;
     nextHandle := nextHandle st; now := now st; validations := validations st;
     uncaught := uncaught st; _defaults := _defaults st |}.

Definition set_markers
    (f : gmap (Uri * string) (list IMarkerData) → gmap (Uri * string) (list IMarkerData))
    (st : State) : State :=
  {| models := models st; markers := f (markers st); _listener := _listener st;
     activations := activations st; timers := timers st;
     nextHandle := nextHandle st; now := now st; validations := validations st;
     uncaught := uncaught st; _defaults := _defaults st |}.

Definition set_listener (f : gmap Uri nat → gmap Uri nat) (st : State) : State :=
  {| models := models st; markers := markers st; _listener := f (_listener st);
     activations := activations st; timers := timers st;
     nextHandle := nextHandle st; now := now st; validations := validations st;
     uncaught := uncaught st; _defaults := _defaults st |}.

Definition set_activations (f : list Activation → list Activation) (st : State) : State :=
  {| models := models st; markers := markers st; _listener := _listener st;
     activations := f (activations st); timers := timers st;
     nextHandle := nextHandle st; now := now st; validations := validations st;
     uncaught := uncaught st; _defaults := _defaults st |}.

Definition set_timers (f : list Timer → list Timer) (st : State) : State :=
  {| models := models st; markers := markers st; _listener := _listener st;
     activations := activations st; timers := f (timers st);
     nextHandle := nextHandle st; now := now st; validations := validations st;
     uncaught := uncaught st; _defaults := _defaults st |}.

Definition set_nextHandle (f : nat → nat) (st : State) : State :=
  {| models := models st; markers := markers st; _listener := _listener st;
     activations := activations st; timers := timers st;
     nextHandle := f (nextHandle st); now := now st; validations := validations st;
     uncaught := uncaught st; _defaults := _defaults st |}.

Definition set_now (f : nat → nat) (st : State) : State :=
  {| models := models st; markers := markers st; _listener := _listener st;
     activations := activations st; timers := timers st;
     nextHandle := nextHandle st; now := f (now st); validations := validations st;
     uncaught := uncaught st; _defaults := _defaults st |}.

Definition set_validations (f : list Validation → list Validation) (st : State) : State :=
  {| models := models st; markers := markers st; _listener := _listener st;
     activations := activations st; timers := timers st;
     nextHandle := nextHandle st; now := now st; validations := f (validations st);
     uncaught := uncaught st; _defaults := _defaults st |}.

Definition set_uncaught (f : list string → list string) (st : State) : State :=
  {| models := models st; markers := markers st; _listener := _listener st;
     activations := activations st; timers := timers st;
     nextHandle := nextHandle st; now := now st; validations := validations st;
     uncaught := f (uncaught st); _defaults := _defaults st |}.

Definition set_defaults (d : LanguageServiceDefaultsImpl) (st : State) : State :=
  {| models := models st; markers := markers st; _listener := _listener st;
     activations := activations st; timers := timers st;
     nextHandle := nextHandle st; now := now st; validations := validations st;
     uncaught := uncaught st; _defaults := d |}.

(** *** Host services the adapter calls *)

(** [monaco.editor.getModel(uri)] *)
Definition getModel (resource : Uri) (st : State) : option IModel :=
  List.find (λ m, bool_decide (uri m = resource)) (models st).

(** [monaco.editor.setModelMarkers(model, owner, markers)]: the set kept for
    (resource, owner) is replaced; an empty set leaves no entry. *)
Definition setModelMarkers (resource : Uri) (owner : string)
    (ms : list IMarkerData) (st : State) : State :=
  match ms with
  | [] => set_markers (delete (resource, owner)) st
  | _ => set_markers (<[(resource, owner) := ms]>) st
  end.

(** [monaco.editor.getModelMarkers({ resource, owner })] *)
Definition getModelMarkers (resource : Uri) (owner : string) (st : State)
    : list IMarkerData :=
  default [] (markers st !! (resource, owner)).

(** [setTimeout(callback, delay)], the callback being that of activation [a]. *)
Definition setTimeout (a : nat) (delay : nat) (st : State) : State * nat :=
  let h := nextHandle st in
  (set_nextHandle S
     (set_timers (λ ts, ts ++ [{| t_handle := h; t_due := now st + delay;
                                  t_activation := a |}]) st),
   h).

(** [clearTimeout(handle)]: nothing happens for [undefined] or for a handle
    that is no longer pending. *)
Definition clearTimeout (handle : option nat) (st : State) : State :=
  match handle with
  | None => st
  | Some h => set_timers (filter (λ t, t_handle t ≠ h)) st
  end.

(** The activations whose change subscription is attached to the model
    [resource], in subscription order. *)
Fixpoint subscribers_from (i : nat) (acts : list Activation) (resource : Uri)
    : list nat :=
  match acts with
  | [] => []
  | act :: acts' =>
    (if a_subscribed act && bool_decide (a_model act = resource) then [i] else [])
    ++ subscribers_from (S i) acts' resource
  end.

Definition subscribers (resource : Uri) (st : State) : list nat :=
  subscribers_from 0 (activations st) resource.

Definition with_handle (h : option nat) (act : Activation) : Activation :=
  {| a_model := a_model act; a_handle := h; a_subscribed := a_subscribed act |}.

Definition unsubscribed (act : Activation) : Activation :=
  {| a_model := a_model act; a_handle := a_handle act; a_subscribed := false |}.

Definition with_modeId (lang : string) (m : IModel) : IModel :=
  {| uri := uri m; modeId := lang; linesContent := linesContent m |}.

Definition with_linesContent (ls : list string) (m : IModel) : IModel :=
  {| uri := uri m; modeId := modeId m; linesContent := ls |}.

(** The host replaces the model registered under [resource]. *)
Definition update_model (resource : Uri) (f : IModel → IModel) (st : State) : State :=
  set_models (fmap (λ m, if bool_decide (uri m = resource) then f m else m)) st.

(** [Promise.all(promises)], once every promise of the array has settled. *)
Fixpoint Promise_all {A : Type} (promises : list (Settled A)) : Settled (list A) :=
  match promises with
  | [] => Fulfilled []
  | Fulfilled v :: rest =>
    match Promise_all rest with
    | Fulfilled vs => Fulfilled (v :: vs)
    | Rejected e => Rejected e
    end
  | Rejected e :: _ => Rejected e
  end.

(** The debounce delay of the change callback. *)
Definition debounce : nat := 500.

(** ** [DiagnostcsAdapter] *)

Section DiagnostcsAdapter.

Variable ts : DiagnosticCategory.
Variable _selector : string.

(** [_doValidate(resource, contents)], the synchronous part: the call
    [this._worker(resource)] starts a chain that waits for the worker. *)
Definition _doValidate (resource : Uri) (contents : string) (st : State) : State :=
  set_validations (λ vs, vs ++ [PendingWorker resource contents]) st.

(** The callback [() => { clearTimeout(handle); handle = setTimeout(..., 500) }]
    of activation [a]. *)
Definition changeCallback (a : nat) (st : State) : State :=
  match activations st !! a with
  | None => st
  | Some act =>
    let st1 := clearTimeout (a_handle act) st in
    let '(st2, h) := setTimeout a debounce st1 in
    set_activations (<[a := with_handle (Some h) act]>) st2
  end.

(** The listener's [dispose()]: [changeSubscription.dispose()], then
    [clearTimeout(handle)]. *)
Definition dispose_listener (a : nat) (st : State) : State :=
  match activations st !! a with
  | None => st
  | Some act =>
    clearTimeout (a_handle act)
      (set_activations (<[a := unsubscribed act]>) st)
  end.

Definition onModelAdd (model : IModel) (st : State) : State :=
  if bool_decide (modeId model ≠ _selector) then st
  else
    let a := length (activations st) in
    let st1 := set_activations
                 (λ acts, acts ++ [{| a_model := uri model; a_handle := None;
                                      a_subscribed := true |}]) st in
    let st2 := set_listener (<[uri model := a]>) st1 in
    _doValidate (uri model) (join LF (linesContent model)) st2.

Definition onModelRemoved (model : IModel) (st : State) : State :=
  let st1 := setModelMarkers (uri model) _selector [] st in
  let key := uri model in
  match _listener st1 !! key with
  | Some a => set_listener (delete key) (dispose_listener a st1)
  | None => st1
  end.

(** [for (const model of monaco.editor.getModels()) { onModelRemoved(model);
    onModelAdd(model); }] *)
Definition recomputeDiagostics (st : State) : State :=
  foldl (λ st model, onModelAdd model (onModelRemoved model st)) st (models st).

(** One round of that loop: Untrack, then Track. *)
Definition retrack (st : State) (model : IModel) : State :=
  onModelAdd model (onModelRemoved model st).

(** The timer callback
    [() => this._doValidate(model.uri, model.getLinesContent().join('\n'))]
    of activation [a]; reading a model that the host has disposed throws. *)
Definition timerCallback (a : nat) (st : State) : State :=
  match activations st !! a ≫= (λ act, getModel (a_model act) st) with
  | Some model => _doValidate (uri model) (join LF (linesContent model)) st
  | None => set_uncaught (λ es, es ++ ["Model is disposed!"]) st
  end.

(** *** The reactions of [_doValidate]'s promise chain *)

(** First reaction: [worker => { ... return Promise.all(promises) }].  [None]
    is the [null] returned for a disposed model, [Some contents] the request
    sent to the worker. *)
Definition validate_onWorker (resource : Uri) (contents : string)
    (worker : LGWorker) (st : State) : option string :=
  match getModel resource st with
  | None => None
  | Some _ => Some contents
  end.

(** Second reaction: [diagnostics => { ... setModelMarkers(...) }]. *)
Definition validate_onDiagnostics (resource : Uri)
    (diagnostics : option (list (list Diagnostic))) (st : State)
    : State * Settled unit :=
  match diagnostics with
  | None => (st, Fulfilled tt)
  | Some ds =>
    match getModel resource st with
    | None => (st, Fulfilled tt)
    | Some model =>
      let markers :=
        map (_convertDiagnostics ts resource)
            (foldl (λ p c, c ++ p) [] ds) in
      (setModelMarkers (uri model) _selector markers st, Fulfilled tt)
    end
  end.

(** Third reaction: [err => { }]. *)
Definition validate_onRejected (err : string) (st : State) : State * Settled unit :=
  (st, Fulfilled tt).

(** The chain from the second [then] on, given how the promise returned by
    the first one settled. *)
Definition validate_tail (resource : Uri)
    (p : Settled (option (list (list Diagnostic)))) (st : State)
    : State * Settled unit :=
  let '(st1, p2) := then_ p (validate_onDiagnostics resource) st in
  then_undefined p2 validate_onRejected st1.

(** The chain's last promise has settled: a rejection nobody handles reaches
    the event loop. *)
Definition finish (i : nat) (r : State * Settled unit) : State :=
  let st := set_validations (<[i := Done r.2]>) r.1 in
  match r.2 with
  | Fulfilled _ => st
  | Rejected e => set_uncaught (λ es, es ++ [e]) st
  end.

(** [this._worker(resource)] of chain [i] settles. *)
Definition workerSettled (i : nat) (r : Settled LGWorker) (st : State) : State :=
  match validations st !! i with
  | Some (PendingWorker resource contents) =>
    match r with
    | Rejected e => finish i (validate_tail resource (Rejected e) st)
    | Fulfilled worker =>
      match validate_onWorker resource contents worker st with
      | None => finish i (validate_tail resource (Fulfilled None) st)
      | Some request =>
        set_validations (<[i := PendingDiagnostics resource request]>) st
      end
    end
  | _ => st
  end.

(** [worker.getLGDiagnostics(contents)] of chain [i] settles, and with it the
    [Promise.all] around it. *)
Definition diagnosticsSettled (i : nat) (r : Settled (list Diagnostic)) (st : State)
    : State :=
  match validations st !! i with
  | Some (PendingDiagnostics resource _) =>
    let all : Settled (list (list Diagnostic)) := Promise_all [r] in
    let p1 : Settled (option (list (list Diagnostic))) :=
      match all with
      | Fulfilled ds => Fulfilled (Some ds)
      | Rejected e => Rejected e
      end in
    finish i (validate_tail resource p1 st)
  | _ => st
  end.

(** *** Events of the host's loop *)

Inductive Event : Type :=
| CreateModel (resource : Uri) (language : string) (lines : list string)
| DisposeModel (resource : Uri)
| SetModelLanguage (resource : Uri) (language : string)
| ChangeContent (resource : Uri) (lines : list string)
| Advance (ms : nat)
| WorkerSettled (i : nat) (r : Settled LGWorker)
| DiagnosticsSettled (i : nat) (r : Settled (list Diagnostic))
| DefaultsChanged
| SetMaximumWorkerIdleTime (value : Z)
| SetEagerModelSync (value : bool).

(** One millisecond passes; the timers that are due run in the order in
    which they were set. *)
Definition tick (st : State) : State :=
  let st1 := set_now S st in
  let due := filter (λ t, t_due t ≤ now st1) (timers st1) in
  let st2 := set_timers (filter (λ t, ¬ t_due t ≤ now st1)) st1 in
  foldl (λ st t, timerCallback (t_activation t) st) st2 due.

Fixpoint advance (ms : nat) (st : State) : State :=
  match ms with
  | O => st
  | S k => advance k (tick st)
  end.

(** The listeners of [_onDidChange] run once per firing. *)
Fixpoint fire_onDidChange (fired : nat) (st : State) : State :=
  match fired with
  | O => st
  | S k => fire_onDidChange k (recomputeDiagostics st)
  end.

Definition step (e : Event) (st : State) : State :=
  match e with
  | CreateModel resource language lines =>
    match getModel resource st with
    | Some _ => st   (* the host refuses a second model for one uri *)
    | None =>
      let model := {| uri := resource; modeId := language; linesContent := lines |} in
      onModelAdd model (set_models (λ ms, ms ++ [model]) st)
    end
  | DisposeModel resource =>
    match getModel resource st with
    | None => st
    | Some model =>
      set_models (filter (λ m, uri m ≠ resource)) (onModelRemoved model st)
    end
  | SetModelLanguage resource language =>
    let st1 := update_model resource (with_modeId language) st in
    match getModel resource st1 with
    | None => st
    | Some model => onModelAdd model (onModelRemoved model st1)
    end
  | ChangeContent resource lines =>
    let st1 := update_model resource (with_linesContent lines) st in
    match getModel resource st1 with
    | None => st
    | Some _ => foldl (λ st a, changeCallback a st) st1 (subscribers resource st1)
    end
  | Advance ms => advance ms st
  | WorkerSettled i r => workerSettled i r st
  | DiagnosticsSettled i r => diagnosticsSettled i r st
  | DefaultsChanged => fire_onDidChange 1 st
  | SetMaximumWorkerIdleTime value =>
    let '(d, fired) := setMaximumWorkerIdleTime value (_defaults st) in
    fire_onDidChange fired (set_defaults d st)
  | SetEagerModelSync value =>
    let '(d, fired) := setEagerModelSync value (_defaults st) in
    fire_onDidChange fired (set_defaults d st)
  end.

Definition run (es : list Event) (st : State) : State :=
  foldl (λ st e, step e st) st es.

(** The adapter's constructor on a host that already holds [ms]:
    [monaco.editor.getModels().forEach(onModelAdd)]. *)
Definition host (ms : list IModel) : State :=
  {| models := ms; markers := ∅; _listener := ∅; activations := [];
     timers := []; nextHandle := 0; now := 0; validations := [];
     uncaught := []; _defaults := LGDefaults |}.

Definition construct (ms : list IModel) : State :=
  foldl (λ st model, onModelAdd model st) (host ms) ms.

End DiagnostcsAdapter.

(** ** [SuggestAdapter] *)

(** [monaco.Position] *)
Record Position : Type := { lineNumber : Z; column : Z }.

(** [monaco.Range] *)
Record Range : Type := {
  range_startLineNumber : Z;
  range_startColumn : Z;
  range_endLineNumber : Z;
  range_endColumn : Z
}.

(** [monaco.editor.IWordAtPosition] *)
Record IWordAtPosition : Type := {
  word : string;
  word_startColumn : Z;
  word_endColumn : Z
}.

(** The two members of [monaco.languages.CompletionItemKind] in use. *)
Inductive CompletionItemKind : Type := Function | Snippet.

(** [monaco.languages.CompletionItemInsertTextRule] *)
Inductive CompletionItemInsertTextRule : Type := KeepWhitespace | InsertAsSnippet.

(** [monaco.languages.CompletionItem] *)
Record CompletionItem : Type := {
  label : string;
  kind : CompletionItemKind;
  range : Range;
  insertText : string;
  insertTextRules : CompletionItemInsertTextRule;
  documentation : string
}.

(** [monaco.languages.CompletionList] *)
Record CompletionList : Type := { suggestions : list CompletionItem }.

Definition tab : string := String (Ascii.ascii_of_nat 9) EmptyString.

(** The literal [suggestions] array of [provideCompletionItems]; every entry
    has [range: wordRange] and the rule [InsertAsSnippet].  Texts are kept
    as the bytes of the source file. *)
Definition catalog (wordRange : Range) : list CompletionItem :=
  let item (label : string) (kind : CompletionItemKind)
           (insertText documentation : string) : CompletionItem :=
    {| label := label; kind := kind; range := wordRange;
       insertText := insertText; insertTextRules := InsertAsSnippet;
       documentation := documentation |} in
  [
    item "ifelse" Snippet
      (join LF ["if (${1:condition}) {"; tab +:+ "$0"; "} else {"; tab; "}"])
      "If-Else Statement";
    item "template" Snippet
      (join LF ["# ${1:template_name}(${2:optional_parameters})"; "- hi"])
      "New Template";
    item "import" Snippet
      (join LF ["[import](${1:relative path of extra lg file})"])
      "New import";
    item "switchcase" Snippet
      (join LF
         ["SWITCH:{${1:case}}";
          "- CASE: {${2:case1}}";
          "    - ${3:output1}";
          "- CASE: {${4:case2}}";
          "    - ${5:output2}";
          "- DEFAULT:";
          "   - ${6:final output}"])
      "Switch case Statement";
    item "add" Function
      ("add(${1:number}, ${2:number})")
      "Return the result from adding two numbers.";
    item "div" Function
      ("div(${1:number}, ${2:number})")
      "Return the integer result from dividing two numbers.";
    item "mod" Function
      ("mod(${1:number}, ${2:number})")
      "Return the remainder from dividing two numbers.";
    item "mul" Function
      ("mul(${1:number}, ${2:number})")
      "Return the product from multiplying two numbers.";
    item "sub" Function
      ("sub(${1:number}, ${2:number})")
      "Return the result from subtracting the second number from the first number.";
    item "exp" Function
      ("exp(${1:number}, ${2:number})")
      "Return the result from subtracting the second number from the first number.";
    item "concat" Function
      ("concat(${1: string[]})")
      "Combine two or more strings and return the resulting string. E.g. concat(‘hello’, ‘world’, ‘…’)";
    item "not" Function
      ("not(${1: expression})")
      "Check whether an expression is false. Return true when the expression is false, or return false when true.";
    item "and" Function
      ("and(${1: any[]})")
      "Check whether all expressions are true. Return true when all expressions are true, or return false when at least one expression is false.";
    item "or" Function
      ("or(${1: any[]})")
      "Check whether at least one expression is true. Return true when at least one expression is true, or return false when all are false.";
    item "equals" Function
      ("equals(${1: any}, ${2: any})")
      "Comparison equal. Returns true if specified values are equal";
    item "greater" Function
      ("greater(${1: any}, ${2: any})")
      "Check whether the first value is greater than the second value. Return true when the first value is more, or return false when less.";
    item "greaterOrEquals" Function
      ("greaterOrEquals(${1: any}, ${2: any})")
      "Check whether the first value is greater than or equal to the second value. Return true when the first value is greater or equal, or return false when the first value is less.";
    item "less" Function
      ("less(${1: any}, ${2: any})")
      "Check whether the first value is less than the second value. Return true when the first value is less, or return false when the first value is more.";
    item "lessOrEquals" Function
      ("lessOrEquals(${1: any}, ${2: any})")
      "Check whether the first value is less than or equal to the second value. Return true when the first value is less than or equal, or return false when the first value is more.";
    item "join" Function
      ("join(${1: Array}, ${2: string})")
      "Return a string that has all the items from an array and has each character separated by a delimiter.";
    item "first" Function
      ("first(${1: Array|string})")
      "Returns the first item from the collection";
    item "last" Function
      ("last(${1: Array|string})")
      "Returns the last item from the collection";
    item "foreach" Function
      ("foreach(${1: Array}, ${2: string}, ${3: function})")
      "Operate on each element and return the new collection";
    item "empty" Function
      ("empty(${1: Array})")
      "Check if the collection is empty";
    item "newGuid" Function
      ("newGuid()")
      "Return new guid string";
    item "min" Function
      ("min(${1: number[]})")
      "Returns the smallest value from a collection";
    item "max" Function
      ("max(${1: number[]})")
      "Returns the largest value from a collection";
    item "average" Function
      ("average(${1: number[]})")
      "Returns the average value from a collection";
    item "sum" Function
      ("sum(${1: number[]})")
      "Return the result from adding numbers in a list.";
    item "exists" Function
      ("exists(${1: expression})")
      "Evaluates an expression for truthiness.";
    item "length" Function
      ("length(${1: string})")
      "Returns the length of a string.";
    item "replace" Function
      ("replace(${1: string},${2: string}, ${3: string})")
      "Replace a substring with the specified string, and return the updated string. case sensitive";
    item "replaceIgnoreCase" Function
      ("replaceIgnoreCase(${1: string},${2: string}, ${3: string})")
      "Replace a substring with the specified string, and return the updated string. case in-sensitive";
    item "split" Function
      ("split(${1: string},${2: string})")
      "Returns an array that contains substrings based on the delimiter specified.";
    item "substring" Function
      ("substring(${1: string},${2: number}, ${3: number})")
      "Returns characters from a string. Substring(sourceString, startPos, endPos). startPos cannot be less than 0. endPos greater than source strings length will be taken as the max length of the string";
    item "toLower" Function
      ("toLower(${1: string})")
      "Convert a string to all lower case characters";
    item "toUpper" Function
      ("toUpper(${1: string})")
      "Convert a string to all upper case characters";
    item "trim" Function
      ("trim(${1: string})")
      "Remove leading and trailing white spaces from a string";
    item "count" Function
      ("count(${1: string|Array})")
      "Returns the number of items in the collection";
    item "contains" Function
      ("contains(${1: string|Array|Map}, ${2: stirng|object})")
      "Works to find an item in a string or to find an item in an array or to find a parameter in a complex object. E.g. contains(‘hello world, ‘hello); contains([‘1’, ‘2’], ‘1’); contains({“foo”:”bar”}, “foo”)";
    item "float" Function
      ("float(${1: string})")
      "Return floating point representation of the specified string or the string itself if conversion is not possible";
    item "int" Function
      ("int(${1: string})")
      "Return integer representation of the specified string or the string itself if conversion is not possible.";
    item "string" Function
      ("string(${1: any})")
      "Return string version of the specified value.";
    item "bool" Function
      ("bool(${1: any})")
      "Return Boolean representation of the specified object. Bool(‘true’), bool(1)";
    item "createArray" Function
      ("createArray(${1: any[]})")
      "Create an array from multiple inputs"
  ]
.

Section SuggestAdapter.

(** Supplied by the host: [model.getWordUntilPosition] and
    [model.getOffsetAt]. *)
Variable getWordUntilPosition : IModel → Position → IWordAtPosition.
Variable getOffsetAt : IModel → Position → Z.

(** [triggerCharacters] *)
Definition triggerCharacters : list string := ["."].

(** [Adapter._positionToOffset]: [monaco.editor.getModel(uri)] is
    dereferenced, so the call throws ([None]) when the registry has no model
    for [uri]. *)
Definition _positionToOffset (resource : Uri) (position : Position) (st : State)
    : option Z :=
  match getModel resource st with
  | Some model => Some (getOffsetAt model position)
  | None => None
  end.

(** [provideCompletionItems(model, position, _context, token)].  [None] is a
    synchronous exception; otherwise the result is the returned promise,
    given as how it settles for each way [this._worker(resource)] settles. *)
Definition provideCompletionItems (model : IModel) (position : Position)
    (st : State) : option (Settled LGWorker → Settled CompletionList) :=
  let wordInfo := getWordUntilPosition model position in
  let wordRange :=
    {| range_startLineNumber := lineNumber position;
       range_startColumn := word_startColumn wordInfo;
       range_endLineNumber := lineNumber position;
       range_endColumn := word_endColumn wordInfo |} in
  let resource := uri model in
  match _positionToOffset resource position st with
  | None => None
  | Some offset =>
    Some (λ worker,
            (then_ worker
               (λ _ s, (s, Fulfilled {| suggestions := catalog wordRange |}))
               tt).2)
  end.

(** The range of the word before the cursor, as [provideCompletionItems]
    builds it. *)
Definition wordRange_at (model : IModel) (position : Position) : Range :=
  let wordInfo := getWordUntilPosition model position in
  {| range_startLineNumber := lineNumber position;
     range_startColumn := word_startColumn wordInfo;
     range_endLineNumber := lineNumber position;
     range_endColumn := word_endColumn wordInfo |}.

End SuggestAdapter.

(** ** Vocabulary of the statements *)

(** The document has a Subscription Record: an entry of [_listener]. *)
Definition tracked (resource : Uri) (st : State) : Prop :=
  is_Some (_listener st !! resource).

(** The document whose change callback set the timer. *)
Definition timer_resource (st : State) (t : Timer) : option Uri :=
  a_model <$> activations st !! t_activation t.

(** The pending debounce timers of a document. *)
Definition pendingTimers (resource : Uri) (st : State) : list Timer :=
  filter (λ t, timer_resource st t = Some resource) (timers st).

(** The validation passes of a document among [vs]. *)
Definition passes_for (resource : Uri) (vs : list Validation) : list Validation :=
  filter (λ v, validation_resource v = Some resource) vs.

(** A burst of edits after a first one: each further edit comes with the
    pause, in milliseconds, since the edit before it. *)
Definition burst (resource : Uri) (edits : list (nat * list string)) : list Event :=
  flat_map (λ e, [Advance e.1; ChangeContent resource e.2]) edits.

(** The time from the first edit of the burst to its last. *)
Definition burst_span (edits : list (nat * list string)) : nat :=
  foldr (λ e n, e.1 + n) 0 edits.

(** The text the last edit of the burst leaves. *)
Definition last_lines (first : list string) (edits : list (nat * list string))
    : list string :=
  List.last (snd <$> edits) first.

(** The validation pass the callback of timer [t] starts when it runs in
    world [st]: none when the model it reads is gone. *)
Definition timer_pass (st : State) (t : Timer) : list Validation :=
  match activations st !! t_activation t ≫= (λ act, getModel (a_model act) st) with
  | Some model => [PendingWorker (uri model) (join LF (linesContent model))]
  | None => []
  end.

(** After an edit of a tracked document: one pending timer, due a full
    debounce delay from now, and the model holds [content]. *)
Definition armed (resource : Uri) (content : list string) (st : State) : Prop :=
  tracked resource st ∧
  (∃ t, pendingTimers resource st = [t] ∧ t_due t = now st + debounce) ∧
  (∃ m, getModel resource st = Some m ∧ linesContent m = content).

(** An event that registers a model under [resource]. *)
Definition creates (resource : Uri) (e : Event) : bool :=
  match e with
  | CreateModel r _ _ => bool_decide (r = resource)
  | _ => false
  end.

(** A call of one of the two plain setters of the defaults object. *)
Inductive SetterCall : Type :=
| CallSetMaximumWorkerIdleTime (value : Z)
| CallSetEagerModelSync (value : bool).

Definition setter_event (c : SetterCall) : Event :=
  match c with
  | CallSetMaximumWorkerIdleTime v => SetMaximumWorkerIdleTime v
  | CallSetEagerModelSync v => SetEagerModelSync v
  end.

(** The defaults object after the call, by the class's own methods. *)
Definition call_setter (d : LanguageServiceDefaultsImpl) (c : SetterCall)
    : LanguageServiceDefaultsImpl :=
  match c with
  | CallSetMaximumWorkerIdleTime v => (setMaximumWorkerIdleTime v d).1
  | CallSetEagerModelSync v => (setEagerModelSync v d).1
  end.

(** Two worlds that differ at most in markers, validation passes, uncaught
    errors and the defaults object. *)
Definition same_core (st st' : State) : Prop :=
  models st' = models st ∧ _listener st' = _listener st ∧
  activations st' = activations st ∧ timers st' = timers st ∧
  nextHandle st' = nextHandle st ∧ now st' = now st.

Section Invariant.

Variable ts : DiagnosticCategory.
Variable _selector : string.

(** What the adapter keeps true of its own state between events. *)
Record consistent (st : State) : Prop := {
  (* the host registers one model per uri *)
  models_unique : NoDup (uri <$> models st);
  (* a record belongs to an open model of the tracked language *)
  listener_model : ∀ u a, _listener st !! u = Some a →
    ∃ m, getModel u st = Some m ∧ modeId m = _selector;
  (* a record points to the attached activation of its document *)
  listener_activation : ∀ u a, _listener st !! u = Some a →
    ∃ act, activations st !! a = Some act ∧ a_model act = u ∧ a_subscribed act = true;
  (* an attached activation is the one its document's record points to *)
  subscribed_listener : ∀ a act, activations st !! a = Some act →
    a_subscribed act = true → _listener st !! a_model act = Some a;
  (* a pending timer is the one its attached activation holds in [handle] *)
  timer_activation : ∀ t, t ∈ timers st →
    ∃ act, activations st !! t_activation t = Some act ∧
           a_handle act = Some (t_handle t) ∧ a_subscribed act = true;
  (* handles are fresh *)
  timer_handles : NoDup (t_handle <$> timers st);
  timer_bound : ∀ t, t ∈ timers st → t_handle t < nextHandle st;
  (* a pending timer is due later, within the debounce delay *)
  timer_due : ∀ t, t ∈ timers st → now st < t_due t ≤ now st + debounce
}.

(** The states the adapter can be in: constructed over a host with one model
    per uri, then driven by events. *)
Definition reachable (st : State) : Prop :=
  ∃ ms es, NoDup (uri <$> ms) ∧ st = run ts _selector es (construct _selector ms).

End Invariant.

(** ** Sample worlds *)

(** A host with one open document of the tracked language, just created:
    the first validation pass waits for the worker. *)
Definition lg : string := "botbuilderlg".

Definition one_document : State :=
  run typescript_categories lg [CreateModel "a.lg" lg ["# hi"]] (construct lg []).

(** The same once the worker handle has resolved: the pass waits for the
    diagnostics. *)
Definition one_document_waiting : State :=
  run typescript_categories lg [WorkerSettled 0 (Fulfilled {| worker_id := 0 |})]
    one_document.

(** A diagnostic as the worker may report it. *)
Definition sample_diagnostic : Diagnostic :=
  {| category := 1; start := 1; startColumn := 0; end_ := 1; endColumn := 4;
     messageText := FlatText "unexpected content" |}.

(** A document that was opened in the tracked language and switched to
    another language while its first validation pass was in flight; the
    worker's answer then arrived. *)
Definition switched_document : State :=
  run typescript_categories lg
    [CreateModel "a.lg" lg ["# hi"];
     SetModelLanguage "a.lg" "plaintext";
     WorkerSettled 0 (Fulfilled {| worker_id := 0 |});
     DiagnosticsSettled 0 (Fulfilled [sample_diagnostic])]
    (construct lg []).

(** The model of that document. *)
Definition switched_model : IModel :=
  {| uri := "a.lg"; modeId := "plaintext"; linesContent := ["# hi"] |}.

(** Host functions for an empty word at the cursor. *)
Definition no_word (model : IModel) (position : Position) : IWordAtPosition :=
  {| word := EmptyString; word_startColumn := column position;
     word_endColumn := column position |}.

Definition offset_of_column (model : IModel) (position : Position) : Z :=
  (column position - 1)%Z.

Definition first_model : IModel :=
  {| uri := "a.lg"; modeId := lg; linesContent := ["# hi"] |}.

(** The first document after an edit: its debounce timer is pending. *)
Definition edited_document : State :=
  run typescript_categories lg [ChangeContent "a.lg" ["# hi"; "- there"]] one_document.

Definition edited_model : IModel :=
  {| uri := "a.lg"; modeId := lg; linesContent := ["# hi"; "- there"] |}.

(** Two open documents of the tracked language and one of another. *)
Definition two_documents : State :=
  run typescript_categories lg
    [CreateModel "a.lg" lg ["# hi"];
     CreateModel "notes.txt" "plaintext" ["todo"];
     CreateModel "b.lg" lg ["# bye"; "- see you"]]
    (construct lg []).

(** ** Induction along a chain *)

(** Induction along the [next] links of a chain. *)
Fixpoint chain_induction (P : DiagnosticMessageChain → Prop)
    (Hlast : ∀ s, P (MkChain s None))
    (Hnext : ∀ s c, P c → P (MkChain s (Some c)))
    (c : DiagnosticMessageChain) : P c :=
  match c with
  | MkChain s None => Hlast s
  | MkChain s (Some c') => Hnext s c' (chain_induction P Hlast Hnext c')
  end.

(** ** The rest of the utilities and of [Adapter] *)

(** [ts.SymbolDisplayPart], as far as [displayPartsToString] reads it. *)
Record SymbolDisplayPart : Type := { part_text : string; part_kind : string }.

(** [displayPartsToString(displayParts)]; [None] is a falsy argument
    ([null] or [undefined]). *)
Definition displayPartsToString (displayParts : option (list SymbolDisplayPart))
    : string :=
  match displayParts with
  | Some parts => join EmptyString (part_text <$> parts)
  | None => EmptyString
  end.

(** [ts.TextSpan] *)
Record TextSpan : Type := { span_start : Z; span_length : Z }.

Section AdapterBase.

(** Supplied by the host: [model.getPositionAt]. *)
Variable getPositionAt : IModel → Z → Position.

(** [Adapter._offsetToPosition]: as in [_positionToOffset], the model is
    dereferenced, so the call throws ([None]) when there is none. *)
Definition _offsetToPosition (resource : Uri) (offset : Z) (st : State)
    : option Position :=
  match getModel resource st with
  | Some model => Some (getPositionAt model offset)
  | None => None
  end.

(** [Adapter._textSpanToRange] *)
Definition _textSpanToRange (resource : Uri) (span : TextSpan) (st : State)
    : option Range :=
  match _offsetToPosition resource (span_start span) st with
  | None => None
  | Some p1 =>
    match _offsetToPosition resource (span_start span + span_length span)%Z st with
    | None => None
    | Some p2 =>
      Some {| range_startLineNumber := lineNumber p1;
              range_startColumn := column p1;
              range_endLineNumber := lineNumber p2;
              range_endColumn := column p2 |}
    end
  end.

End AdapterBase.

(** Positions in reading order. *)
Definition position_le (p q : Position) : Prop :=
  (lineNumber p < lineNumber q)%Z ∨
  (lineNumber p = lineNumber q ∧ (column p ≤ column q)%Z).

(** A host whose [getPositionAt] never moves backwards as the offset grows. *)
Definition monotone_positions (getPositionAt : IModel → Z → Position) : Prop :=
  ∀ model o1 o2, (o1 ≤ o2)%Z →
    position_le (getPositionAt model o1) (getPositionAt model o2).

(** Every offset on line one, the column one more than the offset. *)
Definition single_line_position (model : IModel) (offset : Z) : Position :=
  {| lineNumber := 1; column := offset + 1 |}.

(** ** The adapter's top-level subscriptions and [dispose]

    The constructor pushes five disposables: the subscriptions to
    [onDidCreateModel], [onWillDisposeModel] and [onDidChangeModelLanguage],
    an object whose [dispose] runs [onModelRemoved] over the open models,
    and the subscription to the defaults' [onDidChange]. *)
Inductive Disposable : Type :=
| CreateModelSubscription
| WillDisposeModelSubscription
| ChangeModelLanguageSubscription
| UntrackModels
| DefaultsSubscription.

(** Which of the adapter's listeners the host's emitters still hold. *)
Record Hooks : Type := {
  onDidCreateModel : bool;
  onWillDisposeModel : bool;
  onDidChangeModelLanguage : bool;
  onDidChange : bool
}.

Record Adapter : Type := {
  world : State;
  hooks : Hooks;
  _disposables : list Disposable
}.

Definition with_world (st : State) (this : Adapter) : Adapter :=
  {| world := st; hooks := hooks this; _disposables := _disposables this |}.

Definition with_hooks (h : Hooks) (this : Adapter) : Adapter :=
  {| world := world this; hooks := h; _disposables := _disposables this |}.

Section AdapterLifecycle.

Variable ts : DiagnosticCategory.
Variable _selector : string.

(** [new DiagnostcsAdapter(defaults, selector, worker)] on a host that holds
    the models [ms]. *)
Definition new_adapter (ms : list IModel) : Adapter :=
  {| world := construct _selector ms;
     hooks := {| onDidCreateModel := true; onWillDisposeModel := true;
                 onDidChangeModelLanguage := true; onDidChange := true |};
     _disposables := [CreateModelSubscription; WillDisposeModelSubscription;
                      ChangeModelLanguageSubscription; UntrackModels;
                      DefaultsSubscription] |}.

(** [d.dispose()] for one entry of [_disposables]. *)
Definition dispose_one (this : Adapter) (d : Disposable) : Adapter :=
  let h := hooks this in
  match d with
  | CreateModelSubscription =>
    with_hooks {| onDidCreateModel := false;
                  onWillDisposeModel := onWillDisposeModel h;
                  onDidChangeModelLanguage := onDidChangeModelLanguage h;
                  onDidChange := onDidChange h |} this
  | WillDisposeModelSubscription =>
    with_hooks {| onDidCreateModel := onDidCreateModel h;
                  onWillDisposeModel := false;
                  onDidChangeModelLanguage := onDidChangeModelLanguage h;
                  onDidChange := onDidChange h |} this
  | ChangeModelLanguageSubscription =>
    with_hooks {| onDidCreateModel := onDidCreateModel h;
                  onWillDisposeModel := onWillDisposeModel h;
                  onDidChangeModelLanguage := false;
                  onDidChange := onDidChange h |} this
  | UntrackModels =>
    (* [for (const model of monaco.editor.getModels()) onModelRemoved(model)] *)
    with_world (foldl (λ st model, onModelRemoved _selector model st)
                  (world this) (models (world this))) this
  | DefaultsSubscription =>
    with_hooks {| onDidCreateModel := onDidCreateModel h;
                  onWillDisposeModel := onWillDisposeModel h;
                  onDidChangeModelLanguage := onDidChangeModelLanguage h;
                  onDidChange := false |} this
  end.

(** [dispose()]: [this._disposables.forEach(d => d && d.dispose())], then
    [this._disposables = []]. *)
Definition dispose (this : Adapter) : Adapter :=
  let this' := foldl dispose_one this (_disposables this) in
  {| world := world this'; hooks := hooks this'; _disposables := [] |}.

(** An event of the host's loop, the adapter's top-level listeners running
    only while the host still holds them.  Edits, timers and promises reach
    the adapter as before: they go through the per-model subscriptions,
    the timers and the promise reactions. *)
Definition adapter_step (e : Event) (this : Adapter) : Adapter :=
  let st := world this in
  match e with
  | CreateModel resource language lines =>
    match getModel resource st with
    | Some _ => this
    | None =>
      let model := {| uri := resource; modeId := language; linesContent := lines |} in
      let st1 := set_models (λ ms, ms ++ [model]) st in
      with_world (if onDidCreateModel (hooks this)
                  then onModelAdd _selector model st1 else st1) this
    end
  | DisposeModel resource =>
    match getModel resource st with
    | None => this
    | Some model =>
      let st1 := if onWillDisposeModel (hooks this)
                 then onModelRemoved _selector model st else st in
      with_world (set_models (filter (λ m, uri m ≠ resource)) st1) this
    end
  | SetModelLanguage resource language =>
    let st1 := update_model resource (with_modeId language) st in
    match getModel resource st1 with
    | None => this
    | Some model =>
      with_world (if onDidChangeModelLanguage (hooks this)
                  then onModelAdd _selector model (onModelRemoved _selector model st1)
                  else st1) this
    end
  | DefaultsChanged =>
    if onDidChange (hooks this)
    then with_world (recomputeDiagostics _selector st) this
    else this
  | _ => with_world (step ts _selector e st) this
  end.

Definition adapter_run (es : list Event) (this : Adapter) : Adapter :=
  foldl (λ this e, adapter_step e this) this es.

End AdapterLifecycle.

(** ** More vocabulary *)

(** The passes that exist in [st'] and did not in [st]. *)
Definition started (st st' : State) : list Validation :=
  drop (length (validations st)) (validations st').

(** A pass waiting for the worker, over the current text of an open document
    of the language [selector]. *)
Definition on_open_text (selector : string) (st : State) (v : Validation) : Prop :=
  ∃ m, getModel (uri m) st = Some m ∧ modeId m = selector ∧
       v = PendingWorker (uri m) (join LF (linesContent m)).

(** How far a chain has come. *)
Definition stage (v : Validation) : nat :=
  match v with
  | PendingWorker _ _ => 0
  | PendingDiagnostics _ _ => 1
  | Done _ => 2
  end.

(** The document and text a chain was started for, while it is pending. *)
Definition validation_request (v : Validation) : option (Uri * string) :=
  match v with
  | PendingWorker r c | PendingDiagnostics r c => Some (r, c)
  | Done _ => None
  end.

(** [v'] is [v] or a later stage of the same chain. *)
Definition moved_on (v v' : Validation) : Prop :=
  v' = v ∨
  (stage v < stage v' ∧
   (validation_request v' = validation_request v ∨ v' = Done (Fulfilled tt))).

(** Every open document of the language [selector] has a record. *)
Definition all_tracked (selector : string) (st : State) : Prop :=
  ∀ m, m ∈ models st → modeId m = selector → tracked (uri m) st.

(** Nothing of the adapter is left in the world: no record, no pending
    timer, no attached change listener. *)
Definition inert (st : State) : Prop :=
  _listener st = ∅ ∧ timers st = [] ∧
  ∀ a act, activations st !! a = Some act → a_subscribed act = false.

Definition no_hooks : Hooks :=
  {| onDidCreateModel := false; onWillDisposeModel := false;
     onDidChangeModelLanguage := false; onDidChange := false |}.

(** One document with two passes in flight, both waiting for diagnostics:
    the first from opening it, the second from a configuration change. *)
Definition two_waiting : State :=
  run typescript_categories lg
    [CreateModel "a.lg" lg ["# hi"];
     DefaultsChanged;
     WorkerSettled 0 (Fulfilled {| worker_id := 0 |});
     WorkerSettled 1 (Fulfilled {| worker_id := 0 |})]
    (construct lg []).

(** The two open documents of the tracked language, the first one edited a
    moment ago: its debounce timer is pending. *)
Definition two_documents_edited : State :=
  run typescript_categories lg [ChangeContent "a.lg" ["# hi"; "- there"]]
    two_documents.

(** The marker data last handed to [setModelMarkers] for (resource, owner):
    what the adapter asked the host to show.  The host may still drop or
    adjust entries of it before it displays them. *)
Definition handed_markers (resource : Uri) (owner : string) (st : State)
    : list IMarkerData :=
  default [] (markers st !! (resource, owner)).

(** An event in which the host disposes of a model. *)
Definition disposes (e : Event) : bool :=
  match e with
  | DisposeModel _ => true
  | _ => false
  end.

(** The switched document with a marker that another owner has put on it. *)
Definition foreign_marker : State :=
  set_markers
    (<[("a.lg", "spellcheck") :=
         [_convertDiagnostics typescript_categories "a.lg" sample_diagnostic]]>)
    switched_document.

Definition all_hooks : Hooks :=
  {| onDidCreateModel := true; onWillDisposeModel := true;
     onDidChangeModelLanguage := true; onDidChange := true |}.

(** [onModelRemoved] over a list of models, as the fourth disposable runs it
    over the open ones. *)
Definition untrack_all (selector : string) (l : list IModel) (st : State) : State :=
  foldl (λ st model, onModelRemoved selector model st) st l.

(** The sum of the lengths of the texts. *)
Definition total_length (texts : list string) : nat :=
  foldr (λ s n, String.length s + n) 0 texts.

(** The value the last call of [setMaximumWorkerIdleTime] among [calls]
    passed, if any. *)
Fixpoint last_idle_time (calls : list SetterCall) (current : Z) : Z :=
  match calls with
  | [] => current
  | CallSetMaximumWorkerIdleTime v :: rest => last_idle_time rest v
  | CallSetEagerModelSync _ :: rest => last_idle_time rest current
  end.

(** The value the last call of [setEagerModelSync] among [calls] passed. *)
Fixpoint last_eager_sync (calls : list SetterCall) (current : option bool)
    : option bool :=
  match calls with
  | [] => current
  | CallSetMaximumWorkerIdleTime _ :: rest => last_eager_sync rest current
  | CallSetEagerModelSync v :: rest => last_eager_sync rest (Some v)
  end.

(** A suggestion without its range. *)
Definition suggestion_content (item : CompletionItem)
    : string * CompletionItemKind * string * string :=
  (label item, kind item, insertText item, documentation item).

(** * Properties *)

(** ** Strings *)

Lemma append_empty_l (s : string) : EmptyString +:+ s = s.
Proof. reflexivity. Qed.

Lemma append_String (a : Ascii.ascii) (s t : string) :
  String a s +:+ t = String a (s +:+ t).
Proof. reflexivity. Qed.

Lemma append_empty_r (s : string) : s +:+ EmptyString = s.
Proof.
  induction s as [|a s IH]; [reflexivity|].
  rewrite append_String, IH. reflexivity.
Qed.

Lemma append_assoc (s t u : string) : (s +:+ t) +:+ u = s +:+ (t +:+ u).
Proof.
  induction s as [|a s IH]; [reflexivity|].
  rewrite !append_String, IH. reflexivity.
Qed.

(** ** Message flattening *)

Lemma indent_loop_indentation (indent : nat) (result : string) :
  indent_loop indent result = result +:+ indentation indent.
Proof.
  revert result. induction indent as [|k IH]; intros result; simpl.
  - symmetry. apply append_empty_r.
  - rewrite IH. apply append_assoc.
Qed.

(** What one round of the loop appends is the rendering of the link at the
    current depth. *)
Lemma loop_round (indent : nat) (result text : string) :
  match indent with
  | O => result
  | S _ => indent_loop indent (result +:+ LF)
  end +:+ text = result +:+ render_link indent text.
Proof.
  destruct indent as [|k]; [reflexivity|].
  rewrite indent_loop_indentation. unfold render_link.
  rewrite !append_assoc. reflexivity.
Qed.

Lemma flatten_while_render (c : DiagnosticMessageChain) :
  ∀ result indent,
    flatten_while LF c result indent
    = result +:+ render_links indent (chain_links c).
Proof.
  induction c as [s|s c IH] using chain_induction; intros result indent.
  - change (flatten_while LF (MkChain s None) result indent)
      with (match indent with
            | O => result
            | S _ => indent_loop indent (result +:+ LF)
            end +:+ s).
    rewrite loop_round. simpl. rewrite append_empty_r. reflexivity.
  - change (flatten_while LF (MkChain s (Some c)) result indent)
      with (flatten_while LF c
              (match indent with
               | O => result
               | S _ => indent_loop indent (result +:+ LF)
               end +:+ s) (S indent)).
    rewrite IH, loop_round, append_assoc. reflexivity.
Qed.

(** C7. A flat string message is returned unchanged, and a chained message is
    rendered as the specification describes it: the texts of the links
    concatenated, a newline before every link after the first, and two
    spaces per depth level in front of each of those, the depth being zero
    at the first link and one more at every following link. *)
Theorem flatten_matches_description (s : string) (c : DiagnosticMessageChain) :
  flattenDiagnosticMessageText (FlatText s) LF = s ∧
  flattenDiagnosticMessageText (ChainText c) LF = render_links 0 (chain_links c) ∧
  (∀ messageText, flattenDiagnosticMessageText messageText LF = flatten_spec messageText).
Proof.
  split; [reflexivity|]. split.
  - simpl. rewrite flatten_while_render. reflexivity.
  - intros [s'|c']; [reflexivity|].
    simpl. rewrite flatten_while_render. reflexivity.
Qed.

(** C1, as the specification states it, fails: the flattened text of the
    chain A, B, C is not A, newline, B, newline, two spaces, C. *)
Lemma flatten_ABC_not_as_stated :
  flattenDiagnosticMessageText chain_ABC LF
  ≠ "A" +:+ LF +:+ "B" +:+ LF +:+ "  " +:+ "C".
Proof. vm_compute. discriminate. Qed.

(** C1, amended. The second link is at depth one and the third at depth
    two: the flattened text is A, newline, two spaces, B, newline, four
    spaces, C. *)
Theorem flatten_ABC :
  flattenDiagnosticMessageText chain_ABC LF
  = "A" +:+ LF +:+ "  " +:+ "B" +:+ LF +:+ "    " +:+ "C".
Proof. reflexivity. Qed.

(** ** Severity conversion *)

(** C6. With the four category members pairwise different, the conversion
    sends Error to Error, Warning to Warning, Message to Info and Suggestion
    to Hint, and every number that is none of the four to Info; being a
    function, it returns a severity for every number. *)
Theorem toSeverity_table (ts : DiagnosticCategory) :
  distinct_categories ts →
  toSeverity ts (Category_Error ts) = Error ∧
  toSeverity ts (Category_Warning ts) = Warning ∧
  toSeverity ts (Category_Message ts) = Info ∧
  toSeverity ts (Category_Suggestion ts) = Hint ∧
  (∀ n, unrecognized ts n → toSeverity ts n = Info) ∧
  (unrecognized ts 99 → toSeverity ts 99 = Info).
Proof.
  unfold distinct_categories, unrecognized, toSeverity.
  rewrite !NoDup_cons, !elem_of_cons, elem_of_nil.
  intros (H1 & H2 & H3 & _).
  repeat split.
  - rewrite Z.eqb_refl. reflexivity.
  - destruct (Z.eqb_spec (Category_Warning ts) (Category_Error ts)) as [E|_].
    + exfalso. apply H1. left. symmetry. exact E.
    + rewrite Z.eqb_refl. reflexivity.
  - destruct (Z.eqb_spec (Category_Message ts) (Category_Error ts)) as [E|_].
    { exfalso. apply H1. right. left. symmetry. exact E. }
    destruct (Z.eqb_spec (Category_Message ts) (Category_Warning ts)) as [E|_].
    { exfalso. apply H2. left. symmetry. exact E. }
    rewrite Z.eqb_refl. reflexivity.
  - destruct (Z.eqb_spec (Category_Suggestion ts) (Category_Error ts)) as [E|_].
    { exfalso. apply H1. right. right. left. symmetry. exact E. }
    destruct (Z.eqb_spec (Category_Suggestion ts) (Category_Warning ts)) as [E|_].
    { exfalso. apply H2. right. left. symmetry. exact E. }
    destruct (Z.eqb_spec (Category_Suggestion ts) (Category_Message ts)) as [E|_].
    { exfalso. apply H3. left. symmetry. exact E. }
    rewrite Z.eqb_refl. reflexivity.
  - intros n (N1 & N2 & N3 & N4).
    repeat match goal with
           | |- context [Z.eqb n ?c] => destruct (Z.eqb_spec n c); [congruence|]
           end.
    reflexivity.
  - intros (N1 & N2 & N3 & N4).
    repeat match goal with
           | |- context [Z.eqb 99 ?c] => destruct (Z.eqb_spec 99 c); [congruence|]
           end.
    reflexivity.
Qed.

Lemma toSeverity_table_witness :
  toSeverity typescript_categories 1 = Error ∧
  toSeverity typescript_categories 0 = Warning ∧
  toSeverity typescript_categories 3 = Info ∧
  toSeverity typescript_categories 2 = Hint ∧
  toSeverity typescript_categories 99 = Info.
Proof.
  assert (D : distinct_categories typescript_categories).
  { unfold distinct_categories. simpl.
    rewrite !NoDup_cons, !elem_of_cons, !elem_of_nil.
    repeat split; try lia. apply NoDup_nil_2. }
  assert (U : unrecognized typescript_categories 99).
  { unfold unrecognized. simpl. lia. }
  destruct (toSeverity_table typescript_categories D)
    as (E & W & M & S & _ & O).
  exact (conj E (conj W (conj M (conj S (O U))))).
Defined.

(** ** The promise chain of [_doValidate] *)

Section Validate.

Variable ts : DiagnosticCategory.
Variable _selector : string.

Lemma finish_fulfilled (i : nat) (st : State) :
  finish i (st, Fulfilled tt) = set_validations (<[i := Done (Fulfilled tt)]>) st.
Proof. reflexivity. Qed.

(** A rejected promise skips the second reaction and is absorbed by the
    third. *)
Lemma validate_tail_rejected (resource : Uri) (e : string) (st : State) :
  validate_tail ts _selector resource (Rejected e) st = (st, Fulfilled tt).
Proof. reflexivity. Qed.

(** The second reaction leaves the world alone when the model is gone. *)
Lemma validate_tail_disposed (resource : Uri)
    (p : Settled (option (list (list Diagnostic)))) (st : State) :
  getModel resource st = None →
  validate_tail ts _selector resource p st = (st, Fulfilled tt).
Proof.
  intros Hgone. unfold validate_tail, then_, validate_onDiagnostics.
  destruct p as [[ds|]|e]; simpl; rewrite ?Hgone; reflexivity.
Qed.

Lemma lookup_done (i : nat) (vs : list Validation) (v w : Validation) :
  vs !! i = Some v → <[i := w]> vs !! i = Some w.
Proof.
  intros H. apply list_lookup_insert_eq. eapply lookup_lt_Some. exact H.
Qed.

(** C4. When the worker handle or the diagnostics call of a validation pass
    rejects, the chain ends fulfilled: the markers are as before, nothing
    reaches the event loop, and the pass is over. *)
Theorem validate_rejection_swallowed (st : State) (i : nat)
    (resource : Uri) (contents e : string) :
  (validations st !! i = Some (PendingWorker resource contents) →
   let st' := workerSettled ts _selector i (Rejected e) st in
   markers st' = markers st ∧ uncaught st' = uncaught st ∧
   validations st' !! i = Some (Done (Fulfilled tt))) ∧
  (validations st !! i = Some (PendingDiagnostics resource contents) →
   let st' := diagnosticsSettled ts _selector i (Rejected e) st in
   markers st' = markers st ∧ uncaught st' = uncaught st ∧
   validations st' !! i = Some (Done (Fulfilled tt))).
Proof.
  split; intros Hi; simpl.
  - unfold workerSettled. rewrite Hi, validate_tail_rejected, finish_fulfilled.
    simpl. repeat split. eapply lookup_done, Hi.
  - unfold diagnosticsSettled. rewrite Hi.
    change (Promise_all [Rejected e]) with (@Rejected (list (list Diagnostic)) e).
    cbv beta iota zeta.
    rewrite validate_tail_rejected, finish_fulfilled.
    simpl. repeat split. eapply lookup_done, Hi.
Qed.

(** *** Disposal *)

Lemma getModel_update_none (resource u : Uri) (f : IModel → IModel) (st : State) :
  (∀ m, uri (f m) = uri m) →
  getModel resource st = None → getModel resource (update_model u f st) = None.
Proof.
  unfold getModel, update_model. simpl. intros Hf.
  induction (models st) as [|m ms IH]; simpl; [reflexivity|].
  destruct (bool_decide (uri m = resource)) eqn:E; [discriminate|].
  intros H. specialize (IH H).
  assert (E' : bool_decide (uri (if bool_decide (uri m = u) then f m else m) = resource)
               = false).
  { destruct (bool_decide (uri m = u)); rewrite ?Hf; exact E. }
  rewrite E'. exact IH.
Qed.

Lemma models_onModelAdd (model : IModel) (st : State) :
  models (onModelAdd _selector model st) = models st.
Proof. unfold onModelAdd. destruct (bool_decide _); reflexivity. Qed.

Lemma models_clearTimeout (h : option nat) (st : State) :
  models (clearTimeout h st) = models st.
Proof. destruct h; reflexivity. Qed.

Lemma models_dispose_listener (a : nat) (st : State) :
  models (dispose_listener a st) = models st.
Proof.
  unfold dispose_listener. destruct (activations st !! a); [|reflexivity].
  rewrite models_clearTimeout. reflexivity.
Qed.

Lemma models_onModelRemoved (model : IModel) (st : State) :
  models (onModelRemoved _selector model st) = models st.
Proof.
  unfold onModelRemoved. simpl.
  destruct (_listener st !! uri model); simpl; [|reflexivity].
  rewrite models_dispose_listener. reflexivity.
Qed.

Lemma models_changeCallback (a : nat) (st : State) :
  models (changeCallback a st) = models st.
Proof.
  unfold changeCallback. destruct (activations st !! a); [|reflexivity].
  simpl. apply models_clearTimeout.
Qed.

Lemma models_changeCallbacks (l : list nat) (st : State) :
  models (foldl (λ st a, changeCallback a st) st l) = models st.
Proof.
  revert st. induction l as [|a l IH]; intros st; simpl; [reflexivity|].
  rewrite IH. apply models_changeCallback.
Qed.

Lemma models_timerCallback (a : nat) (st : State) :
  models (timerCallback a st) = models st.
Proof. unfold timerCallback. destruct (_ ≫= _); reflexivity. Qed.

Lemma models_timerCallbacks (l : list Timer) (st : State) :
  models (foldl (λ st t, timerCallback (t_activation t) st) st l) = models st.
Proof.
  revert st. induction l as [|t l IH]; intros st; simpl; [reflexivity|].
  rewrite IH. apply models_timerCallback.
Qed.

Lemma models_tick (st : State) : models (tick st) = models st.
Proof. unfold tick. rewrite models_timerCallbacks. reflexivity. Qed.

Lemma models_advance (ms : nat) (st : State) : models (advance ms st) = models st.
Proof.
  revert st. induction ms as [|k IH]; intros st; simpl; [reflexivity|].
  rewrite IH. apply models_tick.
Qed.

Lemma models_recompute_fold (l : list IModel) (st : State) :
  models (foldl (λ st model,
                   onModelAdd _selector model (onModelRemoved _selector model st))
                st l) = models st.
Proof.
  revert st. induction l as [|m l IH]; intros st; simpl; [reflexivity|].
  rewrite IH, models_onModelAdd, models_onModelRemoved. reflexivity.
Qed.

Lemma models_recomputeDiagostics (st : State) :
  models (recomputeDiagostics _selector st) = models st.
Proof. apply models_recompute_fold. Qed.

Lemma models_finish (i : nat) (r : State * Settled unit) :
  models (finish i r) = models r.1.
Proof. unfold finish. destruct r as [st [[]|e]]; reflexivity. Qed.

Lemma models_setModelMarkers (u : Uri) (owner : string) (ms : list IMarkerData)
    (st : State) :
  models (setModelMarkers u owner ms st) = models st.
Proof. destruct ms; reflexivity. Qed.

Lemma models_validate_tail (resource : Uri)
    (p : Settled (option (list (list Diagnostic)))) (st : State) :
  models (validate_tail ts _selector resource p st).1 = models st.
Proof.
  unfold validate_tail, then_, validate_onDiagnostics.
  destruct p as [[ds|]|e]; simpl; try reflexivity.
  destruct (getModel resource st); simpl; [|reflexivity].
  apply models_setModelMarkers.
Qed.

Lemma models_workerSettled (i : nat) (r : Settled LGWorker) (st : State) :
  models (workerSettled ts _selector i r st) = models st.
Proof.
  unfold workerSettled.
  destruct (validations st !! i) as [[resource contents| |]|]; try reflexivity.
  destruct r as [w|e].
  - destruct (validate_onWorker resource contents w st); [reflexivity|].
    rewrite models_finish. apply models_validate_tail.
  - rewrite models_finish. apply models_validate_tail.
Qed.

Lemma models_diagnosticsSettled (i : nat) (r : Settled (list Diagnostic)) (st : State) :
  models (diagnosticsSettled ts _selector i r st) = models st.
Proof.
  unfold diagnosticsSettled.
  destruct (validations st !! i) as [[|resource contents|]|]; try reflexivity.
  rewrite models_finish. apply models_validate_tail.
Qed.

Lemma getModel_models (resource : Uri) (st st' : State) :
  models st' = models st → getModel resource st' = getModel resource st.
Proof. unfold getModel. intros ->. reflexivity. Qed.

Lemma getModel_filter_none (resource : Uri) (st : State) :
  getModel resource (set_models (filter (λ m, uri m ≠ resource)) st) = None.
Proof.
  unfold getModel. simpl.
  induction (models st) as [|m ms IH]; [reflexivity|].
  rewrite filter_cons. destruct (decide (uri m ≠ resource)) as [Hne|Heq]; [|exact IH].
  simpl. rewrite bool_decide_eq_false_2 by exact Hne. exact IH.
Qed.

Lemma getModel_filter_other (resource u : Uri) (st : State) :
  getModel resource st = None →
  getModel resource (set_models (filter (λ m, uri m ≠ u)) st) = None.
Proof.
  unfold getModel. simpl.
  induction (models st) as [|m ms IH]; [reflexivity|].
  simpl. destruct (bool_decide (uri m = resource)) eqn:E; [discriminate|].
  intros H. rewrite filter_cons. destruct (decide (uri m ≠ u)); [|auto].
  simpl. rewrite E. auto.
Qed.

Lemma getModel_app_none (resource : Uri) (m : IModel) (st : State) :
  uri m ≠ resource →
  getModel resource st = None →
  getModel resource (set_models (λ ms, ms ++ [m]) st) = None.
Proof.
  unfold getModel. simpl. intros Hne.
  induction (models st) as [|m' ms IH]; simpl.
  - intros _. rewrite bool_decide_eq_false_2; [reflexivity|exact Hne].
  - destruct (bool_decide (uri m' = resource)); [discriminate|]. exact IH.
Qed.

(** Once the host has disposed of a model, it stays gone until an event
    creates a model under the same uri. *)
Lemma step_keeps_disposed (resource : Uri) (e : Event) (st : State) :
  creates resource e = false →
  getModel resource st = None →
  getModel resource (step ts _selector e st) = None.
Proof.
  intros Hc Hgone.
  destruct e as [r lang ls|r|r lang|r ls|ms|i w|i d| |v|v]; simpl in *.
  - destruct (getModel r st); [exact Hgone|].
    erewrite getModel_models; [|apply models_onModelAdd].
    apply getModel_app_none; [|exact Hgone].
    simpl. intros ->. rewrite bool_decide_eq_true_2 in Hc; [discriminate|reflexivity].
  - destruct (getModel r st) as [m|]; [|exact Hgone].
    apply getModel_filter_other.
    erewrite getModel_models; [exact Hgone|apply models_onModelRemoved].
  - destruct (getModel r (update_model r (with_modeId lang) st)) as [m|];
      [|exact Hgone].
    erewrite getModel_models;
      [|rewrite models_onModelAdd; apply models_onModelRemoved].
    apply getModel_update_none; [reflexivity|exact Hgone].
  - destruct (getModel r (update_model r (with_linesContent ls) st)) as [m|];
      [|exact Hgone].
    erewrite getModel_models; [|apply models_changeCallbacks].
    apply getModel_update_none; [reflexivity|exact Hgone].
  - erewrite getModel_models; [exact Hgone|apply models_advance].
  - erewrite getModel_models; [exact Hgone|apply models_workerSettled].
  - erewrite getModel_models; [exact Hgone|apply models_diagnosticsSettled].
  - erewrite getModel_models; [exact Hgone|apply models_recomputeDiagostics].
  - exact Hgone.
  - exact Hgone.
Qed.

Lemma run_cons (e : Event) (es : list Event) (st : State) :
  run ts _selector (e :: es) st = run ts _selector es (step ts _selector e st).
Proof. reflexivity. Qed.

Lemma run_app (es es' : list Event) (st : State) :
  run ts _selector (es ++ es') st = run ts _selector es' (run ts _selector es st).
Proof. apply foldl_app. Qed.

Lemma run_keeps_disposed (resource : Uri) (es : list Event) (st : State) :
  forallb (λ e, negb (creates resource e)) es = true →
  getModel resource st = None →
  getModel resource (run ts _selector es st) = None.
Proof.
  revert st. induction es as [|e es IH]; intros st Hes Hgone; [exact Hgone|].
  simpl in Hes. apply andb_true_iff in Hes as [He Hes].
  apply negb_true_iff in He.
  apply IH; [exact Hes|]. apply step_keeps_disposed; assumption.
Qed.

Lemma dispose_removes_model (resource : Uri) (st : State) :
  getModel resource (step ts _selector (DisposeModel resource) st) = None.
Proof.
  simpl. destruct (getModel resource st) as [m|] eqn:E; [|exact E].
  apply getModel_filter_none.
Qed.

(** C2. Let a document be disposed and not created again since.  When the
    worker handle of one of its validation passes then resolves, in whatever
    way, no diagnostics are requested: the pass ends at once, fulfilled, with
    the markers as they were and nothing raised.  When the diagnostics of a
    pass arrive, in whatever way, the same holds: nothing is published. *)
Theorem validate_abandoned_after_disposal (st0 : State) (es : list Event)
    (i : nat) (resource : Uri) (contents : string) :
  forallb (λ e, negb (creates resource e)) es = true →
  let st := run ts _selector (DisposeModel resource :: es) st0 in
  getModel resource st = None ∧
  (validations st !! i = Some (PendingWorker resource contents) →
   ∀ r, let st' := workerSettled ts _selector i r st in
        markers st' = markers st ∧ uncaught st' = uncaught st ∧
        validations st' !! i = Some (Done (Fulfilled tt))) ∧
  (validations st !! i = Some (PendingDiagnostics resource contents) →
   ∀ r, let st' := diagnosticsSettled ts _selector i r st in
        markers st' = markers st ∧ uncaught st' = uncaught st ∧
        validations st' !! i = Some (Done (Fulfilled tt))).
Proof.
  intros Hes st.
  assert (Hgone : getModel resource st = None).
  { unfold st. rewrite run_cons.
    apply run_keeps_disposed; [exact Hes|apply dispose_removes_model]. }
  split; [exact Hgone|]. split; intros Hi r; simpl.
  - unfold workerSettled. rewrite Hi.
    destruct r as [w|e].
    + unfold validate_onWorker. rewrite Hgone.
      rewrite validate_tail_disposed, finish_fulfilled by exact Hgone.
      simpl. repeat split. eapply lookup_done, Hi.
    + rewrite validate_tail_rejected, finish_fulfilled.
      simpl. repeat split. eapply lookup_done, Hi.
  - unfold diagnosticsSettled. rewrite Hi.
    rewrite validate_tail_disposed, finish_fulfilled by exact Hgone.
    simpl. repeat split. eapply lookup_done, Hi.
Qed.

End Validate.

Lemma validate_rejection_swallowed_witness :
  (let st' := workerSettled typescript_categories lg 0 (Rejected "down") one_document in
   markers st' = markers one_document ∧ uncaught st' = uncaught one_document ∧
   validations st' !! 0 = Some (Done (Fulfilled tt))) ∧
  (let st' := diagnosticsSettled typescript_categories lg 0 (Rejected "down")
                one_document_waiting in
   markers st' = markers one_document_waiting ∧
   uncaught st' = uncaught one_document_waiting ∧
   validations st' !! 0 = Some (Done (Fulfilled tt))).
Proof.
  split.
  - apply (proj1 (validate_rejection_swallowed typescript_categories lg
                    one_document 0 "a.lg" "# hi" "down")).
    vm_compute. reflexivity.
  - apply (proj2 (validate_rejection_swallowed typescript_categories lg
                    one_document_waiting 0 "a.lg" "# hi" "down")).
    vm_compute. reflexivity.
Defined.

Lemma validate_abandoned_after_disposal_witness :
  let st := run typescript_categories lg [DisposeModel "a.lg"] one_document in
  let st' := workerSettled typescript_categories lg 0
               (Fulfilled {| worker_id := 0 |}) st in
  getModel "a.lg" st = None ∧
  markers st' = markers st ∧ uncaught st' = uncaught st ∧
  validations st' !! 0 = Some (Done (Fulfilled tt)).
Proof.
  intros st st'.
  destruct (validate_abandoned_after_disposal typescript_categories lg
              one_document [] 0 "a.lg" "# hi" eq_refl) as (Hgone & Hworker & _).
  split; [exact Hgone|].
  apply Hworker. vm_compute. reflexivity.
Defined.

(** ** The defaults object *)

Lemma fire_none (selector : string) (st : State) :
  fire_onDidChange selector 0 st = st.
Proof. reflexivity. Qed.

Lemma set_defaults_twice (d d' : LanguageServiceDefaultsImpl) (st : State) :
  set_defaults d' (set_defaults d st) = set_defaults d' st.
Proof. reflexivity. Qed.

Lemma set_defaults_same (st : State) : set_defaults (_defaults st) st = st.
Proof. destruct st. reflexivity. Qed.

(** C10. Each of the two setters changes its own field only and fires
    [_onDidChange] zero times; so any sequence of calls of the two leaves the
    world as it was but for the defaults object: no listener of the event
    runs, no validation pass is started, and markers, records and timers are
    untouched. *)
Theorem setters_fire_nothing (ts : DiagnosticCategory) (selector : string)
    (calls : list SetterCall) (st : State) :
  (∀ v d, setMaximumWorkerIdleTime v d
          = ({| _workerMaxIdleTime := v; _eagerModelSync := _eagerModelSync d |}, 0)) ∧
  (∀ v d, setEagerModelSync v d
          = ({| _workerMaxIdleTime := _workerMaxIdleTime d;
                _eagerModelSync := Some v |}, 0)) ∧
  run ts selector (map setter_event calls) st
  = set_defaults (foldl call_setter (_defaults st) calls) st ∧
  validations (run ts selector (map setter_event calls) st) = validations st.
Proof.
  assert (Hrun : ∀ st, run ts selector (map setter_event calls) st
                       = set_defaults (foldl call_setter (_defaults st) calls) st).
  { induction calls as [|c calls IH]; intros st'.
    - symmetry. apply set_defaults_same.
    - change (map setter_event (c :: calls))
        with (setter_event c :: map setter_event calls).
      rewrite run_cons, IH.
      destruct c as [v|v]; reflexivity. }
  repeat split.
  - apply Hrun.
  - rewrite Hrun. reflexivity.
Qed.

(** ** Completion *)

Section Suggest.

Variable getWordUntilPosition : IModel → Position → IWordAtPosition.
Variable getOffsetAt : IModel → Position → Z.

(** C8, amended. For a model the editor holds, the completion promise
    fulfils with the static catalog, over the range of the word at the
    cursor, whenever the worker handle resolves, whatever the worker; and
    when handle acquisition rejects, the completion promise rejects with the
    same reason. *)
Theorem completion_follows_handle (model : IModel) (position : Position)
    (st : State) :
  getModel (uri model) st ≠ None →
  ∃ promise,
    provideCompletionItems getWordUntilPosition getOffsetAt model position st
    = Some promise ∧
    (∀ worker, promise (Fulfilled worker)
               = Fulfilled {| suggestions :=
                                catalog (wordRange_at getWordUntilPosition
                                           model position) |}) ∧
    (∀ e, promise (Rejected e) = Rejected e).
Proof.
  intros Hopen. unfold provideCompletionItems, _positionToOffset.
  destruct (getModel (uri model) st) as [m|]; [|congruence].
  eexists. split; [reflexivity|]. split; intros; reflexivity.
Qed.

End Suggest.

(** ** The adapter's invariant *)

Section Consistency.

Variable ts : DiagnosticCategory.
Variable _selector : string.

Lemma getModel_Some (u : Uri) (st : State) (m : IModel) :
  getModel u st = Some m → m ∈ models st ∧ uri m = u.
Proof.
  unfold getModel. intros H. apply find_some in H as [Hin Hb].
  split; [apply list_elem_of_In; exact Hin|].
  apply bool_decide_eq_true in Hb. exact Hb.
Qed.

Lemma getModel_unique (st : State) (m : IModel) :
  NoDup (uri <$> models st) → m ∈ models st → getModel (uri m) st = Some m.
Proof.
  unfold getModel. induction (models st) as [|m0 ms IH]; intros Hnd Hin.
  - apply elem_of_nil in Hin. destruct Hin.
  - rewrite fmap_cons in Hnd. apply NoDup_cons in Hnd as [Hfresh Hnd].
    simpl. apply elem_of_cons in Hin as [->|Hin].
    + rewrite bool_decide_eq_true_2; reflexivity.
    + rewrite bool_decide_eq_false_2; [apply IH; assumption|].
      intros E. apply Hfresh. rewrite E. apply list_elem_of_fmap_2. exact Hin.
Qed.

Lemma consistent_same_core (st st' : State) :
  same_core st st' → consistent _selector st → consistent _selector st'.
Proof.
  intros (Hm & Hl & Ha & Ht & Hn & Hw) [C1 C2 C3 C4 C5 C6 C7 C8].
  split; unfold getModel in *; rewrite ?Hm, ?Hl, ?Ha, ?Ht, ?Hn, ?Hw; assumption.
Qed.

Lemma same_core_refl (st : State) : same_core st st.
Proof. repeat split. Qed.

Lemma same_core_trans (st1 st2 st3 : State) :
  same_core st1 st2 → same_core st2 st3 → same_core st1 st3.
Proof.
  intros (A1 & A2 & A3 & A4 & A5 & A6) (B1 & B2 & B3 & B4 & B5 & B6).
  repeat split; congruence.
Qed.

(** *** [onModelAdd] *)

Lemma consistent_onModelAdd (m : IModel) (st : State) :
  consistent _selector st → getModel (uri m) st = Some m → _listener st !! uri m = None →
  consistent _selector (onModelAdd _selector m st).
Proof.
  intros C Hm Hl. unfold onModelAdd.
  destruct (bool_decide (modeId m ≠ _selector)) eqn:Hsel; [exact C|].
  apply bool_decide_eq_false in Hsel. apply dec_stable in Hsel.
  destruct C as [C1 C2 C3 C4 C5 C6 C7 C8].
  split; simpl; try assumption.
  - intros u a. rewrite lookup_insert. case_decide as E.
    + subst u. intros _. exists m. split; [exact Hm|exact Hsel].
    + apply C2.
  - intros u a. rewrite lookup_insert. case_decide as E.
    + subst u. intros [= <-]. eexists. split; [apply list_lookup_middle; reflexivity|].
      split; reflexivity.
    + intros Hu. destruct (C3 u a Hu) as (act & Hact & Hrest).
      exists act. split; [apply lookup_app_l_Some; exact Hact|exact Hrest].
  - intros a act Hact Hsub.
    apply lookup_snoc_Some in Hact as [[Hlt Hact]|[-> <-]].
    + pose proof (C4 a act Hact Hsub) as Hold.
      rewrite lookup_insert_ne; [exact Hold|]. intros E. congruence.
    + simpl. apply lookup_insert_eq.
  - intros t Ht. destruct (C5 t Ht) as (act & Hact & Hrest).
    exists act. split; [apply lookup_app_l_Some; exact Hact|exact Hrest].
Qed.

Lemma listener_onModelAdd_other (m : IModel) (u : Uri) (st : State) :
  uri m ≠ u →
  _listener (onModelAdd _selector m st) !! u = _listener st !! u.
Proof.
  intros Hne. unfold onModelAdd. destruct (bool_decide _); [reflexivity|].
  simpl. apply lookup_insert_ne. exact Hne.
Qed.

(** *** [onModelRemoved] *)

Lemma sublist_filter_fmap {A B : Type} (f : A → B) (P : A → Prop)
    `{∀ x, Decision (P x)} (l : list A) :
  NoDup (f <$> l) → NoDup (f <$> filter P l).
Proof.
  intros Hnd. eapply sublist_NoDup; [exact Hnd|].
  apply fmap_sublist, sublist_filter.
Qed.

(** [clearTimeout] touches the pending timers only, and removes exactly the
    timer with the given handle. *)
Lemma activations_clearTimeout (h : option nat) (st : State) :
  activations (clearTimeout h st) = activations st.
Proof. destruct h; reflexivity. Qed.

Lemma listener_clearTimeout (h : option nat) (st : State) :
  _listener (clearTimeout h st) = _listener st.
Proof. destruct h; reflexivity. Qed.

Lemma nextHandle_clearTimeout (h : option nat) (st : State) :
  nextHandle (clearTimeout h st) = nextHandle st.
Proof. destruct h; reflexivity. Qed.

Lemma now_clearTimeout (h : option nat) (st : State) :
  now (clearTimeout h st) = now st.
Proof. destruct h; reflexivity. Qed.

Lemma validations_clearTimeout (h : option nat) (st : State) :
  validations (clearTimeout h st) = validations st.
Proof. destruct h; reflexivity. Qed.

Lemma elem_of_clearTimeout (h : option nat) (st : State) (t : Timer) :
  t ∈ timers (clearTimeout h st) ↔ t ∈ timers st ∧ h ≠ Some (t_handle t).
Proof.
  destruct h as [h|]; simpl.
  - rewrite list_elem_of_filter. split.
    + intros [Hne Ht]. split; [exact Ht|]. congruence.
    + intros [Ht Hne]. split; [|exact Ht]. congruence.
  - split; [intros Ht; split; [exact Ht|discriminate]|intros [Ht _]; exact Ht].
Qed.

Lemma NoDup_clearTimeout (h : option nat) (st : State) :
  NoDup (t_handle <$> timers st) → NoDup (t_handle <$> timers (clearTimeout h st)).
Proof.
  destruct h as [h|]; simpl; [|auto]. apply sublist_filter_fmap.
Qed.

Ltac clear_simpl :=
  simpl;
  rewrite ?activations_clearTimeout, ?listener_clearTimeout,
    ?nextHandle_clearTimeout, ?now_clearTimeout, ?models_clearTimeout,
    ?validations_clearTimeout;
  simpl.

Lemma consistent_onModelRemoved (m : IModel) (st : State) :
  consistent _selector st →
  consistent _selector (onModelRemoved _selector m st) ∧
  _listener (onModelRemoved _selector m st) !! uri m = None.
Proof.
  intros C. unfold onModelRemoved.
  change (_listener (setModelMarkers (uri m) _selector [] st)) with (_listener st).
  destruct (_listener st !! uri m) as [a|] eqn:Hl.
  2:{ split; [|exact Hl]. eapply consistent_same_core; [|exact C]. repeat split. }
  destruct C as [C1 C2 C3 C4 C5 C6 C7 C8].
  destruct (C3 _ _ Hl) as (act & Hact & Hmodel & Hsub).
  unfold dispose_listener.
  change (activations (setModelMarkers (uri m) _selector [] st))
    with (activations st).
  rewrite Hact.
  assert (Htimers : ∀ t,
            t ∈ timers (clearTimeout (a_handle act)
                          (set_activations <[a:=unsubscribed act]>
                             (setModelMarkers (uri m) _selector [] st))) →
            t ∈ timers st ∧ t_activation t ≠ a).
  { intros t Ht. apply elem_of_clearTimeout in Ht as [Ht Hne].
    split; [exact Ht|].
    intros E. destruct (C5 t Ht) as (act' & Hact' & Hh' & _).
    rewrite E, Hact in Hact'. injection Hact' as <-. congruence. }
  split; [|clear_simpl; apply lookup_delete_eq].
  split; clear_simpl.
  - exact C1.
  - intros u a'. rewrite lookup_delete. case_decide; [discriminate|].
    unfold getModel. clear_simpl. apply C2.
  - intros u a'. rewrite lookup_delete. case_decide as E; [discriminate|].
    intros Hu. destruct (C3 u a' Hu) as (act' & Hact' & Hm' & Hs').
    exists act'. split; [|split; assumption].
    rewrite list_lookup_insert_ne; [exact Hact'|].
    intros <-. rewrite Hact in Hact'. injection Hact' as <-. congruence.
  - intros a' act' Hact' Hs'.
    apply list_lookup_insert_Some in Hact' as [(-> & <- & _)|[Hne Hact']];
      [discriminate|].
    pose proof (C4 a' act' Hact' Hs') as Hold.
    rewrite lookup_delete_ne; [exact Hold|].
    intros E. rewrite <- E, Hl in Hold. congruence.
  - intros t Ht. destruct (Htimers t Ht) as [Hin Hne].
    destruct (C5 t Hin) as (act' & Hact' & Hrest).
    exists act'. split; [|exact Hrest].
    rewrite list_lookup_insert_ne; [exact Hact'|]. congruence.
  - apply NoDup_clearTimeout. exact C6.
  - intros t Ht. apply C7, (Htimers t Ht).
  - intros t Ht. apply C8, (Htimers t Ht).
Qed.

(** *** The change callback *)

Lemma consistent_changeCallback (a : nat) (act : Activation) (st : State) :
  consistent _selector st →
  activations st !! a = Some act → a_subscribed act = true →
  consistent _selector (changeCallback a st).
Proof.
  intros [C1 C2 C3 C4 C5 C6 C7 C8] Hact Hsub.
  unfold changeCallback. rewrite Hact. unfold setTimeout.
  assert (Hlt : a < length (activations st)) by (eapply lookup_lt_Some; exact Hact).
  assert (Hold : ∀ t, t ∈ timers (clearTimeout (a_handle act) st) →
                      t ∈ timers st ∧ t_activation t ≠ a).
  { intros t Ht. apply elem_of_clearTimeout in Ht as [Ht Hne].
    split; [exact Ht|].
    intros E. destruct (C5 t Ht) as (act' & Hact' & Hh' & _).
    rewrite E, Hact in Hact'. injection Hact' as <-. congruence. }
  split; clear_simpl.
  - exact C1.
  - unfold getModel. clear_simpl. exact C2.
  - intros u a' Hu. destruct (C3 u a' Hu) as (act' & Hact' & Hm' & Hs').
    destruct (decide (a' = a)) as [->|Hne].
    + rewrite Hact in Hact'. injection Hact' as <-.
      eexists. split; [apply list_lookup_insert_eq; exact Hlt|].
      split; assumption.
    + exists act'. split; [|split; assumption].
      rewrite list_lookup_insert_ne; [exact Hact'|]. congruence.
  - intros a' act' Hact' Hs'.
    apply list_lookup_insert_Some in Hact' as [(<- & <- & _)|[Hne Hact']].
    + simpl. apply (C4 a act Hact Hsub).
    + apply (C4 a' act' Hact' Hs').
  - intros t Ht. apply elem_of_app in Ht as [Ht|Ht].
    + destruct (Hold t Ht) as [Hin Hne].
      destruct (C5 t Hin) as (act' & Hact' & Hrest).
      exists act'. split; [|exact Hrest].
      rewrite list_lookup_insert_ne; [exact Hact'|]. congruence.
    + apply list_elem_of_singleton in Ht as ->. simpl.
      eexists. split; [apply list_lookup_insert_eq; exact Hlt|].
      split; [reflexivity|exact Hsub].
  - rewrite fmap_app. apply NoDup_app. split; [apply NoDup_clearTimeout; exact C6|].
    split; [|apply NoDup_singleton].
    intros h Hh Hnew. apply list_elem_of_singleton in Hnew. subst h.
    apply list_elem_of_fmap in Hh as (t & Hth & Ht).
    destruct (Hold t Ht) as [Hin _]. pose proof (C7 t Hin). simpl in Hth. lia.
  - intros t Ht. apply elem_of_app in Ht as [Ht|Ht].
    + destruct (Hold t Ht) as [Hin _]. pose proof (C7 t Hin). lia.
    + apply list_elem_of_singleton in Ht as ->. simpl. lia.
  - intros t Ht. apply elem_of_app in Ht as [Ht|Ht].
    + destruct (Hold t Ht) as [Hin _]. apply (C8 t Hin).
    + apply list_elem_of_singleton in Ht as ->. simpl. unfold debounce. lia.
Qed.

(** *** Timers that fire *)

Lemma same_core_doValidate (u : Uri) (c : string) (st : State) :
  same_core st (_doValidate u c st).
Proof. repeat split. Qed.

Lemma same_core_timerCallback (a : nat) (st : State) :
  same_core st (timerCallback a st).
Proof. unfold timerCallback. destruct (_ ≫= _); repeat split. Qed.

Lemma same_core_timerCallbacks (l : list Timer) (st : State) :
  same_core st (foldl (λ st t, timerCallback (t_activation t) st) st l).
Proof.
  revert st. induction l as [|t l IH]; intros st; simpl; [apply same_core_refl|].
  eapply same_core_trans; [apply same_core_timerCallback|apply IH].
Qed.

Lemma consistent_tick (st : State) :
  consistent _selector st → consistent _selector (tick st).
Proof.
  intros [C1 C2 C3 C4 C5 C6 C7 C8]. unfold tick.
  eapply consistent_same_core; [apply same_core_timerCallbacks|].
  split; simpl; try assumption.
  - intros t Ht. apply list_elem_of_filter in Ht as [_ Ht]. apply (C5 t Ht).
  - apply sublist_filter_fmap. exact C6.
  - intros t Ht. apply list_elem_of_filter in Ht as [_ Ht]. apply (C7 t Ht).
  - intros t Ht. apply list_elem_of_filter in Ht as [Hdue Ht].
    pose proof (C8 t Ht). lia.
Qed.

Lemma consistent_advance (ms : nat) (st : State) :
  consistent _selector st → consistent _selector (advance ms st).
Proof.
  revert st. induction ms as [|k IH]; intros st C; simpl; [exact C|].
  apply IH, consistent_tick, C.
Qed.

(** *** Changes the host makes to its models *)

Lemma getModel_update (u r : Uri) (f : IModel → IModel) (st : State) :
  (∀ m, uri (f m) = uri m) →
  getModel u (update_model r f st)
  = (λ m, if bool_decide (uri m = r) then f m else m) <$> getModel u st.
Proof.
  intros Hf. unfold getModel, update_model. simpl.
  induction (models st) as [|m ms IH]; simpl; [reflexivity|].
  assert (E : uri (if bool_decide (uri m = r) then f m else m) = uri m).
  { destruct (bool_decide (uri m = r)); [apply Hf|reflexivity]. }
  rewrite E. destruct (bool_decide (uri m = u)); [reflexivity|exact IH].
Qed.

Lemma uris_update (r : Uri) (f : IModel → IModel) (st : State) :
  (∀ m, uri (f m) = uri m) →
  uri <$> models (update_model r f st) = uri <$> models st.
Proof.
  intros Hf. unfold update_model. simpl. rewrite <- list_fmap_compose.
  apply list_fmap_ext. intros _ m _. simpl.
  destruct (bool_decide (uri m = r)); [apply Hf|reflexivity].
Qed.

(** The host may rewrite a model as long as the uri stays and, for a tracked
    document, the language stays. *)
Lemma consistent_update_model (r : Uri) (f : IModel → IModel) (st : State) :
  (∀ m, uri (f m) = uri m) →
  (tracked r st → ∀ m, modeId (f m) = modeId m) →
  consistent _selector st → consistent _selector (update_model r f st).
Proof.
  intros Hf Hlang [C1 C2 C3 C4 C5 C6 C7 C8].
  split; try assumption.
  - rewrite uris_update by exact Hf. exact C1.
  - intros u a Hu. change (_listener (update_model r f st)) with (_listener st) in Hu.
    destruct (C2 u a Hu) as (m & Hm & Hsel).
    rewrite getModel_update, Hm by exact Hf. simpl.
    eexists. split; [reflexivity|].
    destruct (bool_decide (uri m = r)) eqn:E; [|exact Hsel].
    apply bool_decide_eq_true in E.
    rewrite Hlang; [exact Hsel|].
    apply getModel_Some in Hm as [_ Hm]. exists a. congruence.
Qed.

Lemma consistent_remove_model (r : Uri) (st : State) :
  _listener st !! r = None →
  consistent _selector st →
  consistent _selector (set_models (filter (λ m, uri m ≠ r)) st).
Proof.
  intros Hl [C1 C2 C3 C4 C5 C6 C7 C8].
  split; try assumption.
  - simpl. eapply sublist_NoDup; [exact C1|]. apply fmap_sublist, sublist_filter.
  - intros u a Hu. change (_listener st !! u = Some a) in Hu.
    destruct (C2 u a Hu) as (m & Hm & Hsel).
    exists m. split; [|exact Hsel].
    assert (Hne : u ≠ r) by congruence.
    revert Hm. unfold getModel. simpl. clear -Hne.
    induction (models st) as [|m0 ms IH]; [discriminate|].
    simpl. rewrite filter_cons.
    destruct (bool_decide (uri m0 = u)) eqn:E.
    + intros [= ->]. apply bool_decide_eq_true in E.
      destruct (decide (uri m ≠ r)) as [_|Hn]; [|exfalso; apply Hn; congruence].
      simpl. rewrite bool_decide_eq_true_2; [reflexivity|exact E].
    + intros H. destruct (decide (uri m0 ≠ r)); [|auto].
      simpl. rewrite E. auto.
Qed.

Lemma find_snoc {A : Type} (p : A → bool) (l : list A) (x : A) :
  List.find p (l ++ [x])
  = match List.find p l with
    | Some y => Some y
    | None => if p x then Some x else None
    end.
Proof.
  induction l as [|y l IH]; simpl; [reflexivity|].
  destruct (p y); [reflexivity|exact IH].
Qed.

Lemma consistent_add_model (m : IModel) (st : State) :
  getModel (uri m) st = None →
  consistent _selector st →
  consistent _selector (set_models (λ ms, ms ++ [m]) st) ∧
  getModel (uri m) (set_models (λ ms, ms ++ [m]) st) = Some m ∧
  _listener (set_models (λ ms, ms ++ [m]) st) !! uri m = None.
Proof.
  intros Hnew [C1 C2 C3 C4 C5 C6 C7 C8].
  assert (Hfresh : ∀ m', m' ∈ models st → uri m' ≠ uri m).
  { intros m' Hin E. rewrite <- E in Hnew.
    rewrite getModel_unique in Hnew; [discriminate|exact C1|exact Hin]. }
  assert (Hget : ∀ u m', getModel u st = Some m' →
                         getModel u (set_models (λ ms, ms ++ [m]) st) = Some m').
  { intros u m'. unfold getModel. simpl. intros H.
    rewrite find_snoc, H. reflexivity. }
  split; [split; try assumption|split].
  - simpl. rewrite fmap_app. apply NoDup_app. split; [exact C1|].
    split; [|apply NoDup_singleton].
    intros u Hu Hm. apply list_elem_of_singleton in Hm. subst u.
    apply list_elem_of_fmap in Hu as (m' & E & Hin).
    apply (Hfresh m' Hin). congruence.
  - intros u a Hu. destruct (C2 u a Hu) as (m' & Hm' & Hsel).
    exists m'. split; [apply Hget; exact Hm'|exact Hsel].
  - unfold getModel in *. simpl. rewrite find_snoc, Hnew.
    rewrite bool_decide_eq_true_2; reflexivity.
  - simpl. destruct (_listener st !! uri m) as [a|] eqn:E; [|reflexivity].
    destruct (C2 _ _ E) as (m' & Hm' & _). congruence.
Qed.

(** *** Subscribers of a model *)

Lemma elem_of_subscribers_from (i : nat) (acts : list Activation) (u : Uri) (a : nat) :
  a ∈ subscribers_from i acts u ↔
  i ≤ a ∧ ∃ act, acts !! (a - i) = Some act ∧ a_subscribed act = true ∧ a_model act = u.
Proof.
  revert i. induction acts as [|act0 acts IH]; intros i; simpl.
  - split; [intros H; apply elem_of_nil in H; destruct H|].
    intros (_ & act & H & _). discriminate.
  - rewrite elem_of_app, IH. split.
    + intros [H|(Hle & act & Hact & Hrest)].
      * destruct (a_subscribed act0 && bool_decide (a_model act0 = u)) eqn:E;
          [|apply elem_of_nil in H; destruct H].
        apply list_elem_of_singleton in H as ->.
        apply andb_true_iff in E as [E1 E2]. apply bool_decide_eq_true in E2.
        split; [lia|]. exists act0. rewrite Nat.sub_diag. auto.
      * split; [lia|]. exists act. split; [|exact Hrest].
        replace (a - i) with (S (a - S i)) by lia. exact Hact.
    + intros (Hle & act & Hact & Hs & Hm).
      destruct (decide (a = i)) as [->|Hne].
      * left. rewrite Nat.sub_diag in Hact. injection Hact as ->.
        rewrite Hs, bool_decide_eq_true_2 by exact Hm. simpl.
        apply list_elem_of_singleton. reflexivity.
      * right. split; [lia|]. exists act. split; [|auto].
        replace (a - i) with (S (a - S i)) in Hact by lia. exact Hact.
Qed.

Lemma elem_of_subscribers (u : Uri) (st : State) (a : nat) :
  a ∈ subscribers u st ↔
  ∃ act, activations st !! a = Some act ∧ a_subscribed act = true ∧ a_model act = u.
Proof.
  unfold subscribers. rewrite elem_of_subscribers_from, Nat.sub_0_r.
  split; [intros [_ H]; exact H|intros H; split; [lia|exact H]].
Qed.

Lemma NoDup_subscribers_from (i : nat) (acts : list Activation) (u : Uri) :
  NoDup (subscribers_from i acts u).
Proof.
  revert i. induction acts as [|act0 acts IH]; intros i; simpl; [apply NoDup_nil_2|].
  apply NoDup_app. split; [|split; [|apply IH]].
  - destruct (_ && _); [apply NoDup_singleton|apply NoDup_nil_2].
  - intros a Ha Hin. apply elem_of_subscribers_from in Hin as [Hle _].
    destruct (_ && _); [|apply elem_of_nil in Ha; destruct Ha].
    apply list_elem_of_singleton in Ha. lia.
Qed.

(** A tracked document has exactly one attached change callback: the one of
    the activation its record points to. *)
Lemma subscribers_tracked (u : Uri) (a : nat) (st : State) :
  consistent _selector st → _listener st !! u = Some a → subscribers u st = [a].
Proof.
  intros C Hl.
  assert (Hin : a ∈ subscribers u st).
  { apply elem_of_subscribers. destruct (listener_activation _ _ C u a Hl)
      as (act & Hact & Hm & Hs). exists act. auto. }
  assert (Hall : ∀ b, b ∈ subscribers u st → b = a).
  { intros b Hb. apply elem_of_subscribers in Hb as (act & Hact & Hs & Hm).
    pose proof (subscribed_listener _ _ C b act Hact Hs) as Hb.
    rewrite Hm, Hl in Hb. congruence. }
  pose proof (NoDup_subscribers_from 0 (activations st) u) as Hnd.
  fold (subscribers u st) in Hnd.
  destruct (subscribers u st) as [|b [|c l]].
  - apply elem_of_nil in Hin. destruct Hin.
  - rewrite (Hall b); [reflexivity|left].
  - exfalso. apply NoDup_cons in Hnd as [Hb _]. apply Hb.
    rewrite (Hall b), (Hall c); [left|right; left|left].
Qed.

Lemma subscribers_untracked (u : Uri) (st : State) :
  consistent _selector st → _listener st !! u = None → subscribers u st = [].
Proof.
  intros C Hl. destruct (subscribers u st) as [|b l] eqn:E; [reflexivity|].
  assert (Hb : b ∈ subscribers u st) by (rewrite E; left).
  apply elem_of_subscribers in Hb as (act & Hact & Hs & Hm).
  pose proof (subscribed_listener _ _ C b act Hact Hs) as Hb.
  rewrite Hm, Hl in Hb. discriminate.
Qed.

Lemma consistent_changeCallbacks (l : list nat) (st : State) :
  consistent _selector st →
  (∀ a, a ∈ l → ∃ act, activations st !! a = Some act ∧ a_subscribed act = true) →
  consistent _selector (foldl (λ st a, changeCallback a st) st l).
Proof.
  revert st. induction l as [|a l IH]; intros st C Hl; simpl; [exact C|].
  destruct (Hl a) as (act & Hact & Hs); [left|].
  apply IH; [eapply consistent_changeCallback; eassumption|].
  intros b Hb. destruct (Hl b) as (actb & Hactb & Hsb); [right; exact Hb|].
  unfold changeCallback. rewrite Hact. unfold setTimeout. clear_simpl.
  destruct (decide (b = a)) as [->|Hne].
  - eexists. split; [apply list_lookup_insert_eq; eapply lookup_lt_Some; exact Hact|].
    exact Hs.
  - exists actb. split; [|exact Hsb].
    rewrite list_lookup_insert_ne; [exact Hactb|]. congruence.
Qed.

(** *** The promise chain *)

Lemma same_core_setModelMarkers (u : Uri) (owner : string) (ms : list IMarkerData)
    (st : State) :
  same_core st (setModelMarkers u owner ms st).
Proof. destruct ms; repeat split. Qed.

Lemma same_core_validate_tail (resource : Uri)
    (p : Settled (option (list (list Diagnostic)))) (st : State) :
  same_core st (validate_tail ts _selector resource p st).1.
Proof.
  unfold validate_tail, then_, validate_onDiagnostics.
  destruct p as [[ds|]|e]; simpl; try apply same_core_refl.
  destruct (getModel resource st); simpl; [|apply same_core_refl].
  apply same_core_setModelMarkers.
Qed.

Lemma same_core_finish (i : nat) (r : State * Settled unit) :
  same_core r.1 (finish i r).
Proof. unfold finish. destruct r as [st [[]|e]]; repeat split. Qed.

Lemma same_core_workerSettled (i : nat) (r : Settled LGWorker) (st : State) :
  same_core st (workerSettled ts _selector i r st).
Proof.
  unfold workerSettled.
  destruct (validations st !! i) as [[resource contents| |]|];
    try apply same_core_refl.
  destruct r as [w|e].
  - destruct (validate_onWorker resource contents w st); [repeat split|].
    eapply same_core_trans; [apply same_core_validate_tail|apply same_core_finish].
  - eapply same_core_trans; [apply same_core_validate_tail|apply same_core_finish].
Qed.

Lemma same_core_diagnosticsSettled (i : nat) (r : Settled (list Diagnostic))
    (st : State) :
  same_core st (diagnosticsSettled ts _selector i r st).
Proof.
  unfold diagnosticsSettled.
  destruct (validations st !! i) as [[|resource contents|]|];
    try apply same_core_refl.
  eapply same_core_trans; [apply same_core_validate_tail|apply same_core_finish].
Qed.

(** *** Untrack, then track *)

Lemma onModelRemoved_update_model (m : IModel) (r : Uri) (f : IModel → IModel)
    (st : State) :
  onModelRemoved _selector m (update_model r f st)
  = update_model r f (onModelRemoved _selector m st).
Proof.
  unfold onModelRemoved. simpl.
  destruct (_listener st !! uri m) as [a|]; [|reflexivity].
  unfold dispose_listener. simpl.
  destruct (activations st !! a) as [act|]; [|reflexivity].
  destruct (a_handle act); reflexivity.
Qed.

Lemma consistent_retrack (m : IModel) (st : State) :
  consistent _selector st → getModel (uri m) st = Some m →
  consistent _selector (onModelAdd _selector m (onModelRemoved _selector m st)).
Proof.
  intros C Hm. destruct (consistent_onModelRemoved m st C) as [C' Hl].
  apply consistent_onModelAdd; [exact C'| |exact Hl].
  erewrite getModel_models; [exact Hm|apply models_onModelRemoved].
Qed.

Lemma consistent_recompute_fold (l : list IModel) (st : State) :
  consistent _selector st → (∀ m, m ∈ l → getModel (uri m) st = Some m) →
  consistent _selector
    (foldl (λ st model,
              onModelAdd _selector model (onModelRemoved _selector model st)) st l).
Proof.
  revert st. induction l as [|m l IH]; intros st C Hl; simpl; [exact C|].
  apply IH; [apply consistent_retrack; [exact C|apply Hl; left]|].
  intros m' Hm'. erewrite getModel_models; [apply Hl; right; exact Hm'|].
  rewrite models_onModelAdd. apply models_onModelRemoved.
Qed.

Lemma consistent_recomputeDiagostics (st : State) :
  consistent _selector st → consistent _selector (recomputeDiagostics _selector st).
Proof.
  intros C. apply consistent_recompute_fold; [exact C|].
  intros m Hm. apply getModel_unique; [apply (models_unique _ _ C)|exact Hm].
Qed.

(** *** Every event keeps the invariant *)

Lemma consistent_step (e : Event) (st : State) :
  consistent _selector st → consistent _selector (step ts _selector e st).
Proof.
  intros C.
  destruct e as [r lang ls|r|r lang|r ls|ms|i w|i d| |v|v]; simpl.
  - destruct (getModel r st) eqn:Hr; [exact C|].
    set (m := {| uri := r; modeId := lang; linesContent := ls |}).
    destruct (consistent_add_model m st Hr C) as (C' & Hm & Hl).
    apply consistent_onModelAdd; assumption.
  - destruct (getModel r st) as [m|] eqn:Hr; [|exact C].
    destruct (consistent_onModelRemoved m st C) as [C' Hl].
    apply getModel_Some in Hr as [_ <-].
    apply consistent_remove_model; assumption.
  - destruct (getModel r (update_model r (with_modeId lang) st)) as [m|] eqn:Hr;
      [|exact C].
    rewrite onModelRemoved_update_model.
    destruct (consistent_onModelRemoved m st C) as [C' Hl].
    pose proof Hr as Hr'. apply getModel_Some in Hr' as [_ <-].
    apply consistent_onModelAdd.
    + apply consistent_update_model; [reflexivity| |exact C'].
      intros [a Ha]. rewrite Hl in Ha. discriminate.
    + erewrite getModel_models; [exact Hr|]. simpl.
      rewrite models_onModelRemoved. reflexivity.
    + exact Hl.
  - destruct (getModel r (update_model r (with_linesContent ls) st)) as [m|] eqn:Hr;
      [|exact C].
    apply consistent_changeCallbacks.
    + apply consistent_update_model; [reflexivity| |exact C]. reflexivity.
    + intros a Ha. apply elem_of_subscribers in Ha as (act & Hact & Hs & _).
      exists act. split; assumption.
  - apply consistent_advance, C.
  - eapply consistent_same_core; [apply same_core_workerSettled|exact C].
  - eapply consistent_same_core; [apply same_core_diagnosticsSettled|exact C].
  - apply consistent_recomputeDiagostics, C.
  - eapply consistent_same_core; [|exact C]. repeat split.
  - eapply consistent_same_core; [|exact C]. repeat split.
Qed.

Lemma consistent_run (es : list Event) (st : State) :
  consistent _selector st → consistent _selector (run ts _selector es st).
Proof.
  revert st. induction es as [|e es IH]; intros st C; [exact C|].
  rewrite run_cons. apply IH, consistent_step, C.
Qed.

(** *** The constructor establishes it *)

Lemma consistent_host (ms : list IModel) :
  NoDup (uri <$> ms) → consistent _selector (host ms).
Proof.
  intros Hnd. split; simpl; try exact Hnd.
  - intros u a H. rewrite lookup_empty in H. discriminate.
  - intros u a H. rewrite lookup_empty in H. discriminate.
  - intros a act H. rewrite lookup_nil in H. discriminate.
  - intros t H. apply elem_of_nil in H. destruct H.
  - apply NoDup_nil_2.
  - intros t H. apply elem_of_nil in H. destruct H.
  - intros t H. apply elem_of_nil in H. destruct H.
Qed.

Lemma consistent_construct_fold (l : list IModel) (st : State) :
  consistent _selector st → NoDup (uri <$> l) →
  (∀ m, m ∈ l → getModel (uri m) st = Some m ∧ _listener st !! uri m = None) →
  consistent _selector (foldl (λ st model, onModelAdd _selector model st) st l).
Proof.
  revert st. induction l as [|m l IH]; intros st C Hnd Hl; simpl; [exact C|].
  rewrite fmap_cons in Hnd. apply NoDup_cons in Hnd as [Hfresh Hnd].
  destruct (Hl m) as [Hm Hnone]; [left|].
  apply IH; [apply consistent_onModelAdd; assumption|exact Hnd|].
  intros m' Hm'. destruct (Hl m') as [Hget Hnone']; [right; exact Hm'|].
  split.
  - erewrite getModel_models; [exact Hget|apply models_onModelAdd].
  - rewrite listener_onModelAdd_other; [exact Hnone'|].
    intros E. apply Hfresh. rewrite E. apply list_elem_of_fmap_2. exact Hm'.
Qed.

Lemma consistent_construct (ms : list IModel) :
  NoDup (uri <$> ms) → consistent _selector (construct _selector ms).
Proof.
  intros Hnd. apply consistent_construct_fold;
    [apply consistent_host; exact Hnd|exact Hnd|].
  intros m Hm. split; [|apply lookup_empty].
  apply getModel_unique; [exact Hnd|exact Hm].
Qed.

Lemma reachable_consistent (st : State) :
  reachable ts _selector st → consistent _selector st.
Proof.
  intros (ms & es & Hnd & ->). apply consistent_run, consistent_construct, Hnd.
Qed.

End Consistency.

(** ** Debouncing *)

Section Debounce.

Variable ts : DiagnosticCategory.
Variable _selector : string.

Lemma filter_none {A : Type} (P : A → Prop) `{∀ x, Decision (P x)} (l : list A) :
  (∀ x, x ∈ l → ¬ P x) → filter P l = [].
Proof.
  induction l as [|x l IH]; intros Hl; [reflexivity|].
  rewrite filter_cons_False; [|apply Hl; left].
  apply IH. intros y Hy. apply Hl. right. exact Hy.
Qed.

(** Two pending timers of one document would both be the timer its single
    attached activation holds. *)
Lemma pending_same_handle (u : Uri) (st : State) (t1 t2 : Timer) :
  consistent _selector st →
  t1 ∈ pendingTimers u st → t2 ∈ pendingTimers u st → t_handle t1 = t_handle t2.
Proof.
  intros C H1 H2. unfold pendingTimers in *.
  apply list_elem_of_filter in H1 as [R1 H1].
  apply list_elem_of_filter in H2 as [R2 H2].
  destruct (timer_activation _ _ C t1 H1) as (act1 & Ha1 & Hh1 & Hs1).
  destruct (timer_activation _ _ C t2 H2) as (act2 & Ha2 & Hh2 & Hs2).
  unfold timer_resource in R1, R2. rewrite Ha1 in R1. rewrite Ha2 in R2.
  simpl in R1, R2. injection R1 as R1. injection R2 as R2.
  pose proof (subscribed_listener _ _ C _ _ Ha1 Hs1) as L1.
  pose proof (subscribed_listener _ _ C _ _ Ha2 Hs2) as L2.
  rewrite R1 in L1. rewrite R2, L1 in L2. injection L2 as E.
  rewrite E, Ha2 in Ha1. injection Ha1 as <-. congruence.
Qed.

Lemma at_most_one_timer (u : Uri) (st : State) :
  consistent _selector st → length (pendingTimers u st) ≤ 1.
Proof.
  intros C.
  assert (Hnd : NoDup (t_handle <$> pendingTimers u st)).
  { apply sublist_filter_fmap, (timer_handles _ _ C). }
  pose proof (pending_same_handle u st) as Hsame.
  destruct (pendingTimers u st) as [|t1 [|t2 l]]; simpl; try lia.
  exfalso. rewrite !fmap_cons in Hnd. apply NoDup_cons in Hnd as [Hfresh _].
  apply Hfresh. rewrite (Hsame t1 t2 C); [left|left|right; left].
Qed.

(** *** One millisecond *)

Lemma timer_pass_same_core (st st' : State) (t : Timer) :
  same_core st st' → timer_pass st' t = timer_pass st t.
Proof.
  intros (Hm & _ & Ha & _). unfold timer_pass, getModel. rewrite Hm, Ha. reflexivity.
Qed.

Lemma validations_timerCallback (t : Timer) (st : State) :
  validations (timerCallback (t_activation t) st) = validations st ++ timer_pass st t.
Proof.
  unfold timerCallback, timer_pass.
  destruct (_ ≫= _); simpl; [reflexivity|]. symmetry. apply app_nil_r.
Qed.

Lemma validations_timerCallbacks (l : list Timer) (st : State) :
  validations (foldl (λ st t, timerCallback (t_activation t) st) st l)
  = validations st ++ flat_map (timer_pass st) l.
Proof.
  revert st. induction l as [|t l IH]; intros st; simpl.
  - symmetry. apply app_nil_r.
  - rewrite IH, validations_timerCallback, <- app_assoc. f_equal. f_equal.
    apply flat_map_ext. intros t'.
    apply timer_pass_same_core, same_core_timerCallback.
Qed.

Lemma passes_for_app (u : Uri) (vs ws : list Validation) :
  passes_for u (vs ++ ws) = passes_for u vs ++ passes_for u ws.
Proof. apply filter_app. Qed.

(** The pass a timer starts is a pass of the document the timer belongs to. *)
Lemma passes_timer_pass (u : Uri) (st : State) (t : Timer) :
  passes_for u (timer_pass st t)
  = if decide (timer_resource st t = Some u) then timer_pass st t else [].
Proof.
  unfold timer_pass, timer_resource.
  destruct (activations st !! t_activation t) as [act|]; simpl;
    [|reflexivity].
  destruct (getModel (a_model act) st) as [m|] eqn:Hm;
    [|case_decide; reflexivity].
  apply getModel_Some in Hm as [_ Hm]. unfold passes_for.
  destruct (decide (Some (a_model act) = Some u)) as [E|E].
  - rewrite filter_cons_True; [reflexivity|]. simpl. congruence.
  - rewrite filter_cons_False; [reflexivity|]. simpl. congruence.
Qed.

Lemma passes_flat_map (u : Uri) (st : State) (l : list Timer) :
  passes_for u (flat_map (timer_pass st) l)
  = flat_map (timer_pass st) (filter (λ t, timer_resource st t = Some u) l).
Proof.
  induction l as [|t l IH]; [reflexivity|].
  simpl. rewrite passes_for_app, IH, passes_timer_pass, filter_cons.
  destruct (decide (timer_resource st t = Some u)); reflexivity.
Qed.

Lemma filter_swap {A : Type} (P Q : A → Prop)
    `{∀ x, Decision (P x)} `{∀ x, Decision (Q x)} (l : list A) :
  filter P (filter Q l) = filter Q (filter P l).
Proof.
  induction l as [|x l IH]; [reflexivity|].
  rewrite !(filter_cons _ x).
  destruct (decide (Q x)), (decide (P x));
    rewrite ?filter_cons_True, ?filter_cons_False by assumption;
    rewrite IH; reflexivity.
Qed.

(** What one tick does for a document: its due timers each start a pass, and
    its other timers stay. *)
Lemma tick_document (u : Uri) (st : State) :
  ∃ new,
    validations (tick st) = validations st ++ new ∧
    passes_for u new
    = flat_map (timer_pass st) (filter (λ t, t_due t ≤ S (now st)) (pendingTimers u st)) ∧
    pendingTimers u (tick st)
    = filter (λ t, ¬ t_due t ≤ S (now st)) (pendingTimers u st) ∧
    now (tick st) = S (now st) ∧ models (tick st) = models st ∧
    _listener (tick st) = _listener st.
Proof.
  unfold tick. simpl.
  set (st2 := set_timers (filter (λ t, ¬ t_due t ≤ S (now st))) (set_now S st)).
  set (due := filter (λ t, t_due t ≤ S (now st)) (timers st)).
  pose proof (same_core_timerCallbacks due st2) as (Hm & Hl & Ha & Ht & Hn & Hw).
  exists (flat_map (timer_pass st2) due). split; [|split; [|split; [|repeat split]]].
  - rewrite validations_timerCallbacks. reflexivity.
  - rewrite passes_flat_map. unfold due, pendingTimers.
    rewrite filter_swap. apply flat_map_ext. intros t. reflexivity.
  - unfold pendingTimers, timer_resource. rewrite Ha, Ht. simpl.
    apply filter_swap.
  - rewrite Hw. reflexivity.
  - rewrite Hm. reflexivity.
  - rewrite Hl. reflexivity.
Qed.

(** *** Waiting *)

(** While the document's timer is not yet due, time passes without a pass
    for the document. *)
Lemma advance_quiet (u : Uri) (t : Timer) (d : nat) (st : State) :
  pendingTimers u st = [t] → now st + d < t_due t →
  ∃ new,
    validations (advance d st) = validations st ++ new ∧
    passes_for u new = [] ∧
    pendingTimers u (advance d st) = [t] ∧
    now (advance d st) = now st + d ∧ models (advance d st) = models st ∧
    _listener (advance d st) = _listener st.
Proof.
  revert st. induction d as [|k IH]; intros st Hp Hdue; simpl.
  - exists []. rewrite app_nil_r. repeat split; [exact Hp|lia].
  - destruct (tick_document u st) as (new1 & Hv1 & Hp1 & Hpend & Hnow & Hm & Hl).
    rewrite Hp in Hp1, Hpend.
    rewrite filter_cons_False, filter_nil in Hp1 by lia.
    rewrite filter_cons_True, filter_nil in Hpend by lia.
    destruct (IH (tick st) Hpend) as (new2 & Hv2 & Hp2 & Hpend2 & Hnow2 & Hm2 & Hl2);
      [lia|].
    exists (new1 ++ new2). rewrite Hv2, Hv1, <- app_assoc, passes_for_app, Hp1, Hp2.
    repeat split; [exact Hpend2|lia|congruence|congruence].
Qed.

(** A document without a pending timer gets no pass from the passing of
    time. *)
Lemma advance_idle (u : Uri) (d : nat) (st : State) :
  pendingTimers u st = [] →
  ∃ new,
    validations (advance d st) = validations st ++ new ∧
    passes_for u new = [] ∧ pendingTimers u (advance d st) = [].
Proof.
  revert st. induction d as [|k IH]; intros st Hp; simpl.
  - exists []. rewrite app_nil_r. repeat split. exact Hp.
  - destruct (tick_document u st) as (new1 & Hv1 & Hp1 & Hpend & _).
    rewrite Hp in Hp1, Hpend. rewrite filter_nil in Hp1, Hpend.
    destruct (IH (tick st) Hpend) as (new2 & Hv2 & Hp2 & Hpend2).
    exists (new1 ++ new2). rewrite Hv2, Hv1, <- app_assoc, passes_for_app, Hp1, Hp2.
    repeat split. exact Hpend2.
Qed.

Lemma timer_pass_of_pending (u : Uri) (t : Timer) (m : IModel) (st : State) :
  t ∈ pendingTimers u st → getModel u st = Some m →
  timer_pass st t = [PendingWorker u (join LF (linesContent m))].
Proof.
  intros Ht Hm. apply list_elem_of_filter in Ht as [R _].
  unfold timer_resource in R. unfold timer_pass.
  destruct (activations st !! t_activation t) as [act|]; [|discriminate].
  simpl in R. injection R as R. simpl. rewrite R, Hm.
  apply getModel_Some in Hm as [_ ->]. reflexivity.
Qed.

(** Once the document's timer comes due, exactly one pass starts, with the
    text the model holds. *)
Lemma advance_fires (u : Uri) (t : Timer) (m : IModel) (d : nat) (st : State) :
  pendingTimers u st = [t] → getModel u st = Some m →
  now st < t_due t → t_due t ≤ now st + d →
  ∃ new,
    validations (advance d st) = validations st ++ new ∧
    passes_for u new = [PendingWorker u (join LF (linesContent m))] ∧
    pendingTimers u (advance d st) = [].
Proof.
  revert st. induction d as [|k IH]; intros st Hp Hm Hlo Hhi; simpl; [lia|].
  destruct (tick_document u st) as (new1 & Hv1 & Hp1 & Hpend & Hnow & Hmod & _).
  assert (Hpass : timer_pass st t = [PendingWorker u (join LF (linesContent m))]).
  { apply timer_pass_of_pending; [rewrite Hp; left|exact Hm]. }
  rewrite Hp in Hp1, Hpend.
  destruct (decide (t_due t ≤ S (now st))) as [Hdue|Hlater].
  - rewrite filter_cons_True, filter_nil in Hp1 by exact Hdue.
    rewrite filter_cons_False, filter_nil in Hpend by lia.
    simpl in Hp1. rewrite app_nil_r, Hpass in Hp1.
    destruct (advance_idle u k (tick st) Hpend) as (new2 & Hv2 & Hp2 & Hpend2).
    exists (new1 ++ new2). rewrite Hv2, Hv1, <- app_assoc, passes_for_app, Hp1, Hp2.
    repeat split. exact Hpend2.
  - rewrite filter_cons_False, filter_nil in Hp1 by exact Hlater.
    rewrite filter_cons_True, filter_nil in Hpend by exact Hlater.
    destruct (IH (tick st) Hpend) as (new2 & Hv2 & Hp2 & Hpend2); [|lia|lia|].
    { erewrite getModel_models; [exact Hm|exact Hmod]. }
    exists (new1 ++ new2). rewrite Hv2, Hv1, <- app_assoc, passes_for_app, Hp1, Hp2.
    repeat split. exact Hpend2.
Qed.

(** *** Editing *)

(** An edit of a tracked document cancels the pending timer, if any, and
    sets a new one due a full delay later; no pass starts. *)
Lemma edit_arms (u : Uri) (ls : list string) (st : State) :
  consistent _selector st → tracked u st →
  let st' := step ts _selector (ChangeContent u ls) st in
  consistent _selector st' ∧ armed u ls st' ∧ validations st' = validations st ∧
  ∃ a, _listener st !! u = Some a ∧
       pendingTimers u st'
       = [{| t_handle := nextHandle st; t_due := now st + debounce;
             t_activation := a |}].
Proof.
  intros C [a Hl] st'.
  split; [apply consistent_step; exact C|].
  destruct (listener_model _ _ C u a Hl) as (m0 & Hm0 & _).
  pose proof Hm0 as Huri. apply getModel_Some in Huri as [_ Huri].
  set (st1 := update_model u (with_linesContent ls) st).
  assert (C1 : consistent _selector st1).
  { apply consistent_update_model; [reflexivity|reflexivity|exact C]. }
  assert (Hm1 : getModel u st1 = Some (with_linesContent ls m0)).
  { unfold st1. rewrite getModel_update, Hm0 by reflexivity. simpl.
    rewrite bool_decide_eq_true_2; [reflexivity|exact Huri]. }
  assert (Hst' : st' = changeCallback a st1).
  { unfold st'. simpl. fold st1. rewrite Hm1.
    rewrite (subscribers_tracked _ u a st1 C1 Hl). reflexivity. }
  destruct (listener_activation _ _ C u a Hl) as (act & Hact & Hmodel & Hsub).
  assert (Hlt : a < length (activations st)) by (eapply lookup_lt_Some; exact Hact).
  assert (Hpend : pendingTimers u st'
                  = [{| t_handle := nextHandle st; t_due := now st + debounce;
                        t_activation := a |}]).
  { rewrite Hst'. unfold changeCallback.
    change (activations st1) with (activations st). rewrite Hact.
    unfold setTimeout, pendingTimers, timer_resource.
    simpl. rewrite activations_clearTimeout, nextHandle_clearTimeout,
      now_clearTimeout. simpl.
    rewrite filter_app, filter_cons_True, filter_nil.
    2:{ simpl. rewrite list_lookup_insert_eq by exact Hlt. simpl. congruence. }
    rewrite filter_none; [reflexivity|].
    intros t Ht R. apply elem_of_clearTimeout in Ht as [Ht Hne].
    change (timers st1) with (timers st) in Ht.
    destruct (timer_activation _ _ C t Ht) as (act' & Hact' & Hh' & Hs').
    assert (Ha : t_activation t ≠ a).
    { intros E. rewrite E, Hact in Hact'. injection Hact' as <-. congruence. }
    rewrite list_lookup_insert_ne, Hact' in R by congruence.
    simpl in R. injection R as R.
    pose proof (subscribed_listener _ _ C _ _ Hact' Hs') as L.
    rewrite R, Hl in L. congruence. }
  split; [|split].
  - split; [|split].
    + exists a. rewrite Hst'. unfold changeCallback.
      change (activations st1) with (activations st). rewrite Hact.
      simpl. rewrite listener_clearTimeout. exact Hl.
    + eexists. split; [exact Hpend|]. simpl.
      rewrite Hst'. unfold changeCallback.
      change (activations st1) with (activations st). rewrite Hact.
      simpl. rewrite now_clearTimeout. reflexivity.
    + exists (with_linesContent ls m0). split; [|reflexivity].
      rewrite (getModel_models u st1 st'); [exact Hm1|].
      rewrite Hst'. apply models_changeCallback.
  - rewrite Hst'. unfold changeCallback.
    change (activations st1) with (activations st). rewrite Hact.
    simpl. rewrite validations_clearTimeout. reflexivity.
  - exists a. split; [exact Hl|exact Hpend].
Qed.

Lemma last_cons_default {A : Type} (x d : A) (l : list A) :
  List.last (x :: l) d = List.last l x.
Proof.
  revert x d. induction l as [|y l IH]; intros x d; [reflexivity|].
  change (List.last (x :: y :: l) d) with (List.last (y :: l) d).
  rewrite IH. symmetry. apply IH.
Qed.

(** A burst in which every pause is shorter than the delay starts no pass
    for the document and leaves its timer set by the last edit. *)
Lemma burst_quiet (u : Uri) (edits : list (nat * list string)) :
  ∀ (c : list string) (st : State),
    consistent _selector st → armed u c st →
    Forall (λ e, e.1 < debounce) edits →
    let st' := run ts _selector (burst u edits) st in
    consistent _selector st' ∧ armed u (last_lines c edits) st' ∧
    ∃ new, validations st' = validations st ++ new ∧ passes_for u new = [].
Proof.
  induction edits as [|[d ls] edits IH]; intros c st C Harmed Hshort st'.
  - split; [exact C|]. split; [exact Harmed|].
    exists []. split; [symmetry; apply app_nil_r|reflexivity].
  - apply Forall_cons in Hshort as [Hd Hshort]. simpl in Hd.
    destruct Harmed as ([a Hl] & (t & Hp & Hdue) & _).
    destruct (advance_quiet u t d st Hp) as (new1 & Hv1 & Hp1 & _ & _ & _ & Hl1);
      [lia|].
    set (st1 := advance d st) in *.
    assert (C1 : consistent _selector st1) by (apply consistent_advance; exact C).
    assert (T1 : tracked u st1) by (exists a; rewrite Hl1; exact Hl).
    destruct (edit_arms u ls st1 C1 T1) as (C2 & Harmed2 & Hv2 & _).
    set (st2 := step ts _selector (ChangeContent u ls) st1) in *.
    destruct (IH ls st2 C2 Harmed2 Hshort) as (C3 & Harmed3 & new3 & Hv3 & Hp3).
    assert (E : st' = run ts _selector (burst u edits) st2) by reflexivity.
    rewrite E. split; [exact C3|]. split.
    + unfold last_lines in *. rewrite fmap_cons, last_cons_default. exact Harmed3.
    + exists (new1 ++ new3).
      rewrite Hv3, Hv2, Hv1, <- app_assoc, passes_for_app, Hp1, Hp3.
      split; reflexivity.
Qed.

Lemma burst_span_short (edits : list (nat * list string)) :
  burst_span edits < debounce → Forall (λ e, e.1 < debounce) edits.
Proof.
  induction edits as [|e edits IH]; intros Hspan; [apply Forall_nil_2|].
  simpl in Hspan. apply Forall_cons. split; [lia|]. apply IH. lia.
Qed.

(** C3. In every state the adapter can reach, a document has at most one
    pending debounce timer.  An edit of a tracked document leaves exactly one
    timer for it, newly set and due 500 milliseconds later.  And when a first
    edit is followed by any number of further edits, all within less than the
    delay, and then by a wait of at least the delay, exactly one validation
    pass starts for the document in all that time: a pass over the text of the
    last edit. *)
Theorem debounce_single_pass :
  (∀ st u, reachable ts _selector st → length (pendingTimers u st) ≤ 1) ∧
  (∀ st u ls, reachable ts _selector st → tracked u st →
     ∃ a, _listener st !! u = Some a ∧
          pendingTimers u (step ts _selector (ChangeContent u ls) st)
          = [{| t_handle := nextHandle st; t_due := now st + 500;
                t_activation := a |}]) ∧
  (∀ st u first edits wait,
     reachable ts _selector st → tracked u st →
     burst_span edits < debounce → debounce ≤ wait →
     ∃ new,
       validations (run ts _selector
                      (ChangeContent u first :: burst u edits ++ [Advance wait]) st)
       = validations st ++ new ∧
       passes_for u new
       = [PendingWorker u (join LF (last_lines first edits))]).
Proof.
  split; [|split].
  - intros st u R. apply at_most_one_timer, reachable_consistent with ts, R.
  - intros st u ls R T.
    destruct (edit_arms u ls st (reachable_consistent ts _ st R) T)
      as (_ & _ & _ & H). exact H.
  - intros st u first edits wait R T Hspan Hwait.
    pose proof (reachable_consistent ts _ st R) as C.
    destruct (edit_arms u first st C T) as (C1 & Harmed1 & Hv1 & _).
    set (st1 := step ts _selector (ChangeContent u first) st) in *.
    destruct (burst_quiet u edits first st1 C1 Harmed1 (burst_span_short _ Hspan))
      as (C2 & Harmed2 & new2 & Hv2 & Hp2).
    set (st2 := run ts _selector (burst u edits) st1) in *.
    destruct Harmed2 as (_ & (t & Hp & Hdue) & (m & Hm & Hcontent)).
    destruct (advance_fires u t m wait st2 Hp Hm) as (new3 & Hv3 & Hp3 & _);
      [lia|lia|].
    exists (new2 ++ new3).
    rewrite run_cons, run_app. fold st1. fold st2.
    change (run ts _selector [Advance wait] st2) with (advance wait st2).
    rewrite Hv3, Hv2, Hv1, <- app_assoc, passes_for_app, Hp2, Hp3, Hcontent.
    split; reflexivity.
Qed.

End Debounce.

(** ** Untrack and Retrigger-all *)

Section Tracking.

Variable ts : DiagnosticCategory.
Variable _selector : string.

Lemma getModelMarkers_cleared (u : Uri) (st : State) :
  getModelMarkers u _selector (setModelMarkers u _selector [] st) = [].
Proof. unfold getModelMarkers. simpl. rewrite lookup_delete_eq. reflexivity. Qed.

Lemma markers_dispose_listener (a : nat) (st : State) :
  markers (dispose_listener a st) = markers st.
Proof.
  unfold dispose_listener. destruct (activations st !! a) as [act|]; [|reflexivity].
  destruct (a_handle act); reflexivity.
Qed.

Lemma markers_onModelRemoved (m : IModel) (st : State) :
  markers (onModelRemoved _selector m st) = delete (uri m, _selector) (markers st).
Proof.
  unfold onModelRemoved. simpl.
  destruct (_listener st !! uri m); simpl; [|reflexivity].
  rewrite markers_dispose_listener. reflexivity.
Qed.

Lemma markers_onModelAdd (m : IModel) (st : State) :
  markers (onModelAdd _selector m st) = markers st.
Proof. unfold onModelAdd. destruct (bool_decide _); reflexivity. Qed.

Lemma set_markers_same (st : State) : set_markers (λ ms, ms) st = st.
Proof. destruct st. reflexivity. Qed.

Lemma no_pending_untracked (u : Uri) (st : State) :
  consistent _selector st → _listener st !! u = None → pendingTimers u st = [].
Proof.
  intros C Hl. apply filter_none. intros t Ht R.
  destruct (timer_activation _ _ C t Ht) as (act & Hact & _ & Hs).
  unfold timer_resource in R. rewrite Hact in R. simpl in R. injection R as R.
  pose proof (subscribed_listener _ _ C _ _ Hact Hs) as L.
  rewrite R, Hl in L. discriminate.
Qed.

(** C5, amended. Untrack leaves the document without markers under the
    adapter's owner tag.  For a tracked document it also leaves no pending
    timer and no attached change listener for it, detaches the listener its
    record pointed to, and removes the record.  For a document that is not
    tracked it does nothing but clear those markers: the outcome is the
    world with the document's marker entry deleted, so other markers are as
    before, and nothing changes at all when there was no such entry. *)
Theorem untrack_effect (st : State) (model : IModel) :
  reachable ts _selector st →
  let u := uri model in
  let st' := onModelRemoved _selector model st in
  getModelMarkers u _selector st' = [] ∧
  (tracked u st →
     pendingTimers u st' = [] ∧ subscribers u st' = [] ∧ ¬ tracked u st' ∧
     ∀ a, _listener st !! u = Some a →
          ∃ act, activations st' !! a = Some act ∧ a_subscribed act = false) ∧
  (¬ tracked u st →
     st' = set_markers (delete (u, _selector)) st ∧
     (∀ r owner, (r, owner) ≠ (u, _selector) →
        getModelMarkers r owner st' = getModelMarkers r owner st) ∧
     (markers st !! (u, _selector) = None → st' = st)).
Proof.
  intros R u st'. pose proof (reachable_consistent ts _ st R) as C.
  destruct (consistent_onModelRemoved _selector model st C) as [C' Hl'].
  fold st' in C', Hl'. fold u in Hl'.
  split; [|split].
  - unfold getModelMarkers, st'. rewrite markers_onModelRemoved.
    fold u. rewrite lookup_delete_eq. reflexivity.
  - intros _. split; [apply no_pending_untracked; assumption|].
    split; [eapply subscribers_untracked; eassumption|].
    split; [intros [a Ha]; rewrite Hl' in Ha; discriminate|].
    intros a Ha. unfold st', onModelRemoved. simpl. fold u. rewrite Ha.
    destruct (listener_activation _ _ C u a Ha) as (act & Hact & _).
    unfold dispose_listener. simpl. rewrite Hact.
    exists (unsubscribed act). split; [|reflexivity].
    simpl. rewrite activations_clearTimeout. simpl.
    apply list_lookup_insert_eq. eapply lookup_lt_Some. exact Hact.
  - intros Hun.
    assert (Hl : _listener st !! u = None).
    { destruct (_listener st !! u) as [a|] eqn:E; [|reflexivity].
      exfalso. apply Hun. exists a. exact E. }
    assert (Hst' : st' = set_markers (delete (u, _selector)) st).
    { unfold st', onModelRemoved. simpl. fold u. rewrite Hl. reflexivity. }
    split; [exact Hst'|]. split.
    + intros r owner Hne. rewrite Hst'. unfold getModelMarkers. simpl.
      rewrite lookup_delete_ne; [reflexivity|]. congruence.
    + intros Hnone. rewrite Hst'.
      rewrite <- (set_markers_same st) at 2. unfold set_markers. simpl.
      rewrite delete_id by exact Hnone. reflexivity.
Qed.

(** *** Retrigger-all *)

Lemma validations_dispose_listener (a : nat) (st : State) :
  validations (dispose_listener a st) = validations st.
Proof.
  unfold dispose_listener. destruct (activations st !! a) as [act|]; [|reflexivity].
  destruct (a_handle act); reflexivity.
Qed.

Lemma validations_onModelRemoved (m : IModel) (st : State) :
  validations (onModelRemoved _selector m st) = validations st.
Proof.
  unfold onModelRemoved. simpl.
  destruct (_listener st !! uri m); simpl; [|reflexivity].
  rewrite validations_dispose_listener. reflexivity.
Qed.

Lemma length_activations_onModelRemoved (m : IModel) (st : State) :
  length (activations (onModelRemoved _selector m st)) = length (activations st).
Proof.
  unfold onModelRemoved. simpl.
  destruct (_listener st !! uri m) as [a|]; simpl; [|reflexivity].
  unfold dispose_listener. simpl.
  destruct (activations st !! a) as [act|]; simpl; [|reflexivity].
  rewrite activations_clearTimeout. simpl. apply length_insert.
Qed.

Lemma length_activations_onModelAdd (m : IModel) (st : State) :
  length (activations st) ≤ length (activations (onModelAdd _selector m st)).
Proof.
  unfold onModelAdd. destruct (bool_decide _); simpl; [lia|].
  rewrite length_app. lia.
Qed.

Lemma listener_onModelRemoved_other (m : IModel) (u : Uri) (st : State) :
  uri m ≠ u →
  _listener (onModelRemoved _selector m st) !! u = _listener st !! u.
Proof.
  intros Hne. unfold onModelRemoved. simpl.
  destruct (_listener st !! uri m) as [a|]; simpl; [|reflexivity].
  rewrite lookup_delete_ne by exact Hne.
  unfold dispose_listener. simpl.
  destruct (activations st !! a) as [act|]; simpl; [|reflexivity].
  rewrite listener_clearTimeout. reflexivity.
Qed.

Lemma retrack_validations (l : list IModel) (st : State) :
  validations (foldl (retrack _selector) st l)
  = validations st
    ++ ((λ m, PendingWorker (uri m) (join LF (linesContent m)))
          <$> filter (λ m, modeId m = _selector) l).
Proof.
  revert st. induction l as [|m l IH]; intros st; simpl.
  - symmetry. apply app_nil_r.
  - rewrite IH, filter_cons. unfold retrack, onModelAdd.
    destruct (decide (modeId m = _selector)) as [E|E].
    + rewrite bool_decide_eq_false_2 by (intros H; apply H, E).
      simpl. rewrite validations_onModelRemoved, <- app_assoc. reflexivity.
    + rewrite bool_decide_eq_true_2 by exact E.
      rewrite validations_onModelRemoved. reflexivity.
Qed.

Lemma retrack_listener_other (l : list IModel) (u : Uri) (st : State) :
  u ∉ uri <$> l → _listener (foldl (retrack _selector) st l) !! u = _listener st !! u.
Proof.
  revert st. induction l as [|m l IH]; intros st Hu; simpl; [reflexivity|].
  rewrite fmap_cons in Hu. apply not_elem_of_cons in Hu as [Hne Hu].
  rewrite IH by exact Hu. unfold retrack.
  rewrite listener_onModelAdd_other, listener_onModelRemoved_other by congruence.
  reflexivity.
Qed.

Lemma retrack_length (l : list IModel) (st : State) :
  length (activations st) ≤ length (activations (foldl (retrack _selector) st l)).
Proof.
  revert st. induction l as [|m l IH]; intros st; simpl; [lia|].
  etransitivity; [|apply IH]. unfold retrack.
  etransitivity; [|apply length_activations_onModelAdd].
  rewrite length_activations_onModelRemoved. lia.
Qed.

Lemma retrack_fresh (l : list IModel) (st : State) (m : IModel) :
  NoDup (uri <$> l) → m ∈ l → modeId m = _selector →
  ∃ a, _listener (foldl (retrack _selector) st l) !! uri m = Some a ∧
       length (activations st) ≤ a.
Proof.
  revert st. induction l as [|m0 l IH]; intros st Hnd Hin Hsel.
  - apply elem_of_nil in Hin. destruct Hin.
  - rewrite fmap_cons in Hnd. apply NoDup_cons in Hnd as [Hfresh Hnd]. simpl.
    apply elem_of_cons in Hin as [->|Hin].
    + rewrite retrack_listener_other by exact Hfresh.
      unfold retrack, onModelAdd.
      rewrite bool_decide_eq_false_2 by (intros H; apply H, Hsel).
      simpl. rewrite lookup_insert_eq. eexists. split; [reflexivity|].
      rewrite length_activations_onModelRemoved. lia.
    + destruct (IH (retrack _selector st m0) Hnd Hin Hsel) as (a & Ha & Hle).
      exists a. split; [exact Ha|].
      etransitivity; [|exact Hle]. unfold retrack.
      etransitivity; [|apply length_activations_onModelAdd].
      rewrite length_activations_onModelRemoved. lia.
Qed.

Lemma retrack_markers_none (l : list IModel) (k : Uri * string) (st : State) :
  markers st !! k = None → markers (foldl (retrack _selector) st l) !! k = None.
Proof.
  revert st. induction l as [|m l IH]; intros st Hk; simpl; [exact Hk|].
  apply IH. unfold retrack. rewrite markers_onModelAdd, markers_onModelRemoved.
  rewrite lookup_delete. case_decide; [reflexivity|exact Hk].
Qed.

Lemma retrack_markers_cleared (l : list IModel) (m : IModel) (st : State) :
  m ∈ l → markers (foldl (retrack _selector) st l) !! (uri m, _selector) = None.
Proof.
  revert st. induction l as [|m0 l IH]; intros st Hin.
  - apply elem_of_nil in Hin. destruct Hin.
  - simpl. apply elem_of_cons in Hin as [->|Hin]; [|apply IH; exact Hin].
    apply retrack_markers_none. unfold retrack.
    rewrite markers_onModelAdd, markers_onModelRemoved. apply lookup_delete_eq.
Qed.

(** Untrack never sets a timer, and Track neither. *)
Lemma timers_onModelRemoved_subset (m : IModel) (st : State) (t : Timer) :
  t ∈ timers (onModelRemoved _selector m st) → t ∈ timers st.
Proof.
  unfold onModelRemoved. simpl.
  destruct (_listener st !! uri m) as [a|]; simpl; [|auto].
  unfold dispose_listener. simpl.
  destruct (activations st !! a) as [act|]; simpl; [|auto].
  intros Ht. apply elem_of_clearTimeout in Ht as [Ht _]. exact Ht.
Qed.

Lemma timers_onModelAdd (m : IModel) (st : State) :
  timers (onModelAdd _selector m st) = timers st.
Proof. unfold onModelAdd. destruct (bool_decide _); reflexivity. Qed.

Lemma retrack_timers_subset (l : list IModel) (st : State) (t : Timer) :
  t ∈ timers (foldl (retrack _selector) st l) → t ∈ timers st.
Proof.
  revert st. induction l as [|m l IH]; intros st Ht; [exact Ht|].
  simpl in Ht. apply IH in Ht. unfold retrack in Ht.
  rewrite timers_onModelAdd in Ht.
  apply timers_onModelRemoved_subset in Ht. exact Ht.
Qed.

(** After the round, no activation from before it has its change listener
    attached: every record now points to an activation made in the round. *)
Lemma retrack_detaches (st : State) (a : nat) (act : Activation) :
  consistent _selector st →
  a < length (activations st) →
  activations (foldl (retrack _selector) st (models st)) !! a = Some act →
  a_subscribed act = false.
Proof.
  intros C Hlt Hact.
  pose proof (consistent_recomputeDiagostics _selector st C) as C'.
  change (recomputeDiagostics _selector st)
    with (foldl (retrack _selector) st (models st)) in C'.
  destruct (a_subscribed act) eqn:Hs; [|reflexivity]. exfalso.
  pose proof (subscribed_listener _ _ C' a act Hact Hs) as Hl.
  destruct (listener_model _ _ C' _ _ Hl) as (m & Hm & Hsel).
  apply getModel_Some in Hm as [Hin Hu].
  change (foldl (retrack _selector) st (models st))
    with (recomputeDiagostics _selector st) in Hin.
  rewrite models_recomputeDiagostics in Hin.
  destruct (retrack_fresh (models st) st m) as (a' & Ha' & Hle);
    [apply (models_unique _ _ C)|exact Hin|exact Hsel|].
  rewrite Hu, Hl in Ha'. injection Ha' as <-. lia.
Qed.

(** C9. When the change event of the defaults fires, the adapter goes through
    the open models and performs Untrack, then Track, on each.  Untrack: the
    change listener every record pointed to is detached, every pending
    debounce timer is cancelled, and every open document ends without
    markers under the adapter's owner tag.  Track: one validation pass is
    started for each open document of the tracked language, over its current
    text, and none for any other; each of these documents, and no other,
    ends with a record, made in this round, whose change listener is the
    only one attached to the document. *)
Theorem config_change_revalidates (st : State) :
  reachable ts _selector st →
  let st' := step ts _selector DefaultsChanged st in
  let open := filter (λ m, modeId m = _selector) (models st) in
  st' = foldl (retrack _selector) st (models st) ∧
  validations st'
  = validations st
    ++ ((λ m, PendingWorker (uri m) (join LF (linesContent m))) <$> open) ∧
  (∀ m, m ∈ open →
     ∃ a, _listener st' !! uri m = Some a ∧ length (activations st) ≤ a ∧
          subscribers (uri m) st' = [a]) ∧
  (∀ u, tracked u st' → ∃ m, m ∈ open ∧ uri m = u) ∧
  (∀ m, m ∈ models st → getModelMarkers (uri m) _selector st' = []) ∧
  (∀ u a, _listener st !! u = Some a →
     ∃ act, activations st' !! a = Some act ∧ a_subscribed act = false) ∧
  timers st' = [].
Proof.
  intros R st' open. pose proof (reachable_consistent ts _ st R) as C.
  assert (E : st' = foldl (retrack _selector) st (models st)) by reflexivity.
  pose proof (consistent_recomputeDiagostics _selector st C) as C'.
  change (recomputeDiagostics _selector st) with st' in C'.
  assert (Hmodels : models st' = models st)
    by apply (models_recomputeDiagostics _selector st).
  split; [exact E|].
  split; [rewrite E; apply retrack_validations|].
  split; [|split; [|split; [|split]]].
  - intros m Hm. apply list_elem_of_filter in Hm as [Hsel Hm].
    destruct (retrack_fresh (models st) st m) as (a & Ha & Hle);
      [apply (models_unique _ _ C)|exact Hm|exact Hsel|].
    rewrite <- E in Ha. exists a. split; [exact Ha|]. split; [exact Hle|].
    apply (subscribers_tracked _selector (uri m) a st' C' Ha).
  - intros u [a Ha]. destruct (listener_model _ _ C' u a Ha) as (m & Hm & Hsel).
    apply getModel_Some in Hm as [Hin Hu]. rewrite Hmodels in Hin.
    exists m. split; [|exact Hu]. apply list_elem_of_filter. split; assumption.
  - intros m Hm. unfold getModelMarkers. rewrite E.
    rewrite retrack_markers_cleared by exact Hm. reflexivity.
  - intros u a Ha. destruct (listener_activation _ _ C u a Ha) as (act0 & Hact0 & _).
    assert (Hlt : a < length (activations st)) by (eapply lookup_lt_Some; exact Hact0).
    destruct (lookup_lt_is_Some_2 (activations st') a) as [act Hact].
    { pose proof (retrack_length (models st) st) as Hlen.
      rewrite <- E in Hlen. lia. }
    exists act. split; [exact Hact|].
    rewrite E in Hact. apply (retrack_detaches st a act C Hlt Hact).
  - destruct (timers st') as [|t l] eqn:Et; [reflexivity|]. exfalso.
    assert (Ht' : t ∈ timers st') by (rewrite Et; left).
    destruct (timer_activation _ _ C' t Ht') as (act & Hact & _ & Hs).
    assert (Ht : t ∈ timers st).
    { rewrite E in Ht'. apply retrack_timers_subset in Ht'. exact Ht'. }
    destruct (timer_activation _ _ C t Ht) as (act0 & Hact0 & _).
    assert (Hlt : t_activation t < length (activations st))
      by (eapply lookup_lt_Some; exact Hact0).
    rewrite E in Hact.
    rewrite (retrack_detaches st _ act C Hlt Hact) in Hs. discriminate.
Qed.

End Tracking.

(** ** Worked instances *)

Lemma one_document_reachable : reachable typescript_categories lg one_document.
Proof.
  exists [], [CreateModel "a.lg" lg ["# hi"]].
  split; [apply NoDup_nil_2|reflexivity].
Qed.

Lemma edited_document_reachable : reachable typescript_categories lg edited_document.
Proof.
  exists [], [CreateModel "a.lg" lg ["# hi"]; ChangeContent "a.lg" ["# hi"; "- there"]].
  split; [apply NoDup_nil_2|reflexivity].
Qed.

Lemma two_documents_reachable : reachable typescript_categories lg two_documents.
Proof.
  eexists [], _. split; [apply NoDup_nil_2|reflexivity].
Qed.

Lemma switched_document_reachable :
  reachable typescript_categories lg switched_document.
Proof.
  eexists [], _. split; [apply NoDup_nil_2|reflexivity].
Qed.

(** Two quick edits 100 and 200 milliseconds after a first one, then half a
    second of rest: one pass, over the text of the third edit. *)
Lemma debounce_single_pass_witness :
  ∃ new,
    validations
      (run typescript_categories lg
         (ChangeContent "a.lg" ["# h"]
            :: burst "a.lg" [(100, ["# hi"]); (200, ["# hi"; "- there"])]
            ++ [Advance 500])
         one_document)
    = validations one_document ++ new ∧
    passes_for "a.lg" new
    = [PendingWorker "a.lg" (join LF ["# hi"; "- there"])].
Proof.
  apply (proj2 (proj2 (debounce_single_pass typescript_categories lg))
           one_document "a.lg" ["# h"]
           [(100, ["# hi"]); (200, ["# hi"; "- there"])] 500).
  - exact one_document_reachable.
  - exists 0. vm_compute. reflexivity.
  - vm_compute. lia.
  - vm_compute. lia.
Defined.

(** C5, as the specification states it, fails: the document is not tracked,
    yet Untrack changes its markers under the adapter's owner tag. *)
Lemma untrack_untracked_not_noop :
  reachable typescript_categories lg switched_document ∧
  getModel "a.lg" switched_document = Some switched_model ∧
  ¬ tracked "a.lg" switched_document ∧
  getModelMarkers "a.lg" lg (onModelRemoved lg switched_model switched_document)
  ≠ getModelMarkers "a.lg" lg switched_document.
Proof.
  split; [exact switched_document_reachable|].
  split; [vm_compute; reflexivity|]. split.
  - intros [a Ha]. vm_compute in Ha. discriminate.
  - vm_compute. discriminate.
Qed.

Lemma untrack_effect_witness :
  let st' := onModelRemoved lg edited_model edited_document in
  (pendingTimers "a.lg" edited_document ≠ [] ∧
   getModelMarkers "a.lg" lg st' = [] ∧
   pendingTimers "a.lg" st' = [] ∧ subscribers "a.lg" st' = [] ∧
   ¬ tracked "a.lg" st') ∧
  onModelRemoved lg switched_model switched_document
  = set_markers (delete ("a.lg", lg)) switched_document.
Proof.
  intros st'. split.
  - destruct (untrack_effect typescript_categories lg edited_document edited_model
                edited_document_reachable) as (Hm & Ht & _).
    destruct Ht as (Hp & Hs & Hn & _).
    { exists 0. vm_compute. reflexivity. }
    split; [vm_compute; discriminate|].
    exact (conj Hm (conj Hp (conj Hs Hn))).
  - destruct (untrack_effect typescript_categories lg switched_document
                switched_model switched_document_reachable) as (_ & _ & Hu).
    destruct Hu as (Hst & _).
    { intros [a Ha]. vm_compute in Ha. discriminate. }
    exact Hst.
Defined.

(** C8, as the specification states it, fails: with the worker handle
    rejected, the completion promise is rejected too and carries no
    suggestions. *)
Lemma completion_rejects_without_handle :
  ∃ promise,
    provideCompletionItems no_word offset_of_column first_model
      {| lineNumber := 1; column := 1 |} one_document = Some promise ∧
    promise (Rejected "worker unavailable") = Rejected "worker unavailable" ∧
    ∀ l, promise (Rejected "worker unavailable") ≠ Fulfilled l.
Proof.
  eexists. split; [vm_compute; reflexivity|].
  split; [reflexivity|]. intros l. discriminate.
Qed.

Lemma completion_follows_handle_witness :
  ∃ promise,
    provideCompletionItems no_word offset_of_column first_model
      {| lineNumber := 1; column := 1 |} one_document = Some promise ∧
    (∀ worker,
       promise (Fulfilled worker)
       = Fulfilled {| suggestions :=
                        catalog (wordRange_at no_word first_model
                                   {| lineNumber := 1; column := 1 |}) |}) ∧
    (∀ e, promise (Rejected e) = Rejected e).
Proof.
  apply (completion_follows_handle no_word offset_of_column first_model
           {| lineNumber := 1; column := 1 |} one_document).
  vm_compute. discriminate.
Defined.

Lemma two_documents_edited_reachable :
  reachable typescript_categories lg two_documents_edited.
Proof.
  exists [], ([CreateModel "a.lg" lg ["# hi"];
               CreateModel "notes.txt" "plaintext" ["todo"];
               CreateModel "b.lg" lg ["# bye"; "- see you"]]
              ++ [ChangeContent "a.lg" ["# hi"; "- there"]]).
  split; [apply NoDup_nil_2|].
  rewrite (run_app typescript_categories lg). reflexivity.
Qed.

(** With two documents of the tracked language open, one of them edited a
    moment ago: the pending timer is cancelled, both old listeners are
    detached, and two passes start. *)
Lemma config_change_revalidates_witness :
  let st' := step typescript_categories lg DefaultsChanged two_documents_edited in
  timers two_documents_edited ≠ [] ∧
  validations st'
  = validations two_documents_edited
    ++ [PendingWorker "a.lg" (join LF ["# hi"; "- there"]);
        PendingWorker "b.lg" (join LF ["# bye"; "- see you"])] ∧
  (∃ act, activations st' !! 0 = Some act ∧ a_subscribed act = false) ∧
  timers st' = [].
Proof.
  intros st'.
  destruct (config_change_revalidates typescript_categories lg two_documents_edited
              two_documents_edited_reachable) as (_ & Hv & _ & _ & _ & Hd & Ht).
  split; [vm_compute; discriminate|]. split.
  - unfold st'. rewrite Hv. vm_compute. reflexivity.
  - split; [|exact Ht]. apply (Hd "a.lg" 0). vm_compute. reflexivity.
Defined.

(** * Further properties of the code *)

(** ** The length of a flattened chain *)

Lemma length_append (s t : string) :
  String.length (s +:+ t) = String.length s + String.length t.
Proof.
  induction s as [|a s IH]; [reflexivity|].
  rewrite append_String. simpl. rewrite IH. reflexivity.
Qed.

Lemma length_indentation (depth : nat) : String.length (indentation depth) = 2 * depth.
Proof.
  induction depth as [|k IH]; [reflexivity|].
  simpl indentation. rewrite length_append, IH. simpl. lia.
Qed.

Lemma length_render_links (links : list string) :
  ∀ depth, 0 < depth →
    String.length (render_links depth links)
    = total_length links + length links * (2 * depth + length links).
Proof.
  induction links as [|text links IH]; intros depth Hd; [reflexivity|].
  simpl render_links. rewrite length_append, IH by lia.
  destruct depth as [|k]; [lia|].
  unfold render_link. rewrite !length_append, length_indentation.
  simpl. nia.
Qed.

Lemma chain_links_cons (c : DiagnosticMessageChain) :
  ∃ rest, chain_links c = chain_messageText c :: rest.
Proof. destruct c as [s [c'|]]; simpl; eexists; reflexivity. Qed.

(** X1. The flattened text of a chain of n links is longer than its texts
    taken together by exactly n * n - 1 characters: the newlines and the
    growing indentation. *)
Theorem flatten_length (c : DiagnosticMessageChain) :
  String.length (flattenDiagnosticMessageText (ChainText c) LF) + 1
  = total_length (chain_links c) + length (chain_links c) * length (chain_links c).
Proof.
  simpl. rewrite flatten_while_render, append_empty_l.
  destruct (chain_links_cons c) as (rest & ->).
  simpl render_links. unfold render_link.
  rewrite length_append, length_render_links by lia.
  simpl. nia.
Qed.

(** ** [displayPartsToString] *)

Lemma join_empty_cons (s : string) (l : list string) :
  join EmptyString (s :: l) = s +:+ join EmptyString l.
Proof.
  destruct l as [|t l]; simpl; [symmetry; apply append_empty_r|reflexivity].
Qed.

Lemma join_empty_app (l k : list string) :
  join EmptyString (l ++ k) = join EmptyString l +:+ join EmptyString k.
Proof.
  induction l as [|s l IH]; [reflexivity|].
  rewrite <- app_comm_cons, !join_empty_cons, IH. symmetry. apply append_assoc.
Qed.

(** X2. The display text of a missing or empty array of parts is empty, and
    the text of two arrays put one after the other is the two texts put one
    after the other: nothing is inserted between parts. *)
Theorem displayPartsToString_app (a b : list SymbolDisplayPart) :
  displayPartsToString None = EmptyString ∧
  displayPartsToString (Some []) = EmptyString ∧
  displayPartsToString (Some (a ++ b))
  = displayPartsToString (Some a) +:+ displayPartsToString (Some b).
Proof.
  split; [reflexivity|]. split; [reflexivity|].
  unfold displayPartsToString. rewrite fmap_app. apply join_empty_app.
Qed.

(** ** The defaults object: setters and getters *)

(** X3. After any sequence of calls of the two setters, each getter returns
    the value of the last call of its own setter, and what the object held
    before when there was no such call; a setter never disturbs the other
    field.  A fresh object holds two minutes and no eager-sync flag. *)
Theorem defaults_last_write (calls : list SetterCall) (d : LanguageServiceDefaultsImpl) :
  getWorkerMaxIdleTime (foldl call_setter d calls)
  = last_idle_time calls (getWorkerMaxIdleTime d) ∧
  getEagerModelSync (foldl call_setter d calls)
  = last_eager_sync calls (getEagerModelSync d) ∧
  getWorkerMaxIdleTime LGDefaults = 120000%Z ∧
  getEagerModelSync LGDefaults = None.
Proof.
  split; [|split; [|split; reflexivity]].
  - revert d. induction calls as [|[v|v] calls IH]; intros d; simpl;
      [reflexivity|rewrite IH; reflexivity|rewrite IH; reflexivity].
  - revert d. induction calls as [|[v|v] calls IH]; intros d; simpl;
      [reflexivity|rewrite IH; reflexivity|rewrite IH; reflexivity].
Qed.

(** ** The suggestion catalog *)

(** X4. Whatever the word range, every suggestion replaces exactly that
    range and is inserted as a snippet; the labels are pairwise different;
    and apart from the range the list is the same for every request. *)
Theorem catalog_uniform (wordRange wordRange' : Range) :
  Forall (λ item, range item = wordRange ∧ insertTextRules item = InsertAsSnippet)
         (catalog wordRange) ∧
  NoDup (label <$> catalog wordRange) ∧
  suggestion_content <$> catalog wordRange
  = suggestion_content <$> catalog wordRange'.
Proof.
  split; [|split].
  - unfold catalog. repeat (apply Forall_cons; split; [split; reflexivity|]).
    apply Forall_nil_2.
  - apply (bool_decide_unpack _). vm_compute. exact I.
  - reflexivity.
Qed.

(** ** Positions and ranges *)

(** X6. Converting a text span throws exactly when the editor holds no model
    under the uri.  Otherwise, on a host whose offset-to-position map never
    moves backwards, a span of non-negative length becomes a range whose end
    is not before its start. *)
Theorem textSpanToRange_ordered (getPositionAt : IModel → Z → Position)
    (resource : Uri) (span : TextSpan) (st : State) :
  (_textSpanToRange getPositionAt resource span st = None
   ↔ getModel resource st = None) ∧
  (monotone_positions getPositionAt → (0 ≤ span_length span)%Z →
   getModel resource st ≠ None →
   ∃ r, _textSpanToRange getPositionAt resource span st = Some r ∧
        position_le
          {| lineNumber := range_startLineNumber r; column := range_startColumn r |}
          {| lineNumber := range_endLineNumber r; column := range_endColumn r |}).
Proof.
  unfold _textSpanToRange, _offsetToPosition.
  destruct (getModel resource st) as [model|]; split.
  - split; intros H; discriminate.
  - intros Hmono Hlen _. eexists. split; [reflexivity|]. simpl.
    specialize (Hmono model (span_start span) (span_start span + span_length span)%Z).
    unfold position_le in *. simpl. apply Hmono. lia.
  - split; reflexivity.
  - intros _ _ H. congruence.
Qed.

Lemma single_line_monotone : monotone_positions single_line_position.
Proof.
  intros model o1 o2 H. unfold position_le, single_line_position. simpl. lia.
Qed.

Lemma textSpanToRange_ordered_witness :
  ∃ r, _textSpanToRange single_line_position "a.lg"
         {| span_start := 2; span_length := 2 |} one_document = Some r ∧
       position_le
         {| lineNumber := range_startLineNumber r; column := range_startColumn r |}
         {| lineNumber := range_endLineNumber r; column := range_endColumn r |}.
Proof.
  apply (proj2 (textSpanToRange_ordered single_line_position "a.lg"
                  {| span_start := 2; span_length := 2 |} one_document)).
  - exact single_line_monotone.
  - simpl. lia.
  - vm_compute. discriminate.
Defined.

(** ** Publishing *)

Section Publishing.

Variable ts : DiagnosticCategory.
Variable _selector : string.

(** What is handed over under a key is what the key then holds. *)
Lemma handed_markers_setModelMarkers (u : Uri) (owner : string)
    (ms : list IMarkerData) (st : State) :
  handed_markers u owner (setModelMarkers u owner ms st) = ms.
Proof.
  unfold handed_markers. destruct ms as [|m ms]; simpl.
  - rewrite lookup_delete_eq. reflexivity.
  - rewrite lookup_insert_eq. reflexivity.
Qed.

Lemma markers_setModelMarkers_other (u : Uri) (owner : string)
    (ms : list IMarkerData) (st : State) (k : Uri * string) :
  k ≠ (u, owner) → markers (setModelMarkers u owner ms st) !! k = markers st !! k.
Proof.
  intros Hne. destruct ms as [|m ms]; simpl.
  - apply lookup_delete_ne. congruence.
  - apply lookup_insert_ne. congruence.
Qed.

(** The effect of an answer that arrives while the document is open. *)
Lemma publish_effect (st : State) (i : nat) (resource : Uri)
    (contents : string) (ds : list Diagnostic) :
  validations st !! i = Some (PendingDiagnostics resource contents) →
  getModel resource st ≠ None →
  let st' := diagnosticsSettled ts _selector i (Fulfilled ds) st in
  handed_markers resource _selector st' = map (_convertDiagnostics ts resource) ds ∧
  (∀ k, k ≠ (resource, _selector) → markers st' !! k = markers st !! k) ∧
  validations st' !! i = Some (Done (Fulfilled tt)) ∧
  uncaught st' = uncaught st.
Proof.
  intros Hi Hopen st'. unfold st', diagnosticsSettled. rewrite Hi.
  destruct (getModel resource st) as [model|] eqn:Hm; [|congruence].
  pose proof Hm as Huri. apply getModel_Some in Huri as [_ Huri].
  unfold validate_tail, then_, validate_onDiagnostics, Promise_all.
  rewrite Hm. simpl then_undefined. rewrite finish_fulfilled, Huri, app_nil_r.
  split; [|split; [|split]].
  - apply handed_markers_setModelMarkers.
  - intros k Hk. apply markers_setModelMarkers_other. exact Hk.
  - change (validations (set_validations ?f ?s)) with (f (validations s)).
    destruct (map _ ds); simpl; eapply lookup_done, Hi.
  - destruct (map _ ds); reflexivity.
Qed.

(** X7. When the diagnostics of a pass arrive and the document is open, the
    marker data the adapter hands to the host for the document under its
    owner tag is exactly the converted diagnostics, in the worker's order,
    in place of whatever it had handed over before (an empty answer hands
    over the empty set); what was handed over for any other document or
    owner is untouched, and the pass is over without an error. *)
Theorem publish_replaces (st : State) (i : nat) (resource : Uri)
    (contents : string) (ds : list Diagnostic) :
  validations st !! i = Some (PendingDiagnostics resource contents) →
  getModel resource st ≠ None →
  let st' := diagnosticsSettled ts _selector i (Fulfilled ds) st in
  handed_markers resource _selector st' = map (_convertDiagnostics ts resource) ds ∧
  (∀ k, k ≠ (resource, _selector) → markers st' !! k = markers st !! k) ∧
  validations st' !! i = Some (Done (Fulfilled tt)) ∧
  uncaught st' = uncaught st.
Proof. apply publish_effect. Qed.

(** X8. Passes are not kept in order: when two passes wait for diagnostics
    of the same open document, the marker data the host holds from the
    adapter once both answers have arrived is the converted answer that
    arrived last, whichever pass was started first. *)
Theorem last_arrival_wins (st : State) (i j : nat) (resource : Uri)
    (ci cj : string) (di dj : list Diagnostic) :
  i ≠ j →
  validations st !! i = Some (PendingDiagnostics resource ci) →
  validations st !! j = Some (PendingDiagnostics resource cj) →
  getModel resource st ≠ None →
  let st' := diagnosticsSettled ts _selector i (Fulfilled di)
               (diagnosticsSettled ts _selector j (Fulfilled dj) st) in
  handed_markers resource _selector st' = map (_convertDiagnostics ts resource) di.
Proof.
  intros Hne Hi Hj Hopen st'.
  set (st1 := diagnosticsSettled ts _selector j (Fulfilled dj) st).
  assert (Hopen1 : getModel resource st1 ≠ None).
  { erewrite getModel_models; [exact Hopen|apply models_diagnosticsSettled]. }
  assert (Hi1 : validations st1 !! i = Some (PendingDiagnostics resource ci)).
  { unfold st1, diagnosticsSettled. rewrite Hj.
    destruct (getModel resource st) as [model|] eqn:Hm; [|congruence].
    unfold validate_tail, then_, validate_onDiagnostics, Promise_all.
    rewrite Hm. simpl then_undefined. rewrite finish_fulfilled.
    change (validations (set_validations ?f ?s)) with (f (validations s)).
    rewrite list_lookup_insert_ne by congruence.
    destruct (map _ _); exact Hi. }
  apply (publish_effect st1 i resource ci di Hi1 Hopen1).
Qed.

End Publishing.

(** ** What an event does to the validation passes *)

Section Passes.

Variable ts : DiagnosticCategory.
Variable _selector : string.

Lemma on_open_text_models (st st' : State) (v : Validation) :
  models st' = models st →
  on_open_text _selector st v → on_open_text _selector st' v.
Proof.
  intros Hm (m & Hg & Hs & Hv). exists m.
  rewrite (getModel_models (uri m) st st' Hm). auto.
Qed.

Lemma moved_on_refl (v : Validation) : moved_on v v.
Proof. left. reflexivity. Qed.

Lemma moved_on_trans (v1 v2 v3 : Validation) :
  moved_on v1 v2 → moved_on v2 v3 → moved_on v1 v3.
Proof.
  intros [->|[H12 R12]] [->|[H23 R23]].
  - left. reflexivity.
  - right. auto.
  - right. auto.
  - right. split; [lia|].
    destruct R23 as [R23 | ->]; [|right; reflexivity].
    destruct R12 as [R12 | ->]; [left; congruence|].
    destruct v3; simpl in *; try lia; discriminate.
Qed.

(** The reactions after the first always end fulfilled, and touch neither
    the passes nor the uncaught errors. *)
Lemma validate_tail_outcome (resource : Uri)
    (p : Settled (option (list (list Diagnostic)))) (st : State) :
  (validate_tail ts _selector resource p st).2 = Fulfilled tt ∧
  validations (validate_tail ts _selector resource p st).1 = validations st ∧
  uncaught (validate_tail ts _selector resource p st).1 = uncaught st.
Proof.
  unfold validate_tail, then_, validate_onDiagnostics.
  destruct p as [[ds|]|e]; simpl; try (repeat split; reflexivity).
  destruct (getModel resource st); simpl; [|repeat split; reflexivity].
  destruct (map _ _); repeat split; reflexivity.
Qed.

Lemma finish_validate_tail (i : nat) (resource : Uri)
    (p : Settled (option (list (list Diagnostic)))) (st : State) :
  validations (finish i (validate_tail ts _selector resource p st))
  = <[i := Done (Fulfilled tt)]> (validations st) ∧
  uncaught (finish i (validate_tail ts _selector resource p st)) = uncaught st.
Proof.
  destruct (validate_tail_outcome resource p st) as (Ho & Hv & Hu).
  destruct (validate_tail ts _selector resource p st) as [st1 o].
  simpl in Ho, Hv, Hu. subst o. rewrite finish_fulfilled. simpl.
  rewrite Hv, Hu. split; reflexivity.
Qed.

Lemma settle_worker (i : nat) (r : Settled LGWorker) (st : State) :
  uncaught (workerSettled ts _selector i r st) = uncaught st ∧
  (validations (workerSettled ts _selector i r st) = validations st ∨
   ∃ v v', validations st !! i = Some v ∧
           validations (workerSettled ts _selector i r st)
           = <[i := v']> (validations st) ∧
           stage v < stage v' ∧
           (validation_request v' = validation_request v ∨ v' = Done (Fulfilled tt))).
Proof.
  unfold workerSettled.
  destruct (validations st !! i) as [[resource contents| |]|] eqn:Hi;
    try (split; [reflexivity|left; reflexivity]).
  destruct r as [w|e].
  - unfold validate_onWorker. destruct (getModel resource st).
    + split; [reflexivity|]. right. do 2 eexists.
      split; [reflexivity|]. split; [reflexivity|]. simpl. split; [lia|].
      left. reflexivity.
    + destruct (finish_validate_tail i resource (Fulfilled None) st) as [Hv Hu].
      split; [exact Hu|]. right. do 2 eexists.
      split; [reflexivity|]. split; [exact Hv|]. simpl. split; [lia|].
      right. reflexivity.
  - destruct (finish_validate_tail i resource (Rejected e) st) as [Hv Hu].
    split; [exact Hu|]. right. do 2 eexists.
    split; [reflexivity|]. split; [exact Hv|]. simpl. split; [lia|].
    right. reflexivity.
Qed.

Lemma settle_diagnostics (i : nat) (r : Settled (list Diagnostic)) (st : State) :
  uncaught (diagnosticsSettled ts _selector i r st) = uncaught st ∧
  (validations (diagnosticsSettled ts _selector i r st) = validations st ∨
   ∃ v v', validations st !! i = Some v ∧
           validations (diagnosticsSettled ts _selector i r st)
           = <[i := v']> (validations st) ∧
           stage v < stage v' ∧
           (validation_request v' = validation_request v ∨ v' = Done (Fulfilled tt))).
Proof.
  unfold diagnosticsSettled.
  destruct (validations st !! i) as [[|resource contents|]|] eqn:Hi;
    try (split; [reflexivity|left; reflexivity]).
  match goal with
  | |- context [finish i (validate_tail ts _selector resource ?p st)] =>
    destruct (finish_validate_tail i resource p st) as [Hv Hu]
  end.
  split; [exact Hu|]. right. do 2 eexists.
  split; [reflexivity|]. split; [exact Hv|]. simpl. split; [lia|].
  right. reflexivity.
Qed.

(** *** Untrack, Track and the change callback *)

Lemma uncaught_onModelAdd (m : IModel) (st : State) :
  uncaught (onModelAdd _selector m st) = uncaught st.
Proof. unfold onModelAdd. destruct (bool_decide _); reflexivity. Qed.

Lemma uncaught_onModelRemoved (m : IModel) (st : State) :
  uncaught (onModelRemoved _selector m st) = uncaught st.
Proof.
  unfold onModelRemoved, dispose_listener, clearTimeout. simpl.
  repeat case_match; reflexivity.
Qed.

Lemma log_changeCallback (a : nat) (st : State) :
  validations (changeCallback a st) = validations st ∧
  uncaught (changeCallback a st) = uncaught st ∧
  _listener (changeCallback a st) = _listener st.
Proof.
  unfold changeCallback, setTimeout, clearTimeout.
  repeat case_match; repeat split; reflexivity.
Qed.

Lemma log_changeCallbacks (l : list nat) (st : State) :
  validations (foldl (λ st a, changeCallback a st) st l) = validations st ∧
  uncaught (foldl (λ st a, changeCallback a st) st l) = uncaught st ∧
  _listener (foldl (λ st a, changeCallback a st) st l) = _listener st.
Proof.
  revert st. induction l as [|a l IH]; intros st; simpl; [repeat split|].
  destruct (IH (changeCallback a st)) as (Hv & Hu & Hl).
  destruct (log_changeCallback a st) as (Hv' & Hu' & Hl').
  repeat split; congruence.
Qed.

Lemma onModelAdd_validations (m : IModel) (st : State) :
  getModel (uri m) st = Some m →
  ∃ new, validations (onModelAdd _selector m st) = validations st ++ new ∧
         Forall (on_open_text _selector st) new.
Proof.
  intros Hm. unfold onModelAdd.
  destruct (bool_decide (modeId m ≠ _selector)) eqn:Hsel.
  - exists []. rewrite app_nil_r. split; [reflexivity|apply Forall_nil_2].
  - apply bool_decide_eq_false in Hsel. apply dec_stable in Hsel.
    eexists. split; [reflexivity|].
    apply Forall_cons. split; [|apply Forall_nil_2].
    exists m. auto.
Qed.

(** *** Timers *)

Lemma timer_reads_model (st : State) (t : Timer) :
  consistent _selector st → t ∈ timers st →
  ∃ m, (activations st !! t_activation t ≫= (λ act, getModel (a_model act) st))
       = Some m ∧
       getModel (uri m) st = Some m ∧ modeId m = _selector.
Proof.
  intros C Ht.
  destruct (timer_activation _ _ C t Ht) as (act & Hact & _ & Hs).
  pose proof (subscribed_listener _ _ C _ _ Hact Hs) as Hl.
  destruct (listener_model _ _ C _ _ Hl) as (m & Hm & Hsel).
  exists m. rewrite Hact. simpl. split; [exact Hm|]. split; [|exact Hsel].
  pose proof Hm as Hu. apply getModel_Some in Hu as [_ Hu]. rewrite Hu. exact Hm.
Qed.

Lemma uncaught_timerCallbacks (l : list Timer) (st : State) :
  (∀ t, t ∈ l →
     is_Some (activations st !! t_activation t ≫= (λ act, getModel (a_model act) st))) →
  uncaught (foldl (λ st t, timerCallback (t_activation t) st) st l) = uncaught st.
Proof.
  revert st. induction l as [|t l IH]; intros st Hl; simpl; [reflexivity|].
  destruct (Hl t) as [m Hm]; [left|].
  rewrite IH.
  - unfold timerCallback. rewrite Hm. reflexivity.
  - intros t' Ht'. destruct (same_core_timerCallback (t_activation t) st)
      as (Hmod & _ & Hact & _).
    unfold getModel. rewrite Hmod, Hact. apply Hl. right. exact Ht'.
Qed.

Lemma tick_log (st : State) :
  consistent _selector st →
  uncaught (tick st) = uncaught st ∧
  ∃ new, validations (tick st) = validations st ++ new ∧
         Forall (on_open_text _selector st) new.
Proof.
  intros C. unfold tick. simpl.
  set (st2 := set_timers (filter (λ t, ¬ t_due t ≤ S (now st))) (set_now S st)).
  set (due := filter (λ t, t_due t ≤ S (now st)) (timers st)).
  assert (Hdue : ∀ t, t ∈ due →
            ∃ m, (activations st2 !! t_activation t
                    ≫= (λ act, getModel (a_model act) st2)) = Some m ∧
                 getModel (uri m) st = Some m ∧ modeId m = _selector).
  { intros t Ht. apply list_elem_of_filter in Ht as [_ Ht].
    apply (timer_reads_model st t C Ht). }
  split.
  - change (uncaught st) with (uncaught st2).
    apply uncaught_timerCallbacks. intros t Ht.
    destruct (Hdue t Ht) as (m & Hm & _). exists m. exact Hm.
  - exists (flat_map (timer_pass st2) due).
    split; [rewrite validations_timerCallbacks; reflexivity|].
    apply Forall_forall. intros v Hv. apply list_elem_of_In in Hv.
    apply in_flat_map in Hv as (t & Ht & Hv).
    apply list_elem_of_In in Ht. destruct (Hdue t Ht) as (m & Hm & Hg & Hsel).
    unfold timer_pass in Hv. rewrite Hm in Hv.
    destruct Hv as [<-|[]]. exists m. auto.
Qed.

Lemma advance_log (d : nat) (st : State) :
  consistent _selector st →
  uncaught (advance d st) = uncaught st ∧
  ∃ new, validations (advance d st) = validations st ++ new ∧
         Forall (on_open_text _selector st) new.
Proof.
  revert st. induction d as [|k IH]; intros st C; simpl.
  - split; [reflexivity|]. exists []. rewrite app_nil_r.
    split; [reflexivity|apply Forall_nil_2].
  - destruct (tick_log st C) as (Hu1 & new1 & Hv1 & Hf1).
    destruct (IH (tick st) (consistent_tick _ st C)) as (Hu2 & new2 & Hv2 & Hf2).
    split; [congruence|]. exists (new1 ++ new2).
    rewrite Hv2, Hv1, <- app_assoc. split; [reflexivity|].
    apply Forall_app. split; [exact Hf1|].
    eapply Forall_impl; [exact Hf2|]. intros v.
    apply on_open_text_models. symmetry. apply models_tick.
Qed.

(** *** Every event *)

Lemma retrack_uncaught (l : list IModel) (st : State) :
  uncaught (foldl (retrack _selector) st l) = uncaught st.
Proof.
  revert st. induction l as [|m l IH]; intros st; simpl; [reflexivity|].
  rewrite IH. unfold retrack. rewrite uncaught_onModelAdd.
  apply uncaught_onModelRemoved.
Qed.

(** An event either appends passes, each over the current text of an open
    document of the tracked language, or moves one pass a stage on; and it
    raises nothing. *)
Lemma step_validations (e : Event) (st : State) :
  consistent _selector st →
  uncaught (step ts _selector e st) = uncaught st ∧
  ((∃ new, validations (step ts _selector e st) = validations st ++ new ∧
           Forall (on_open_text _selector (step ts _selector e st)) new) ∨
   (∃ i v v', validations st !! i = Some v ∧
              validations (step ts _selector e st) = <[i := v']> (validations st) ∧
              stage v < stage v' ∧
              (validation_request v' = validation_request v ∨
               v' = Done (Fulfilled tt)))).
Proof.
  intros C.
  assert (Hnone : ∀ st', validations st' = validations st →
            ∃ new, validations st' = validations st ++ new ∧
                   Forall (on_open_text _selector st') new).
  { intros st' H. exists []. rewrite app_nil_r. split; [exact H|apply Forall_nil_2]. }
  destruct e as [r lang ls|r|r lang|r ls|ms|i w|i d| |v|v]; simpl.
  - destruct (getModel r st) eqn:Hr; [split; [reflexivity|left; apply Hnone; reflexivity]|].
    set (m := {| uri := r; modeId := lang; linesContent := ls |}).
    destruct (consistent_add_model _selector m st Hr C) as (_ & Hm & _).
    split; [rewrite uncaught_onModelAdd; reflexivity|]. left.
    destruct (onModelAdd_validations m _ Hm) as (new & Hv & Hf).
    exists new. split; [exact Hv|].
    eapply Forall_impl; [exact Hf|]. intros v.
    apply on_open_text_models, models_onModelAdd.
  - destruct (getModel r st) as [m|]; [|split; [reflexivity|left; apply Hnone; reflexivity]].
    split; [apply uncaught_onModelRemoved|]. left. apply Hnone.
    apply validations_onModelRemoved.
  - destruct (getModel r (update_model r (with_modeId lang) st)) as [m|] eqn:Hr;
      [|split; [reflexivity|left; apply Hnone; reflexivity]].
    split; [rewrite uncaught_onModelAdd, uncaught_onModelRemoved; reflexivity|]. left.
    pose proof Hr as Hu. apply getModel_Some in Hu as [_ Hu].
    assert (Hm : getModel (uri m)
                   (onModelRemoved _selector m (update_model r (with_modeId lang) st))
                 = Some m).
    { rewrite Hu. erewrite getModel_models; [exact Hr|apply models_onModelRemoved]. }
    destruct (onModelAdd_validations m _ Hm) as (new & Hv & Hf).
    exists new. split; [rewrite Hv, validations_onModelRemoved; reflexivity|].
    eapply Forall_impl; [exact Hf|]. intros v.
    apply on_open_text_models, models_onModelAdd.
  - destruct (getModel r (update_model r (with_linesContent ls) st)) as [m|];
      [|split; [reflexivity|left; apply Hnone; reflexivity]].
    match goal with
    | |- context [foldl ?f ?s ?l] => destruct (log_changeCallbacks l s) as (Hv & Hu & _)
    end.
    split; [exact Hu|]. left. apply Hnone. exact Hv.
  - destruct (advance_log ms st C) as (Hu & new & Hv & Hf).
    split; [exact Hu|]. left. exists new. split; [exact Hv|].
    eapply Forall_impl; [exact Hf|]. intros v.
    apply on_open_text_models, models_advance.
  - destruct (settle_worker i w st) as [Hu [Hv|Hv]].
    + split; [exact Hu|]. left. apply Hnone. exact Hv.
    + split; [exact Hu|]. right. destruct Hv as (v & v' & H). exists i, v, v'. exact H.
  - destruct (settle_diagnostics i d st) as [Hu [Hv|Hv]].
    + split; [exact Hu|]. left. apply Hnone. exact Hv.
    + split; [exact Hu|]. right. destruct Hv as (v & v' & H). exists i, v, v'. exact H.
  - split; [apply retrack_uncaught|]. left.
    change (recomputeDiagostics _selector st)
      with (foldl (retrack _selector) st (models st)).
    eexists. split; [apply retrack_validations|].
    apply Forall_forall. intros v Hv.
    apply list_elem_of_fmap in Hv as (m & -> & Hm).
    apply list_elem_of_filter in Hm as [Hsel Hm].
    exists m. split; [|auto].
    erewrite getModel_models; [|apply (models_recomputeDiagostics _selector st)].
    apply getModel_unique; [apply (models_unique _ _ C)|exact Hm].
  - split; [reflexivity|]. left. exists []. rewrite app_nil_r.
    split; [reflexivity|apply Forall_nil_2].
  - split; [reflexivity|]. left. exists []. rewrite app_nil_r.
    split; [reflexivity|apply Forall_nil_2].
Qed.

(** *** Consequences for single passes *)

Lemma step_length (e : Event) (st : State) :
  consistent _selector st →
  length (validations st) ≤ length (validations (step ts _selector e st)).
Proof.
  intros C. destruct (step_validations e st C) as [_ [(new & Hv & _)|(i & v & v' & _ & Hv & _)]];
    rewrite Hv.
  - rewrite length_app. lia.
  - rewrite length_insert. lia.
Qed.

Lemma step_lookup (e : Event) (st : State) (i : nat) (v : Validation) :
  consistent _selector st → validations st !! i = Some v →
  ∃ v', validations (step ts _selector e st) !! i = Some v' ∧ moved_on v v'.
Proof.
  intros C Hi.
  destruct (step_validations e st C) as [_ [(new & Hv & _)|(j & w & w' & Hj & Hv & Hst & Hreq)]];
    rewrite Hv.
  - exists v. split; [apply lookup_app_l_Some; exact Hi|apply moved_on_refl].
  - destruct (decide (j = i)) as [->|Hne].
    + exists w'. split; [eapply lookup_done; exact Hi|].
      rewrite Hi in Hj. injection Hj as <-. right. auto.
    + exists v. split; [|apply moved_on_refl].
      rewrite list_lookup_insert_ne by exact Hne. exact Hi.
Qed.

Lemma request_resource (v v' : Validation) :
  validation_request v' = validation_request v →
  validation_resource v' = validation_resource v.
Proof. destruct v, v'; simpl; congruence. Qed.

(** The passes in a world raise nothing and, once over, are fulfilled. *)
Lemma quiet_step (e : Event) (st : State) :
  consistent _selector st →
  uncaught st = [] ∧
  (∀ i o, validations st !! i = Some (Done o) → o = Fulfilled tt) →
  uncaught (step ts _selector e st) = [] ∧
  (∀ i o, validations (step ts _selector e st) !! i = Some (Done o) →
          o = Fulfilled tt).
Proof.
  intros C [Hu Hd].
  destruct (step_validations e st C) as [Hu' Hv]. split; [congruence|].
  intros i o Hi.
  destruct Hv as [(new & Hv & Hf)|(j & w & w' & Hj & Hv & Hst & Hreq)];
    rewrite Hv in Hi.
  - apply lookup_app_Some in Hi as [Hi|[_ Hi]]; [apply (Hd i o Hi)|].
    exfalso. rewrite Forall_forall in Hf.
    destruct (Hf (Done o)) as (m & _ & _ & Habs); [|discriminate].
    eapply list_elem_of_lookup_2. exact Hi.
  - apply list_lookup_insert_Some in Hi as [(_ & E & _)|[_ Hi]];
      [|apply (Hd i o Hi)].
    subst w'. destruct Hreq as [Hreq|[= ->]]; [|reflexivity].
    destruct w; simpl in *; try discriminate; lia.
Qed.

Lemma quiet_construct_fold (l : list IModel) (st : State) :
  uncaught st = [] ∧
  (∀ i o, validations st !! i = Some (Done o) → o = Fulfilled tt) →
  uncaught (foldl (λ st model, onModelAdd _selector model st) st l) = [] ∧
  (∀ i o, validations (foldl (λ st model, onModelAdd _selector model st) st l) !! i
          = Some (Done o) → o = Fulfilled tt).
Proof.
  revert st. induction l as [|m l IH]; intros st H; [exact H|].
  simpl. apply IH. destruct H as [Hu Hd].
  split; [rewrite uncaught_onModelAdd; exact Hu|].
  intros i o. unfold onModelAdd. destruct (bool_decide _); [apply Hd|].
  simpl. intros Hi. apply lookup_snoc_Some in Hi as [[_ Hi]|[_ Hi]];
    [apply (Hd i o Hi)|discriminate].
Qed.

(** X9. In every state the adapter can reach, no error has reached the
    event loop, and every validation pass that is over ended fulfilled: a
    timer callback never finds its model disposed, and no rejection gets
    past the last reaction. *)
Theorem no_error_escapes (st : State) :
  reachable ts _selector st →
  uncaught st = [] ∧
  ∀ i o, validations st !! i = Some (Done o) → o = Fulfilled tt.
Proof.
  intros (ms & es & Hnd & ->).
  assert (H0 : uncaught (construct _selector ms) = [] ∧
               ∀ i o, validations (construct _selector ms) !! i = Some (Done o) →
                      o = Fulfilled tt).
  { apply quiet_construct_fold. split; [reflexivity|].
    intros i o H. simpl in H. rewrite lookup_nil in H. discriminate. }
  pose proof (consistent_construct _selector ms Hnd) as C0.
  revert H0 C0. generalize (construct _selector ms).
  induction es as [|e es IH]; intros st H C; [exact H|].
  rewrite run_cons. apply IH; [apply quiet_step; assumption|].
  apply consistent_step, C.
Qed.

(** X10. Every pass an event starts is a pass over the text that an open
    document of the tracked language holds right after the event: the text
    is read when the pass starts, not when the edit happened. *)
Theorem passes_start_on_current_text (e : Event) (st : State) :
  reachable ts _selector st →
  Forall (on_open_text _selector (step ts _selector e st))
         (started st (step ts _selector e st)).
Proof.
  intros R. pose proof (reachable_consistent ts _ st R) as C. unfold started.
  destruct (step_validations e st C) as [_ [(new & Hv & Hf)|(i & v & v' & _ & Hv & _)]];
    rewrite Hv.
  - rewrite drop_app_length. exact Hf.
  - rewrite drop_ge; [apply Forall_nil_2|]. rewrite length_insert. lia.
Qed.

(** X11. A validation pass only moves forward: whatever events follow, it
    stays where it is or goes from waiting for the worker to waiting for the
    diagnostics of the same text to done, and a pass that is over never
    changes again. *)
Theorem chains_move_forward (es : list Event) (st : State) (i : nat)
    (v : Validation) :
  reachable ts _selector st → validations st !! i = Some v →
  ∃ v', validations (run ts _selector es st) !! i = Some v' ∧ moved_on v v' ∧
        (∀ o, v = Done o → v' = v).
Proof.
  intros R. pose proof (reachable_consistent ts _ st R) as C. clear R.
  assert (H : validations st !! i = Some v →
              ∃ v', validations (run ts _selector es st) !! i = Some v' ∧
                    moved_on v v').
  { revert st v C. induction es as [|e es IH]; intros st v C Hi.
    - exists v. split; [exact Hi|apply moved_on_refl].
    - destruct (step_lookup e st i v C Hi) as (v1 & Hi1 & Hm1).
      destruct (IH _ v1 (consistent_step ts _ e st C) Hi1) as (v2 & Hi2 & Hm2).
      exists v2. split; [rewrite run_cons; exact Hi2|].
      eapply moved_on_trans; eassumption. }
  intros Hi. destruct (H Hi) as (v' & Hi' & Hm).
  exists v'. split; [exact Hi'|]. split; [exact Hm|].
  intros o ->. destruct Hm as [->|[Hst _]]; [reflexivity|].
  destruct v'; simpl in Hst; lia.
Qed.

(** *** After a document is disposed *)

Lemma step_no_pass (u : Uri) (n0 : nat) (e : Event) (st : State) :
  consistent _selector st →
  getModel u (step ts _selector e st) = None →
  (∀ i v, n0 ≤ i → validations st !! i = Some v → validation_resource v ≠ Some u) →
  ∀ i v, n0 ≤ i → validations (step ts _selector e st) !! i = Some v →
         validation_resource v ≠ Some u.
Proof.
  intros C Hgone Hold i v Hn Hi.
  destruct (step_validations e st C)
    as [_ [(new & Hv & Hf)|(j & w & w' & Hj & Hv & Hst & Hreq)]];
    rewrite Hv in Hi.
  - apply lookup_app_Some in Hi as [Hi|[_ Hi]]; [apply (Hold i v Hn Hi)|].
    rewrite Forall_forall in Hf.
    destruct (Hf v) as (m & Hm & _ & ->); [eapply list_elem_of_lookup_2; exact Hi|].
    simpl. intros [= E]. rewrite E, Hgone in Hm. discriminate.
  - apply list_lookup_insert_Some in Hi as [(<- & <- & _)|[_ Hi]];
      [|apply (Hold i v Hn Hi)].
    destruct Hreq as [Hreq | ->]; [|discriminate].
    rewrite (request_resource _ _ Hreq). apply (Hold j w Hn Hj).
Qed.

Lemma run_no_pass (u : Uri) (n0 : nat) (es : list Event) (st : State) :
  consistent _selector st → getModel u st = None →
  forallb (λ e, negb (creates u e)) es = true →
  (∀ i v, n0 ≤ i → validations st !! i = Some v → validation_resource v ≠ Some u) →
  ∀ i v, n0 ≤ i → validations (run ts _selector es st) !! i = Some v →
         validation_resource v ≠ Some u.
Proof.
  revert st. induction es as [|e es IH]; intros st C Hgone Hes Hold; [exact Hold|].
  simpl in Hes. apply andb_true_iff in Hes as [He Hes]. apply negb_true_iff in He.
  assert (Hgone' : getModel u (step ts _selector e st) = None).
  { apply step_keeps_disposed; assumption. }
  rewrite run_cons. apply IH; [apply consistent_step, C|exact Hgone'|exact Hes|].
  apply step_no_pass; assumption.
Qed.

(** X12. Once a document is disposed, no validation pass starts for it
    again, whatever happens, until a model is created under its uri: no
    timer of it is left to fire, and edits, language changes and
    configuration changes find no model. *)
Theorem no_pass_after_disposal (u : Uri) (es : list Event) (st : State) :
  reachable ts _selector st →
  forallb (λ e, negb (creates u e)) es = true →
  passes_for u (started st (run ts _selector (DisposeModel u :: es) st)) = [].
Proof.
  intros R Hes. pose proof (reachable_consistent ts _ st R) as C.
  rewrite run_cons.
  set (st1 := step ts _selector (DisposeModel u) st).
  assert (Hv1 : validations st1 = validations st).
  { unfold st1. simpl. destruct (getModel u st); [|reflexivity].
    simpl. apply validations_onModelRemoved. }
  apply filter_none. intros v Hv. unfold started in Hv.
  apply list_elem_of_lookup in Hv as (i & Hi). rewrite lookup_drop in Hi.
  apply (run_no_pass u (length (validations st)) es st1) with (i := length (validations st) + i).
  - apply consistent_step, C.
  - apply dispose_removes_model.
  - exact Hes.
  - intros j w Hj Hw. rewrite Hv1 in Hw.
    apply lookup_lt_Some in Hw. lia.
  - lia.
  - exact Hi.
Qed.

End Passes.

(** ** Which documents are tracked *)

Section Tracked.

Variable ts : DiagnosticCategory.
Variable _selector : string.

Lemma tracked_onModelAdd (u : Uri) (m : IModel) (st : State) :
  tracked u st → tracked u (onModelAdd _selector m st).
Proof.
  intros [a Ha]. unfold tracked, onModelAdd.
  destruct (bool_decide _); [exists a; exact Ha|]. simpl.
  rewrite lookup_insert. case_decide; eauto.
Qed.

Lemma tracked_onModelAdd_self (m : IModel) (st : State) :
  modeId m = _selector → tracked (uri m) (onModelAdd _selector m st).
Proof.
  intros Hsel. unfold tracked, onModelAdd.
  rewrite bool_decide_eq_false_2 by (intros H; apply H, Hsel).
  simpl. rewrite lookup_insert_eq. eauto.
Qed.

Lemma listener_tick (st : State) : _listener (tick st) = _listener st.
Proof. destruct (tick_document EmptyString st) as (_ & _ & _ & _ & _ & _ & H). exact H. Qed.

Lemma listener_advance (d : nat) (st : State) : _listener (advance d st) = _listener st.
Proof.
  revert st. induction d as [|k IH]; intros st; simpl; [reflexivity|].
  rewrite IH. apply listener_tick.
Qed.

Lemma all_tracked_construct_fold (l : list IModel) (st : State) :
  (∀ u, tracked u st → tracked u (foldl (λ st model, onModelAdd _selector model st) st l)) ∧
  (∀ m, m ∈ l → modeId m = _selector →
        tracked (uri m) (foldl (λ st model, onModelAdd _selector model st) st l)).
Proof.
  revert st. induction l as [|m0 l IH]; intros st; simpl.
  - split; [auto|]. intros m Hm. apply elem_of_nil in Hm. destruct Hm.
  - destruct (IH (onModelAdd _selector m0 st)) as [Hkeep Hnew]. split.
    + intros u Hu. apply Hkeep, tracked_onModelAdd, Hu.
    + intros m Hm Hsel. apply elem_of_cons in Hm as [->|Hm].
      * apply Hkeep, tracked_onModelAdd_self, Hsel.
      * apply Hnew; assumption.
Qed.

Lemma models_construct_fold (l : list IModel) (st : State) :
  models (foldl (λ st model, onModelAdd _selector model st) st l) = models st.
Proof.
  revert st. induction l as [|m l IH]; intros st; simpl; [reflexivity|].
  rewrite IH. apply models_onModelAdd.
Qed.

Lemma models_construct (ms : list IModel) : models (construct _selector ms) = ms.
Proof. unfold construct. rewrite models_construct_fold. reflexivity. Qed.

Lemma all_tracked_step (e : Event) (st : State) :
  consistent _selector st → all_tracked _selector st →
  all_tracked _selector (step ts _selector e st).
Proof.
  intros C A.
  destruct e as [r lang ls|r|r lang|r ls|ms|i w|i d| |v|v]; simpl.
  - destruct (getModel r st) eqn:Hr; [exact A|].
    intros m Hm Hsel. rewrite models_onModelAdd in Hm. simpl in Hm.
    apply elem_of_app in Hm as [Hm|Hm].
    + apply tracked_onModelAdd. apply (A m Hm Hsel).
    + apply list_elem_of_singleton in Hm as ->.
      apply (tracked_onModelAdd_self
               {| uri := r; modeId := lang; linesContent := ls |}). exact Hsel.
  - destruct (getModel r st) as [model|] eqn:Hr; [|exact A].
    apply getModel_Some in Hr as [_ Hr].
    intros m Hm Hsel. simpl in Hm. apply list_elem_of_filter in Hm as [Hne Hm].
    rewrite models_onModelRemoved in Hm.
    destruct (A m Hm Hsel) as [a Ha]. exists a. simpl.
    rewrite listener_onModelRemoved_other by congruence. exact Ha.
  - destruct (getModel r (update_model r (with_modeId lang) st)) as [model|] eqn:Hr;
      [|exact A].
    pose proof Hr as Hu. apply getModel_Some in Hu as [_ Hu].
    intros m Hm Hsel. rewrite models_onModelAdd, models_onModelRemoved in Hm.
    destruct (decide (uri m = r)) as [E|E].
    + assert (Hmodel : model = m).
      { assert (Hg : getModel (uri m) (update_model r (with_modeId lang) st) = Some m).
        { apply getModel_unique; [|exact Hm].
          rewrite uris_update by reflexivity. apply (models_unique _ _ C). }
        rewrite E, Hr in Hg. congruence. }
      subst model. apply tracked_onModelAdd_self, Hsel.
    + simpl in Hm. apply list_elem_of_fmap in Hm as (m0 & Hm0 & Hin).
      destruct (bool_decide (uri m0 = r)) eqn:B.
      { apply bool_decide_eq_true in B. subst m. simpl in E. congruence. }
      subst m0. destruct (A m Hin Hsel) as [a Ha].
      apply tracked_onModelAdd. exists a.
      rewrite listener_onModelRemoved_other by congruence. exact Ha.
  - destruct (getModel r (update_model r (with_linesContent ls) st)) as [model|];
      [|exact A].
    intros m Hm Hsel. rewrite models_changeCallbacks in Hm. simpl in Hm.
    apply list_elem_of_fmap in Hm as (m0 & Hm0 & Hin).
    assert (Hsame : uri m = uri m0 ∧ modeId m = modeId m0).
    { subst m. destruct (bool_decide (uri m0 = r)); split; reflexivity. }
    destruct Hsame as [Eu Em]. rewrite Em in Hsel. rewrite Eu.
    destruct (A m0 Hin Hsel) as [a Ha]. exists a.
    match goal with
    | |- context [foldl ?f ?s ?l] =>
      destruct (log_changeCallbacks l s) as (_ & _ & Hl)
    end.
    rewrite Hl. exact Ha.
  - intros m Hm Hsel. rewrite models_advance in Hm.
    unfold tracked. rewrite listener_advance. apply (A m Hm Hsel).
  - destruct (same_core_workerSettled ts _selector i w st) as (Hm & Hl & _).
    intros m Hin Hsel. unfold tracked. rewrite Hl. rewrite Hm in Hin.
    apply (A m Hin Hsel).
  - destruct (same_core_diagnosticsSettled ts _selector i d st) as (Hm & Hl & _).
    intros m Hin Hsel. unfold tracked. rewrite Hl. rewrite Hm in Hin.
    apply (A m Hin Hsel).
  - intros m Hm Hsel. rewrite models_recomputeDiagostics in Hm.
    destruct (retrack_fresh _selector (models st) st m) as (a & Ha & _);
      [apply (models_unique _ _ C)|exact Hm|exact Hsel|].
    exists a. exact Ha.
  - exact A.
  - exact A.
Qed.

(** X13. In every state the adapter can reach, the documents with a
    Subscription Record are exactly the open documents of the tracked
    language. *)
Theorem tracked_iff_open (st : State) (u : Uri) :
  reachable ts _selector st →
  (tracked u st ↔ ∃ m, getModel u st = Some m ∧ modeId m = _selector).
Proof.
  intros (ms & es & Hnd & ->).
  assert (H : consistent _selector (run ts _selector es (construct _selector ms)) ∧
              all_tracked _selector (run ts _selector es (construct _selector ms))).
  { assert (A0 : all_tracked _selector (construct _selector ms)).
    { intros m Hm Hsel. rewrite models_construct in Hm.
      apply (all_tracked_construct_fold ms (host ms)); assumption. }
    pose proof (consistent_construct _selector ms Hnd) as C0.
    revert A0 C0. generalize (construct _selector ms).
    induction es as [|e es IH]; intros st A C; [split; assumption|].
    rewrite run_cons. apply IH; [apply all_tracked_step; assumption|].
    apply consistent_step, C. }
  destruct H as [C A]. split.
  - intros [a Ha]. apply (listener_model _ _ C u a Ha).
  - intros (m & Hm & Hsel). apply getModel_Some in Hm as [Hin <-].
    apply (A m Hin Hsel).
Qed.

(** X14. An edit of a document that has no record only changes its text:
    no timer is set, no pass starts and no record appears. *)
Theorem untracked_edit_schedules_nothing (u : Uri) (ls : list string) (st : State) :
  reachable ts _selector st → ¬ tracked u st →
  let st' := step ts _selector (ChangeContent u ls) st in
  timers st' = timers st ∧ validations st' = validations st ∧
  _listener st' = _listener st ∧ markers st' = markers st.
Proof.
  intros R Hun st'. pose proof (reachable_consistent ts _ st R) as C.
  assert (Hl : _listener st !! u = None).
  { destruct (_listener st !! u) as [a|] eqn:E; [|reflexivity].
    exfalso. apply Hun. exists a. exact E. }
  unfold st'. simpl.
  destruct (getModel u (update_model u (with_linesContent ls) st)); [|repeat split].
  change (subscribers u (update_model u (with_linesContent ls) st))
    with (subscribers u st).
  rewrite (subscribers_untracked _selector u st C Hl). repeat split.
Qed.

End Tracked.

(** ** How long a timer waits *)

Section Latency.

Variable ts : DiagnosticCategory.
Variable _selector : string.

(** X15. After an edit of a tracked document, no validation pass starts for
    it during the next 499 milliseconds, and its timer is still pending. *)
Theorem no_pass_before_delay (u : Uri) (ls : list string) (d : nat) (st : State) :
  reachable ts _selector st → tracked u st → d < debounce →
  let st' := run ts _selector [ChangeContent u ls; Advance d] st in
  length (pendingTimers u st') = 1 ∧
  ∃ new, validations st' = validations st ++ new ∧ passes_for u new = [].
Proof.
  intros R T Hd st'. pose proof (reachable_consistent ts _ st R) as C.
  destruct (edit_arms ts _selector u ls st C T) as (_ & Harmed & Hv & _).
  destruct Harmed as (_ & (t & Hp & Hdue) & _).
  destruct (advance_quiet u t d _ Hp) as (new & Hv' & Hn & Hp' & _); [lia|].
  change st' with (advance d (step ts _selector (ChangeContent u ls) st)).
  rewrite Hp'. split; [reflexivity|].
  exists new. rewrite Hv', Hv. split; [reflexivity|exact Hn].
Qed.

Lemma filter_all {A : Type} (P : A → Prop) `{∀ x, Decision (P x)} (l : list A) :
  (∀ x, x ∈ l → P x) → filter P l = l.
Proof.
  induction l as [|x l IH]; intros Hl; [reflexivity|].
  rewrite filter_cons_True by (apply Hl; left).
  rewrite IH; [reflexivity|]. intros y Hy. apply Hl. right. exact Hy.
Qed.

Lemma timers_tick (st : State) :
  timers (tick st) = filter (λ t, ¬ t_due t ≤ S (now st)) (timers st) ∧
  now (tick st) = S (now st).
Proof.
  unfold tick. simpl.
  match goal with
  | |- context [foldl ?f ?s ?l] =>
    destruct (same_core_timerCallbacks l s) as (_ & _ & _ & Ht & _ & Hn)
  end.
  rewrite Ht, Hn. split; reflexivity.
Qed.

(** The timers still pending after [d] milliseconds are those due later. *)
Lemma timers_advance (d : nat) (st : State) :
  consistent _selector st →
  timers (advance d st) = filter (λ t, now st + d < t_due t) (timers st).
Proof.
  revert st. induction d as [|k IH]; intros st C; simpl.
  - symmetry. apply filter_all. intros t Ht.
    pose proof (timer_due _ _ C t Ht). lia.
  - destruct (timers_tick st) as [Ht Hn].
    rewrite IH by (apply consistent_tick, C). rewrite Ht, Hn.
    rewrite list_filter_filter. apply list_filter_iff. intros t. lia.
Qed.

Lemma length_filter_split {A : Type} (P : A → Prop) `{∀ x, Decision (P x)}
    (l : list A) :
  length (filter P l) + length (filter (λ x, ¬ P x) l) = length l.
Proof.
  induction l as [|x l IH]; [reflexivity|].
  rewrite !(filter_cons _ x).
  destruct (decide (P x)), (decide (¬ P x)); simpl; try lia; tauto.
Qed.

Lemma length_timer_passes (st : State) (l : list Timer) :
  consistent _selector st → (∀ t, t ∈ l → t ∈ timers st) →
  length (flat_map (timer_pass st) l) = length l.
Proof.
  intros C. induction l as [|t l IH]; intros Hl; [reflexivity|].
  simpl. rewrite length_app, IH by (intros t' Ht'; apply Hl; right; exact Ht').
  destruct (timer_reads_model _selector st t C) as (m & Hm & _); [apply Hl; left|].
  unfold timer_pass. rewrite Hm. reflexivity.
Qed.

(** Firing turns timers into passes, one for one. *)
Lemma tick_conserves (st : State) :
  consistent _selector st →
  length (validations (tick st)) + length (timers (tick st))
  = length (validations st) + length (timers st).
Proof.
  intros C. destruct (timers_tick st) as [Ht _]. rewrite Ht.
  unfold tick. simpl. rewrite validations_timerCallbacks, length_app. simpl.
  set (P := λ t : Timer, t_due t ≤ S (now st)).
  pose proof (length_filter_split P (timers st)) as Hsplit.
  change (timer_pass (set_timers (filter (λ t, ¬ t_due t ≤ S (now st))) (set_now S st)))
    with (timer_pass st).
  rewrite (length_timer_passes st (filter P (timers st)) C).
  - unfold P in *. lia.
  - intros t Ht'. apply list_elem_of_filter in Ht' as [_ Ht']. exact Ht'.
Qed.

Lemma advance_conserves (d : nat) (st : State) :
  consistent _selector st →
  length (validations (advance d st)) + length (timers (advance d st))
  = length (validations st) + length (timers st).
Proof.
  revert st. induction d as [|k IH]; intros st C; simpl; [reflexivity|].
  rewrite IH by (apply consistent_tick, C). apply tick_conserves, C.
Qed.

(** X16. A pending timer never waits longer than the delay: after 500
    milliseconds in which nothing but time passes, no timer is pending, and
    each timer that was pending has started exactly one validation pass. *)
Theorem timers_fire_within_delay (d : nat) (st : State) :
  reachable ts _selector st → debounce ≤ d →
  timers (advance d st) = [] ∧
  length (validations (advance d st)) = length (validations st) + length (timers st).
Proof.
  intros R Hd. pose proof (reachable_consistent ts _ st R) as C.
  assert (Hnone : timers (advance d st) = []).
  { rewrite (timers_advance d st C). apply filter_none. intros t Ht.
    pose proof (timer_due _ _ C t Ht). lia. }
  split; [exact Hnone|].
  pose proof (advance_conserves d st C) as H. rewrite Hnone in H. simpl in H. lia.
Qed.

End Latency.

(** ** The adapter's [dispose] *)

Section Lifecycle.

Variable ts : DiagnosticCategory.
Variable _selector : string.

(** While all its listeners are attached, the adapter sees every event. *)
Lemma adapter_step_attached (e : Event) (this : Adapter) :
  hooks this = all_hooks →
  adapter_step ts _selector e this
  = with_world (step ts _selector e (world this)) this.
Proof.
  intros Hh. destruct this as [st h ds]. simpl in Hh. subst h.
  unfold adapter_step, with_world. simpl.
  destruct e as [r lang ls|r|r lang|r ls|ms|i w|i d| |v|v]; simpl;
    try reflexivity.
  - destruct (getModel r st); reflexivity.
  - destruct (getModel r st); reflexivity.
  - destruct (getModel r (update_model r (with_modeId lang) st)); reflexivity.
Qed.

Lemma adapter_run_attached (es : list Event) (this : Adapter) :
  hooks this = all_hooks →
  adapter_run ts _selector es this
  = with_world (run ts _selector es (world this)) this.
Proof.
  revert this. induction es as [|e es IH]; intros this Hh.
  - destruct this. reflexivity.
  - change (adapter_run ts _selector (e :: es) this)
      with (adapter_run ts _selector es (adapter_step ts _selector e this)).
    rewrite adapter_step_attached by exact Hh.
    rewrite IH by exact Hh. reflexivity.
Qed.

(** *** Untracking every open model *)

Lemma listener_onModelRemoved_self (m : IModel) (st : State) :
  _listener (onModelRemoved _selector m st) !! uri m = None.
Proof.
  unfold onModelRemoved. simpl.
  destruct (_listener st !! uri m) eqn:E; simpl; [apply lookup_delete_eq|exact E].
Qed.

Lemma listener_onModelRemoved_none (m : IModel) (u : Uri) (st : State) :
  _listener st !! u = None → _listener (onModelRemoved _selector m st) !! u = None.
Proof.
  intros H. destruct (decide (uri m = u)) as [<-|Hne].
  - apply listener_onModelRemoved_self.
  - rewrite listener_onModelRemoved_other by exact Hne. exact H.
Qed.

Lemma untrack_all_facts (l : list IModel) (st : State) :
  consistent _selector st →
  consistent _selector (untrack_all _selector l st) ∧
  models (untrack_all _selector l st) = models st ∧
  validations (untrack_all _selector l st) = validations st ∧
  (∀ u, _listener st !! u = None → _listener (untrack_all _selector l st) !! u = None) ∧
  (∀ m, m ∈ l → _listener (untrack_all _selector l st) !! uri m = None) ∧
  (∀ m, m ∈ l → getModelMarkers (uri m) _selector (untrack_all _selector l st) = []) ∧
  (∀ k, markers st !! k = None → markers (untrack_all _selector l st) !! k = None).
Proof.
  revert st. induction l as [|m0 l IH]; intros st C.
  - split; [exact C|]. split; [reflexivity|]. split; [reflexivity|].
    split; [auto|]. split; [|split; [|auto]];
      intros m Hm; apply elem_of_nil in Hm; destruct Hm.
  - destruct (consistent_onModelRemoved _selector m0 st C) as [C1 _].
    destruct (IH _ C1) as (C' & Hm & Hv & Hnone & Hrem & Hmark & Hkeep).
    change (untrack_all _selector (m0 :: l) st)
      with (untrack_all _selector l (onModelRemoved _selector m0 st)).
    split; [exact C'|]. split; [rewrite Hm; apply models_onModelRemoved|].
    split; [rewrite Hv; apply validations_onModelRemoved|].
    split; [intros u Hu; apply Hnone, listener_onModelRemoved_none, Hu|].
    split; [|split].
    + intros m Hin. apply elem_of_cons in Hin as [->|Hin]; [|apply Hrem, Hin].
      apply Hnone, listener_onModelRemoved_self.
    + intros m Hin. apply elem_of_cons in Hin as [->|Hin]; [|apply Hmark, Hin].
      unfold getModelMarkers. rewrite Hkeep; [reflexivity|].
      rewrite markers_onModelRemoved. apply lookup_delete_eq.
    + intros k Hk. apply Hkeep. rewrite markers_onModelRemoved.
      rewrite lookup_delete. case_decide; [reflexivity|exact Hk].
Qed.

Lemma inert_of_no_records (st : State) :
  consistent _selector st → (∀ u, _listener st !! u = None) → inert st.
Proof.
  intros C Hl. split; [apply map_empty; exact Hl|]. split.
  - destruct (timers st) as [|t l] eqn:E; [reflexivity|]. exfalso.
    destruct (timer_activation _ _ C t) as (act & Hact & _ & Hs);
      [rewrite E; left|].
    pose proof (subscribed_listener _ _ C _ _ Hact Hs) as H.
    rewrite Hl in H. discriminate.
  - intros a act Hact. destruct (a_subscribed act) eqn:Hs; [|reflexivity].
    pose proof (subscribed_listener _ _ C _ _ Hact Hs) as H.
    rewrite Hl in H. discriminate.
Qed.

Lemma untrack_all_inert (st : State) :
  consistent _selector st → inert (untrack_all _selector (models st) st).
Proof.
  intros C.
  destruct (untrack_all_facts (models st) st C) as (C' & _ & _ & Hnone & Hrem & _).
  apply inert_of_no_records; [exact C'|]. intros u.
  destruct (_listener st !! u) as [a|] eqn:E; [|apply Hnone, E].
  destruct (listener_model _ _ C u a E) as (m & Hm & _).
  apply getModel_Some in Hm as [Hin <-]. apply Hrem, Hin.
Qed.

Lemma dispose_result (ms : list IModel) (es : list Event) :
  let w := run ts _selector es (construct _selector ms) in
  dispose _selector (adapter_run ts _selector es (new_adapter _selector ms))
  = {| world := untrack_all _selector (models w) w;
       hooks := no_hooks; _disposables := [] |}.
Proof.
  intros w. rewrite adapter_run_attached by reflexivity. reflexivity.
Qed.

Lemma dispose_inert_start (ms : list IModel) (es : list Event) :
  NoDup (uri <$> ms) →
  inert (world (dispose _selector
                  (adapter_run ts _selector es (new_adapter _selector ms)))) ∧
  hooks (dispose _selector (adapter_run ts _selector es (new_adapter _selector ms)))
  = no_hooks.
Proof.
  intros Hnd. rewrite dispose_result. simpl. split; [|reflexivity].
  apply untrack_all_inert, consistent_run, consistent_construct, Hnd.
Qed.

(** X17. Disposing of the adapter, in whatever state it is, leaves nothing
    of it behind: no record, no pending timer, no attached change listener,
    none of its four top-level listeners, and no markers under its owner tag
    on any open document.  No validation pass is started or dropped by it,
    and a second [dispose] changes nothing. *)
Theorem dispose_clears (ms : list IModel) (es : list Event) :
  NoDup (uri <$> ms) →
  let before := adapter_run ts _selector es (new_adapter _selector ms) in
  let this := dispose _selector before in
  inert (world this) ∧ hooks this = no_hooks ∧ _disposables this = [] ∧
  (∀ m, m ∈ models (world this) → getModelMarkers (uri m) _selector (world this) = []) ∧
  validations (world this) = validations (world before) ∧
  dispose _selector this = this.
Proof.
  intros Hnd before this.
  pose proof (consistent_run ts _selector es _ (consistent_construct _selector ms Hnd))
    as C.
  assert (Hb : before = with_world (run ts _selector es (construct _selector ms))
                          (new_adapter _selector ms)).
  { apply adapter_run_attached. reflexivity. }
  set (w := run ts _selector es (construct _selector ms)) in *.
  assert (Ht : this = {| world := untrack_all _selector (models w) w;
                         hooks := no_hooks; _disposables := [] |}).
  { unfold this. rewrite Hb. reflexivity. }
  rewrite Ht. simpl.
  destruct (untrack_all_facts (models w) w C) as (_ & Hm & Hv & _ & _ & Hmark & _).
  split; [apply untrack_all_inert, C|]. split; [reflexivity|].
  split; [reflexivity|]. split; [|split].
  - intros m Hin. rewrite Hm in Hin. apply Hmark, Hin.
  - rewrite Hv, Hb. reflexivity.
  - reflexivity.
Qed.

(** *** After [dispose] *)

Lemma advance_inert (d : nat) (st : State) :
  timers st = [] →
  timers (advance d st) = [] ∧ _listener (advance d st) = _listener st ∧
  activations (advance d st) = activations st ∧
  validations (advance d st) = validations st.
Proof.
  revert st. induction d as [|k IH]; intros st Ht; simpl; [repeat split; exact Ht|].
  assert (Htick : timers (tick st) = [] ∧ _listener (tick st) = _listener st ∧
                  activations (tick st) = activations st ∧
                  validations (tick st) = validations st).
  { unfold tick. simpl. rewrite Ht, filter_nil. simpl. rewrite Ht, filter_nil.
    repeat split. }
  destruct Htick as (T & L & A & V).
  destruct (IH _ T) as (T' & L' & A' & V'). repeat split; congruence.
Qed.

Lemma subscribers_inert (u : Uri) (st : State) :
  (∀ a act, activations st !! a = Some act → a_subscribed act = false) →
  subscribers u st = [].
Proof.
  intros H. destruct (subscribers u st) as [|a l] eqn:E; [reflexivity|].
  assert (Ha : a ∈ subscribers u st) by (rewrite E; left).
  apply elem_of_subscribers in Ha as (act & Hact & Hs & _).
  rewrite (H a act Hact) in Hs. discriminate.
Qed.

Lemma inert_adapter_step (e : Event) (this : Adapter) :
  hooks this = no_hooks → inert (world this) →
  hooks (adapter_step ts _selector e this) = no_hooks ∧
  inert (world (adapter_step ts _selector e this)) ∧
  length (validations (world (adapter_step ts _selector e this)))
  = length (validations (world this)).
Proof.
  intros Hh I. destruct this as [st h ds]. simpl in Hh, I. subst h.
  destruct I as (Hl & Ht & Ha).
  unfold adapter_step. simpl.
  destruct e as [r lang ls|r|r lang|r ls|ms|i w|i d| |v|v]; simpl.
  - destruct (getModel r st); simpl; repeat split; assumption.
  - destruct (getModel r st); simpl; repeat split; assumption.
  - destruct (getModel r (update_model r (with_modeId lang) st)); simpl;
      repeat split; assumption.
  - destruct (getModel r (update_model r (with_linesContent ls) st)); simpl;
      [|repeat split; assumption].
    change (subscribers r (update_model r (with_linesContent ls) st))
      with (subscribers r st).
    rewrite (subscribers_inert r st Ha). simpl. repeat split; assumption.
  - destruct (advance_inert ms st Ht) as (T & L & A & V).
    split; [reflexivity|]. split; [|rewrite V; reflexivity].
    split; [rewrite L; exact Hl|]. split; [exact T|]. rewrite A. exact Ha.
  - destruct (same_core_workerSettled ts _selector i w st) as (_ & L & A & T & _).
    split; [reflexivity|]. split.
    + split; [rewrite L; exact Hl|]. split; [rewrite T; exact Ht|].
      rewrite A. exact Ha.
    + destruct (settle_worker ts _selector i w st) as [_ [Hv|(x & x' & _ & Hv & _)]];
        rewrite Hv; [reflexivity|apply length_insert].
  - destruct (same_core_diagnosticsSettled ts _selector i d st) as (_ & L & A & T & _).
    split; [reflexivity|]. split.
    + split; [rewrite L; exact Hl|]. split; [rewrite T; exact Ht|].
      rewrite A. exact Ha.
    + destruct (settle_diagnostics ts _selector i d st)
        as [_ [Hv|(x & x' & _ & Hv & _)]];
        rewrite Hv; [reflexivity|apply length_insert].
  - repeat split; assumption.
  - repeat split; assumption.
  - repeat split; assumption.
Qed.

(** X18. A disposed adapter stays out of the way: whatever the host does
    afterwards (models created, edited, disposed or switched to another
    language, configuration changed, time passing, late answers of the
    worker), no record, timer or change listener appears and no validation
    pass is started. *)
Theorem disposed_adapter_is_inert (ms : list IModel) (es es' : list Event) :
  NoDup (uri <$> ms) →
  let this := dispose _selector (adapter_run ts _selector es (new_adapter _selector ms)) in
  let after := adapter_run ts _selector es' this in
  inert (world after) ∧ hooks after = no_hooks ∧
  length (validations (world after)) = length (validations (world this)).
Proof.
  intros Hnd this after.
  destruct (dispose_inert_start ms es Hnd) as (I & Hh). fold this in I, Hh.
  unfold after. clear after. clearbody this. revert this I Hh.
  induction es' as [|e es' IH]; intros this I Hh;
    [split; [exact I|split; [exact Hh|reflexivity]]|].
  change (adapter_run ts _selector (e :: es') this)
    with (adapter_run ts _selector es' (adapter_step ts _selector e this)).
  destruct (inert_adapter_step e this Hh I) as (Hh1 & I1 & Hlen).
  destruct (IH _ I1 Hh1) as (I2 & Hh2 & Hlen2).
  split; [exact I2|]. split; [exact Hh2|congruence].
Qed.

End Lifecycle.

(** ** Worked instances of the further properties *)

Lemma publish_replaces_witness :
  handed_markers "a.lg" lg
    (diagnosticsSettled typescript_categories lg 0 (Fulfilled [sample_diagnostic])
       one_document_waiting)
  = map (_convertDiagnostics typescript_categories "a.lg") [sample_diagnostic].
Proof.
  apply (publish_replaces typescript_categories lg one_document_waiting 0
           "a.lg" "# hi" [sample_diagnostic]).
  - vm_compute. reflexivity.
  - vm_compute. discriminate.
Defined.

Lemma last_arrival_wins_witness :
  handed_markers "a.lg" lg
    (diagnosticsSettled typescript_categories lg 0 (Fulfilled [sample_diagnostic])
       (diagnosticsSettled typescript_categories lg 1 (Fulfilled []) two_waiting))
  = map (_convertDiagnostics typescript_categories "a.lg") [sample_diagnostic].
Proof.
  apply (last_arrival_wins typescript_categories lg two_waiting 0 1
           "a.lg" "# hi" "# hi" [sample_diagnostic] []).
  - lia.
  - vm_compute. reflexivity.
  - vm_compute. reflexivity.
  - vm_compute. discriminate.
Defined.

Lemma no_error_escapes_witness :
  uncaught switched_document = [] ∧
  ∀ i o, validations switched_document !! i = Some (Done o) → o = Fulfilled tt.
Proof.
  apply (no_error_escapes typescript_categories lg switched_document).
  exact switched_document_reachable.
Defined.

Lemma passes_start_on_current_text_witness :
  Forall (on_open_text lg (step typescript_categories lg DefaultsChanged two_documents))
         (started two_documents
            (step typescript_categories lg DefaultsChanged two_documents)).
Proof.
  apply (passes_start_on_current_text typescript_categories lg DefaultsChanged
           two_documents).
  exact two_documents_reachable.
Defined.

Lemma chains_move_forward_witness :
  ∃ v', validations
          (run typescript_categories lg
             [WorkerSettled 0 (Fulfilled {| worker_id := 0 |}); DefaultsChanged]
             one_document) !! 0 = Some v' ∧
        moved_on (PendingWorker "a.lg" "# hi") v' ∧
        (∀ o, PendingWorker "a.lg" "# hi" = Done o → v' = PendingWorker "a.lg" "# hi").
Proof.
  apply (chains_move_forward typescript_categories lg
           [WorkerSettled 0 (Fulfilled {| worker_id := 0 |}); DefaultsChanged]
           one_document 0 (PendingWorker "a.lg" "# hi")).
  - exact one_document_reachable.
  - vm_compute. reflexivity.
Defined.

Lemma no_pass_after_disposal_witness :
  passes_for "a.lg"
    (started edited_document
       (run typescript_categories lg
          (DisposeModel "a.lg" :: [Advance 600; DefaultsChanged]) edited_document))
  = [].
Proof.
  apply (no_pass_after_disposal typescript_categories lg "a.lg"
           [Advance 600; DefaultsChanged] edited_document).
  - exact edited_document_reachable.
  - vm_compute. reflexivity.
Defined.

Lemma tracked_iff_open_witness :
  (tracked "a.lg" one_document
   ↔ ∃ m, getModel "a.lg" one_document = Some m ∧ modeId m = lg) ∧
  tracked "a.lg" one_document.
Proof.
  pose proof (tracked_iff_open typescript_categories lg one_document "a.lg"
                one_document_reachable) as H.
  split; [exact H|]. apply H. exists first_model.
  split; vm_compute; reflexivity.
Defined.

Lemma untracked_edit_schedules_nothing_witness :
  let st' := step typescript_categories lg (ChangeContent "a.lg" ["# new"])
               switched_document in
  timers st' = timers switched_document ∧
  validations st' = validations switched_document ∧
  _listener st' = _listener switched_document ∧
  markers st' = markers switched_document.
Proof.
  apply (untracked_edit_schedules_nothing typescript_categories lg "a.lg" ["# new"]
           switched_document).
  - exact switched_document_reachable.
  - intros [a Ha]. vm_compute in Ha. discriminate.
Defined.

Lemma no_pass_before_delay_witness :
  let st' := run typescript_categories lg
               [ChangeContent "a.lg" ["# new"]; Advance 499] one_document in
  length (pendingTimers "a.lg" st') = 1 ∧
  ∃ new, validations st' = validations one_document ++ new ∧
         passes_for "a.lg" new = [].
Proof.
  apply (no_pass_before_delay typescript_categories lg "a.lg" ["# new"] 499
           one_document).
  - exact one_document_reachable.
  - exists 0. vm_compute. reflexivity.
  - vm_compute. lia.
Defined.

Lemma timers_fire_within_delay_witness :
  timers edited_document ≠ [] ∧
  timers (advance 500 edited_document) = [] ∧
  length (validations (advance 500 edited_document))
  = length (validations edited_document) + length (timers edited_document).
Proof.
  split; [vm_compute; discriminate|].
  apply (timers_fire_within_delay typescript_categories lg 500 edited_document).
  - exact edited_document_reachable.
  - vm_compute. lia.
Defined.

Lemma dispose_clears_witness :
  let before := adapter_run typescript_categories lg
                  [CreateModel "a.lg" lg ["# hi"]; ChangeContent "a.lg" ["# new"]]
                  (new_adapter lg []) in
  let this := dispose lg before in
  inert (world this) ∧ hooks this = no_hooks ∧ _disposables this = [] ∧
  (∀ m, m ∈ models (world this) → getModelMarkers (uri m) lg (world this) = []) ∧
  validations (world this) = validations (world before) ∧
  dispose lg this = this.
Proof.
  apply (dispose_clears typescript_categories lg []
           [CreateModel "a.lg" lg ["# hi"]; ChangeContent "a.lg" ["# new"]]).
  apply NoDup_nil_2.
Defined.

Lemma disposed_adapter_is_inert_witness :
  let this := dispose lg
                (adapter_run typescript_categories lg
                   [CreateModel "a.lg" lg ["# hi"]] (new_adapter lg [])) in
  let after := adapter_run typescript_categories lg
                 [CreateModel "b.lg" lg ["# bye"]; ChangeContent "a.lg" ["# new"];
                  Advance 1000; DefaultsChanged] this in
  inert (world after) ∧ hooks after = no_hooks ∧
  length (validations (world after)) = length (validations (world this)).
Proof.
  apply (disposed_adapter_is_inert typescript_categories lg []
           [CreateModel "a.lg" lg ["# hi"]]
           [CreateModel "b.lg" lg ["# bye"]; ChangeContent "a.lg" ["# new"];
            Advance 1000; DefaultsChanged]).
  apply NoDup_nil_2.
Defined.

(** ** Severities, once more *)

(** X19. With pairwise different category numbers, a marker is an Error only
    for the Error category, a Warning only for the Warning category and a
    Hint only for the Suggestion category; everything else is Info. *)
Theorem toSeverity_exact (ts : DiagnosticCategory) (n : Z) :
  distinct_categories ts →
  (toSeverity ts n = Error ↔ n = Category_Error ts) ∧
  (toSeverity ts n = Warning ↔ n = Category_Warning ts) ∧
  (toSeverity ts n = Hint ↔ n = Category_Suggestion ts) ∧
  (toSeverity ts n = Info ↔
     n = Category_Message ts ∨ unrecognized ts n).
Proof.
  unfold distinct_categories, unrecognized, toSeverity.
  rewrite !NoDup_cons, !elem_of_cons, elem_of_nil.
  intros (H1 & H2 & H3 & _).
  destruct (Z.eqb_spec n (Category_Error ts)) as [E1|E1];
    [|destruct (Z.eqb_spec n (Category_Warning ts)) as [E2|E2];
      [|destruct (Z.eqb_spec n (Category_Message ts)) as [E3|E3];
        [|destruct (Z.eqb_spec n (Category_Suggestion ts)) as [E4|E4]]]];
    repeat split; intros; try discriminate; try congruence; try tauto;
    try (exfalso; subst n; tauto); auto.
Qed.

(** ** Whose markers the adapter writes *)

Section Markers.

Variable ts : DiagnosticCategory.
Variable _selector : string.

Lemma markers_changeCallbacks (l : list nat) (st : State) :
  markers (foldl (λ st a, changeCallback a st) st l) = markers st.
Proof.
  revert st. induction l as [|a l IH]; intros st; simpl; [reflexivity|].
  rewrite IH. unfold changeCallback, setTimeout, clearTimeout.
  repeat case_match; reflexivity.
Qed.

Lemma markers_timerCallbacks (l : list Timer) (st : State) :
  markers (foldl (λ st t, timerCallback (t_activation t) st) st l) = markers st.
Proof.
  revert st. induction l as [|t l IH]; intros st; simpl; [reflexivity|].
  rewrite IH. unfold timerCallback. case_match; reflexivity.
Qed.

Lemma markers_advance (d : nat) (st : State) : markers (advance d st) = markers st.
Proof.
  revert st. induction d as [|k IH]; intros st; simpl; [reflexivity|].
  rewrite IH. unfold tick. rewrite markers_timerCallbacks. reflexivity.
Qed.

Lemma markers_finish (i : nat) (r : State * Settled unit) :
  markers (finish i r) = markers r.1.
Proof. unfold finish. destruct r as [st [[]|e]]; reflexivity. Qed.

(** The reactions write at most the markers of the pass's document under the
    adapter's owner tag, and only while the document is open. *)
Lemma markers_validate_tail (resource : Uri)
    (p : Settled (option (list (list Diagnostic)))) (st : State) (k : Uri * string) :
  markers (validate_tail ts _selector resource p st).1 !! k = markers st !! k ∨
  (k = (resource, _selector) ∧ getModel resource st ≠ None).
Proof.
  unfold validate_tail, then_, validate_onDiagnostics.
  destruct p as [[ds|]|e]; simpl; try (left; reflexivity).
  destruct (getModel resource st) as [model|] eqn:Hm; simpl; [|left; reflexivity].
  apply getModel_Some in Hm as [_ Hm]. rewrite Hm.
  destruct (decide (k = (resource, _selector))) as [->|Hne].
  - right. split; [reflexivity|discriminate].
  - left. apply markers_setModelMarkers_other. exact Hne.
Qed.

Lemma markers_retrack (l : list IModel) (st : State) (k : Uri * string) :
  markers (foldl (retrack _selector) st l) !! k = markers st !! k ∨
  (k.2 = _selector ∧ markers (foldl (retrack _selector) st l) !! k = None).
Proof.
  revert st. induction l as [|m l IH]; intros st; simpl; [left; reflexivity|].
  assert (H1 : markers (retrack _selector st m) !! k = markers st !! k ∨
               (k.2 = _selector ∧ markers (retrack _selector st m) !! k = None)).
  { unfold retrack. rewrite markers_onModelAdd, markers_onModelRemoved.
    rewrite lookup_delete. case_decide as E; [|left; reflexivity].
    right. subst k. split; reflexivity. }
  destruct (IH (retrack _selector st m)) as [H2|H2]; [|right; exact H2].
  destruct H1 as [H1|[Hk H1]]; [left; congruence|].
  right. split; [exact Hk|congruence].
Qed.

Lemma markers_step (e : Event) (st : State) (k : Uri * string) :
  markers (step ts _selector e st) !! k = markers st !! k ∨
  (k.2 = _selector ∧
   (markers (step ts _selector e st) !! k = None ∨
    getModel k.1 (step ts _selector e st) ≠ None)).
Proof.
  destruct e as [r lang ls|r|r lang|r ls|ms|i w|i d| |v|v]; simpl.
  - destruct (getModel r st); [left; reflexivity|].
    rewrite markers_onModelAdd. left. reflexivity.
  - destruct (getModel r st) as [model|]; [|left; reflexivity]. simpl.
    rewrite markers_onModelRemoved, lookup_delete.
    case_decide as E; [|left; reflexivity].
    right. subst k. split; [reflexivity|left; reflexivity].
  - destruct (getModel r (update_model r (with_modeId lang) st)) as [model|];
      [|left; reflexivity].
    rewrite markers_onModelAdd, markers_onModelRemoved, lookup_delete.
    case_decide as E; [|left; reflexivity].
    right. subst k. split; [reflexivity|left; reflexivity].
  - destruct (getModel r (update_model r (with_linesContent ls) st));
      [|left; reflexivity].
    rewrite markers_changeCallbacks. left. reflexivity.
  - rewrite markers_advance. left. reflexivity.
  - unfold workerSettled.
    destruct (validations st !! i) as [[resource contents| |]|];
      try (left; reflexivity).
    destruct w as [w|e].
    + unfold validate_onWorker. destruct (getModel resource st) eqn:Hm;
        [left; reflexivity|].
      rewrite markers_finish, validate_tail_disposed by exact Hm. left. reflexivity.
    + rewrite markers_finish, validate_tail_rejected. left. reflexivity.
  - unfold diagnosticsSettled.
    destruct (validations st !! i) as [[|resource contents|]|];
      try (left; reflexivity).
    rewrite markers_finish.
    match goal with
    | |- context [validate_tail ts _selector resource ?p st] =>
      destruct (markers_validate_tail resource p st k) as [H|[-> Hopen]];
        [left; exact H|]
    end.
    right. split; [reflexivity|]. right. simpl.
    erewrite getModel_models; [exact Hopen|].
    rewrite models_finish. apply models_validate_tail.
  - change (recomputeDiagostics _selector st)
      with (foldl (retrack _selector) st (models st)).
    destruct (markers_retrack (models st) st k) as [H|[Hk H]];
      [left; exact H|right; split; [exact Hk|left; exact H]].
  - left. reflexivity.
  - left. reflexivity.
Qed.

(** X20. The adapter hands markers to the host under its own owner tag
    only: its handler for a model about to be disposed leaves the marker
    data of every other owner as it was, and so does every sequence of
    events in which the host disposes of no model (models created, edits,
    language and configuration changes, time passing, answers of the
    worker). *)
Theorem other_owners_untouched (es : list Event) (st : State) (u : Uri)
    (owner : string) :
  owner ≠ _selector →
  (∀ model, markers (onModelRemoved _selector model st) !! (u, owner)
            = markers st !! (u, owner)) ∧
  (forallb (λ e, negb (disposes e)) es = true →
   markers (run ts _selector es st) !! (u, owner) = markers st !! (u, owner)).
Proof.
  intros Hne. split.
  - intros model. rewrite markers_onModelRemoved.
    apply lookup_delete_ne. congruence.
  - revert st. induction es as [|e es IH]; intros st Hes; [reflexivity|].
    simpl in Hes. apply andb_true_iff in Hes as [_ Hes].
    rewrite run_cons, IH by exact Hes.
    destruct (markers_step e st (u, owner)) as [H|[Hk _]]; [exact H|].
    simpl in Hk. congruence.
Qed.

(** *** No markers on closed documents *)

Lemma getModel_snoc_open (u : Uri) (m : IModel) (st : State) :
  getModel u st ≠ None → getModel u (set_models (λ ms, ms ++ [m]) st) ≠ None.
Proof.
  unfold getModel. simpl. rewrite find_snoc.
  destruct (List.find _ (models st)); [discriminate|congruence].
Qed.

Lemma getModel_filter_open (u r : Uri) (st : State) :
  u ≠ r → getModel u st ≠ None →
  getModel u (set_models (filter (λ m, uri m ≠ r)) st) ≠ None.
Proof.
  intros Hne. unfold getModel. simpl.
  induction (models st) as [|m ms IH]; [auto|].
  simpl. rewrite filter_cons.
  destruct (bool_decide (uri m = u)) eqn:E.
  - intros _. apply bool_decide_eq_true in E.
    destruct (decide (uri m ≠ r)) as [_|Hn]; [|exfalso; apply Hn; congruence].
    simpl. rewrite bool_decide_eq_true_2 by exact E. discriminate.
  - intros H. destruct (decide (uri m ≠ r)); [|auto].
    simpl. rewrite E. auto.
Qed.

Lemma getModel_update_open (u r : Uri) (f : IModel → IModel) (st : State) :
  (∀ m, uri (f m) = uri m) →
  getModel u st ≠ None → getModel u (update_model r f st) ≠ None.
Proof.
  intros Hf H. rewrite getModel_update by exact Hf.
  destruct (getModel u st); [discriminate|congruence].
Qed.

(** An open document stays open unless the event disposes of it, and then
    its markers under the adapter's owner tag go with it. *)
Lemma step_keeps_open (e : Event) (st : State) (u : Uri) :
  getModel u st ≠ None →
  getModel u (step ts _selector e st) ≠ None ∨
  markers (step ts _selector e st) !! (u, _selector) = None.
Proof.
  intros Hopen.
  destruct e as [r lang ls|r|r lang|r ls|ms|i w|i d| |v|v]; simpl.
  - left. destruct (getModel r st); [exact Hopen|].
    erewrite getModel_models; [|apply models_onModelAdd].
    apply getModel_snoc_open, Hopen.
  - destruct (getModel r st) as [model|] eqn:Hr; [|left; exact Hopen].
    apply getModel_Some in Hr as [_ Hr].
    destruct (decide (u = r)) as [->|Hne].
    + right. simpl. rewrite markers_onModelRemoved, Hr. apply lookup_delete_eq.
    + left. apply getModel_filter_open; [exact Hne|].
      erewrite getModel_models; [exact Hopen|apply models_onModelRemoved].
  - left. destruct (getModel r (update_model r (with_modeId lang) st)) as [model|];
      [|exact Hopen].
    erewrite getModel_models;
      [|rewrite models_onModelAdd; apply models_onModelRemoved].
    apply getModel_update_open; [reflexivity|exact Hopen].
  - left. destruct (getModel r (update_model r (with_linesContent ls) st));
      [|exact Hopen].
    erewrite getModel_models; [|apply models_changeCallbacks].
    apply getModel_update_open; [reflexivity|exact Hopen].
  - left. erewrite getModel_models; [exact Hopen|apply models_advance].
  - left. erewrite getModel_models; [exact Hopen|apply models_workerSettled].
  - left. erewrite getModel_models; [exact Hopen|apply models_diagnosticsSettled].
  - left. erewrite getModel_models; [exact Hopen|apply models_recomputeDiagostics].
  - left. exact Hopen.
  - left. exact Hopen.
Qed.

Lemma markers_construct (ms : list IModel) : markers (construct _selector ms) = ∅.
Proof.
  unfold construct.
  assert (H : ∀ l st, markers (foldl (λ st model, onModelAdd _selector model st) st l)
                      = markers st).
  { induction l as [|m l IH]; intros st; simpl; [reflexivity|].
    rewrite IH. apply markers_onModelAdd. }
  rewrite H. reflexivity.
Qed.

(** X21. On a host that starts without markers, every marker set there is at
    any later moment lies under the adapter's owner tag on a document that
    is open: disposing of a document takes its markers along, and nothing is
    published for a document that is gone. *)
Theorem markers_only_on_open (st : State) (u : Uri) (owner : string)
    (ms : list IMarkerData) :
  reachable ts _selector st → markers st !! (u, owner) = Some ms →
  owner = _selector ∧ getModel u st ≠ None.
Proof.
  intros (l & es & _ & ->). revert u owner ms.
  assert (H0 : ∀ u owner ms,
            markers (construct _selector l) !! (u, owner) = Some ms →
            owner = _selector ∧ getModel u (construct _selector l) ≠ None).
  { intros u owner ms. rewrite markers_construct, lookup_empty. discriminate. }
  revert H0. generalize (construct _selector l).
  induction es as [|e es IH]; intros st H; [exact H|].
  rewrite run_cons. apply IH. intros u owner ms Hm.
  destruct (markers_step e st (u, owner)) as [Hsame|[Hk [Hnone|Hopen]]].
  - rewrite Hsame in Hm. destruct (H u owner ms Hm) as [Ho Hopen].
    split; [exact Ho|]. subst owner.
    destruct (step_keeps_open e st u Hopen) as [Hkeep|Hnone]; [exact Hkeep|].
    congruence.
  - congruence.
  - split; [exact Hk|exact Hopen].
Qed.

(** X22. Opening a document under a free uri: in the tracked language it
    starts exactly one validation pass, over the initial text, and gives the
    document a record; in any other language nothing changes but the host's
    list of models. *)
Theorem open_document (u : Uri) (lang : string) (ls : list string) (st : State) :
  getModel u st = None →
  let m := {| uri := u; modeId := lang; linesContent := ls |} in
  let st' := step ts _selector (CreateModel u lang ls) st in
  getModel u st' = Some m ∧
  (lang = _selector →
     validations st' = validations st ++ [PendingWorker u (join LF ls)] ∧
     tracked u st' ∧ timers st' = timers st) ∧
  (lang ≠ _selector → st' = set_models (λ ms, ms ++ [m]) st).
Proof.
  intros Hfree m st'. unfold st'. simpl. rewrite Hfree. fold m.
  split; [|split].
  - erewrite getModel_models; [|apply models_onModelAdd].
    unfold getModel in *. simpl. rewrite find_snoc, Hfree.
    simpl. rewrite bool_decide_eq_true_2; reflexivity.
  - intros ->. unfold onModelAdd.
    rewrite bool_decide_eq_false_2 by (intros H; apply H; reflexivity).
    simpl. split; [reflexivity|]. split; [|reflexivity].
    exists (length (activations st)). apply lookup_insert_eq.
  - intros Hne. unfold onModelAdd.
    rewrite bool_decide_eq_true_2 by exact Hne. reflexivity.
Qed.

End Markers.

Lemma toSeverity_exact_witness :
  (toSeverity typescript_categories 1 = Error ↔ 1%Z = 1%Z) ∧
  toSeverity typescript_categories 1 = Error.
Proof.
  assert (D : distinct_categories typescript_categories).
  { unfold distinct_categories. simpl.
    rewrite !NoDup_cons, !elem_of_cons, !elem_of_nil.
    repeat split; try lia. apply NoDup_nil_2. }
  destruct (toSeverity_exact typescript_categories 1 D) as (HE & _).
  split; [exact HE|]. apply HE. reflexivity.
Defined.

Lemma other_owners_untouched_witness :
  markers foreign_marker !! ("a.lg", "spellcheck")
  = Some [_convertDiagnostics typescript_categories "a.lg" sample_diagnostic] ∧
  markers (onModelRemoved lg switched_model foreign_marker) !! ("a.lg", "spellcheck")
  = markers foreign_marker !! ("a.lg", "spellcheck") ∧
  markers (run typescript_categories lg
             [SetModelLanguage "a.lg" lg; ChangeContent "a.lg" ["# new"];
              Advance 500; WorkerSettled 1 (Fulfilled {| worker_id := 0 |});
              DiagnosticsSettled 1 (Fulfilled []); DefaultsChanged]
             foreign_marker) !! ("a.lg", "spellcheck")
  = markers foreign_marker !! ("a.lg", "spellcheck").
Proof.
  assert (Hne : "spellcheck" ≠ lg) by (intros H; vm_compute in H; discriminate).
  split; [vm_compute; reflexivity|]. split.
  - apply (proj1 (other_owners_untouched typescript_categories lg [] foreign_marker
                    "a.lg" "spellcheck" Hne)).
  - apply (proj2 (other_owners_untouched typescript_categories lg
                    [SetModelLanguage "a.lg" lg; ChangeContent "a.lg" ["# new"];
                     Advance 500; WorkerSettled 1 (Fulfilled {| worker_id := 0 |});
                     DiagnosticsSettled 1 (Fulfilled []); DefaultsChanged]
                    foreign_marker "a.lg" "spellcheck" Hne)).
    vm_compute. reflexivity.
Defined.

Lemma markers_only_on_open_witness :
  lg = lg ∧ getModel "a.lg" switched_document ≠ None.
Proof.
  apply (markers_only_on_open typescript_categories lg switched_document "a.lg" lg
           [_convertDiagnostics typescript_categories "a.lg" sample_diagnostic]).
  - exact switched_document_reachable.
  - vm_compute. reflexivity.
Defined.

Lemma open_document_witness :
  let st' := step typescript_categories lg (CreateModel "b.lg" lg ["# bye"])
               one_document in
  validations st' = validations one_document ++ [PendingWorker "b.lg" "# bye"] ∧
  tracked "b.lg" st' ∧ timers st' = timers one_document.
Proof.
  intros st'.
  destruct (open_document typescript_categories lg "b.lg" lg ["# bye"] one_document)
    as (_ & Htracked & _).
  - vm_compute. reflexivity.
  - apply Htracked. reflexivity.
Defined.
